(** * bm25md: field-weighted BM25 ranking for markdown documents

    A shallow embedding of the Go package [bm25md] (tokenizer, per-field
    index, BM25F corpus scoring, search, markdown field parser) together
    with the properties of its specification.

    Conventions of the embedding.
    - Go [float64] values are idealised as real numbers [R] in the first
      embedding of the scoring code: rounding, infinities and NaN are
      abstracted away.  Every comparison the source makes on a float is
      kept, as a decision on [R].  What rounding, overflow or the order of
      a sum can break is stated over a second embedding of the scoring
      loop, [Float64], in IEEE 754 binary64.
    - Go [int] counters (term counts, lengths, document counts) never
      exceed the size of a slice held in memory, so they are natural
      numbers here; an [int] the caller chooses (a document index, a
      limit, a caller-set ID, a heading level) is a [Z].
    - A Go [string] is a byte string; [Field] is the Go type
      [type Field string].
    - Go maps are [gmap]s; a lookup of an absent key yields the zero
      value, written [default z (m !! k)].  Go iterates a map in an
      unspecified order: over [R] every loop over a map below folds a
      commutative update, so the order chosen by [map_fold] is
      immaterial; the embedding in binary64 takes the order of each loop
      as a parameter. *)

From Stdlib Require Import Reals Lra Lia ZArith Ascii String.
From Stdlib Require Floats Uint63.
From stdpp Require Import gmap strings list fin_maps sorting.

Local Open Scope string_scope.
Local Open Scope list_scope.

(** A decimal literal of a float denotes the nearest binary64 value, as
    it does in Go. *)
Set Warnings "-inexact-float".

(** ** Fields and configuration defaults *)

Abbreviation Field := string (only parsing).

Definition FieldH1 : Field := "h1".
Definition FieldH2 : Field := "h2".
Definition FieldH3 : Field := "h3".
Definition FieldH4 : Field := "h4".
Definition FieldH5 : Field := "h5".
Definition FieldH6 : Field := "h6".
Definition FieldBold : Field := "bold".
Definition FieldItalic : Field := "italic".
Definition FieldCode : Field := "code".
Definition FieldBody : Field := "body".

Definition DefaultFieldWeights : gmap Field R :=
  list_to_map
    [ (FieldH1, 5%R); (FieldH2, 3%R); (FieldH3, 2%R); (FieldH4, 2%R);
      (FieldH5, 2%R); (FieldH6, 2%R); (FieldBold, 1.5%R);
      (FieldItalic, 1.2%R); (FieldCode, 0.8%R); (FieldBody, 1%R) ].

Record Document := mkDocument {
  ID : Z;
  Fields : gmap Field string;
  Original : string
}.

Record BM25Parameters := mkParams { K1 : R; B : R }.

Definition DefaultBM25Parameters : BM25Parameters :=
  {| K1 := 1.2%R; B := 0.75%R |}.

(** ** Tokenizer *)

Record Tokenizer := TokenizerFunc { Tokenize : string → list string }.

Definition isUpper (c : ascii) : bool :=
  (65 <=? nat_of_ascii c)%nat && (nat_of_ascii c <=? 90)%nat.

(** [strings.ToLower], on the ASCII letters. *)
Definition lowerChar (c : ascii) : ascii :=
  if isUpper c then ascii_of_nat (nat_of_ascii c + 32) else c.

Fixpoint ToLower (s : string) : string :=
  match s with
  | EmptyString => EmptyString
  | String c s' => String (lowerChar c) (ToLower s')
  end.

(** The character class of [tokenRegex], [[a-zA-Z0-9_-]]; the regular
    expression itself matches the runs of bytes outside it. *)
Definition isTokenChar (c : ascii) : bool :=
  let n := nat_of_ascii c in
  ((97 <=? n) && (n <=? 122) || (65 <=? n) && (n <=? 90)
   || (48 <=? n) && (n <=? 57) || (n =? 95) || (n =? 45))%nat.

(** [tokenRegex.Split(text, -1)]: the pieces between the maximal runs of
    separators, an empty piece included where the text starts or ends
    with a separator. *)
Fixpoint regexSplit (s : string) (cur : string) (inSep : bool) : list string :=
  match s with
  | EmptyString => [cur]
  | String c s' =>
      if isTokenChar c then regexSplit s' (cur +:+ String c EmptyString) false
      else if inSep then regexSplit s' cur true
      else cur :: regexSplit s' EmptyString true
  end.

(** The white space [strings.TrimSpace] strips, on ASCII. *)
Definition isSpace (c : ascii) : bool :=
  let n := nat_of_ascii c in
  ((n =? 32) || (9 <=? n) && (n <=? 13))%nat.

Fixpoint trimLeft (s : string) : string :=
  match s with
  | EmptyString => EmptyString
  | String c s' => if isSpace c then trimLeft s' else s
  end.

Fixpoint trimRight (s : string) : string :=
  match s with
  | EmptyString => EmptyString
  | String c s' =>
      match trimRight s' with
      | EmptyString => if isSpace c then EmptyString else String c EmptyString
      | t => String c t
      end
  end.

Definition TrimSpace (s : string) : string := trimRight (trimLeft s).

Definition defaultTokenize (text : string) : list string :=
  match text with
  | EmptyString => []
  | _ =>
      let text := ToLower text in
      let tokens := regexSplit text EmptyString false in
      foldl (λ filtered token,
               let token := TrimSpace token in
               if (3 <=? String.length token)%nat
               then filtered ++ [token]
               else filtered)
            [] tokens
  end.

Definition DefaultTokenizer : Tokenizer := TokenizerFunc defaultTokenize.

(** ** The per-field index [fieldBM25] *)

Record fieldBM25 := mkFieldBM25 {
  field : Field;
  weight : R;
  params : BM25Parameters;
  termFrequencies : list (gmap string nat);
  docFrequencies : gmap string nat;
  docLengths : list nat;
  avgDocLength : R;
  totalDocs : nat
}.

Definition newFieldBM25 (fld : Field) (w : R) (p : BM25Parameters) : fieldBM25 :=
  {| field := fld; weight := w; params := p;
     termFrequencies := []; docFrequencies := ∅; docLengths := [];
     avgDocLength := 0%R; totalDocs := 0 |}.

(** [m[k]++] on a Go [map[string]int]. *)
Definition incr (k : string) (m : gmap string nat) : gmap string nat :=
  <[k := S (default 0 (m !! k))]> m.

(** The first loop of [addDocument]: the term-count table of a document. *)
Definition countTerms (tokens : list string) : gmap string nat :=
  foldl (λ tf token, incr token tf) ∅ tokens.

(** The second loop: every distinct token bumps its document frequency
    once; the state is the pair of [docFrequencies] and [seen]. *)
Definition bumpDocFrequencies (tokens : list string) (df : gmap string nat)
  : gmap string nat :=
  fst (foldl (λ (st : gmap string nat * gset string) token,
                let '(df, seen) := st in
                if decide (token ∈ seen) then st
                else (incr token df, {[token]} ∪ seen))
             (df, ∅) tokens).

Definition sumLengths (l : list nat) : nat := foldl Nat.add 0 l.

Definition addDocument (f : fieldBM25) (tokens : list string) : fieldBM25 :=
  let tfs := termFrequencies f ++ [countTerms tokens] in
  let dfs := bumpDocFrequencies tokens (docFrequencies f) in
  let lens := docLengths f ++ [length tokens] in
  let total := S (totalDocs f) in
  let totalLength := sumLengths lens in
  {| field := field f; weight := weight f; params := params f;
     termFrequencies := tfs; docFrequencies := dfs; docLengths := lens;
     avgDocLength :=
       if (0 <? total)%nat then (INR totalLength / INR total)%R
       else avgDocLength f;
     totalDocs := total |}.

(** The BM25 inverse document frequency with its clamp, the four lines
    that [fieldBM25.score] and [Corpus.scoreWithTokens] both spell out:
    [idf := math.Log((N - df + 0.5) / (df + 0.5)); if idf < 0 { idf = 0 }]. *)
Definition clampedIDF (N df : nat) : R :=
  let idf := ln ((INR N - INR df + 0.5) / (INR df + 0.5))%R in
  if Rlt_dec idf 0 then 0%R else idf.

(** [fieldBM25.score]: the isolated per-field score. *)
Definition fieldScore (f : fieldBM25) (queryTerms : list string) (docIndex : Z) : R :=
  if ((docIndex <? 0) || (Z.of_nat (length (termFrequencies f)) <=? docIndex))%Z
  then 0%R
  else
    let i := Z.to_nat docIndex in
    let docTF := default ∅ (termFrequencies f !! i) in
    let docLen := INR (default 0 (docLengths f !! i)) in
    let score :=
      foldl (λ score term,
               let tf := INR (default 0 (docTF !! term)) in
               if Req_dec_T tf 0 then score
               else
                 let df := default 0 (docFrequencies f !! term) in
                 if Req_dec_T (INR df) 0 then score
                 else
                   let idf := clampedIDF (totalDocs f) df in
                   let k1 := K1 (params f) in
                   let b := B (params f) in
                   let normTF :=
                     (tf * (k1 + 1)
                      / (tf + k1 * (1 - b + b * docLen / avgDocLength f)))%R in
                   (score + idf * normTF)%R)
            0%R queryTerms in
    (score * weight f)%R.

(** ** The corpus *)

Record Corpus := mkCorpus {
  documents : list Document;
  fieldScorers : gmap Field fieldBM25;
  fieldWeights : gmap Field R;
  corpusParams : BM25Parameters;
  tokenizer : Tokenizer;
  fieldParams : option (gmap Field BM25Parameters)
}.

(** The functional options of the package.  A [nil] map argument is
    [None]: [WithFieldWeights] and [WithFieldParams] ignore it. *)
Inductive CorpusOption :=
| WithTokenizer (t : Tokenizer)
| WithFieldWeights (ws : option (gmap Field R))
| WithBM25Params (p : BM25Parameters)
| WithFieldParams (ps : option (gmap Field BM25Parameters)).

Definition applyOption (opt : CorpusOption) (c : Corpus) : Corpus :=
  match opt with
  | WithTokenizer t =>
      mkCorpus (documents c) (fieldScorers c) (fieldWeights c)
               (corpusParams c) t (fieldParams c)
  | WithFieldWeights (Some ws) =>
      mkCorpus (documents c) (fieldScorers c) ws
               (corpusParams c) (tokenizer c) (fieldParams c)
  | WithFieldWeights None => c
  | WithBM25Params p =>
      mkCorpus (documents c) (fieldScorers c) (fieldWeights c)
               p (tokenizer c) (fieldParams c)
  | WithFieldParams (Some ps) =>
      mkCorpus (documents c) (fieldScorers c) (fieldWeights c)
               (corpusParams c) (tokenizer c) (Some ps)
  | WithFieldParams None => c
  end.

(** The parameters [buildFieldScorers] hands to the scorer of a field:
    the per-field override when there is one, else the global ones. *)
Definition scorerParams (c : Corpus) (fld : Field) : BM25Parameters :=
  match fieldParams c with
  | Some ps => match ps !! fld with
               | Some fieldParam => fieldParam
               | None => corpusParams c
               end
  | None => corpusParams c
  end.

Definition buildFieldScorers (c : Corpus) : Corpus :=
  mkCorpus (documents c)
           (map_imap (λ fld w, Some (newFieldBM25 fld w (scorerParams c fld)))
                     (fieldWeights c))
           (fieldWeights c) (corpusParams c) (tokenizer c) (fieldParams c).

Definition NewCorpus (opts : list CorpusOption) : Corpus :=
  let corpus :=
    {| documents := []; fieldScorers := ∅;
       fieldWeights := DefaultFieldWeights;
       corpusParams := DefaultBM25Parameters;
       tokenizer := DefaultTokenizer;
       fieldParams := None |} in
  let corpus := foldl (λ c opt, applyOption opt c) corpus opts in
  buildFieldScorers corpus.

Definition AddDocument (c : Corpus) (doc : Document) : Corpus :=
  let doc := mkDocument (Z.of_nat (length (documents c)))
                        (Fields doc) (Original doc) in
  mkCorpus (documents c ++ [doc])
           (map_imap
              (λ fld scorer,
                 let content := default "" (Fields doc !! fld) in
                 let tokens := Tokenize (tokenizer c) content in
                 Some (addDocument scorer tokens))
              (fieldScorers c))
           (fieldWeights c) (corpusParams c) (tokenizer c) (fieldParams c).

(** ** BM25F scoring *)

(** [scorer.termFrequencies[i][term]] behind its guard
    [i < len(scorer.termFrequencies)]; outside the guard the loops of
    [scoreWithTokens] skip the scorer, which is a raw frequency of 0. *)
Definition tfAt (scorer : fieldBM25) (i : nat) (term : string) : nat :=
  match termFrequencies scorer !! i with
  | Some tf => default 0 (tf !! term)
  | None => 0
  end.

(** The innermost loop of the document-frequency count: is the term
    found in some field of document [i]?  (The [break] only saves time.) *)
Definition termFound (c : Corpus) (term : string) (i : nat) : bool :=
  map_fold (λ _ scorer found, found || (0 <? tfAt scorer i term)%nat)
           false (fieldScorers c).

Definition docFreq (c : Corpus) (term : string) : nat :=
  foldl (λ docFreq i, if termFound c term i then S docFreq else docFreq)
        0 (seq 0 (length (documents c))).

Definition weightedTF (c : Corpus) (term : string) (docIndex : nat) : R :=
  map_fold
    (λ fld scorer weightedTF,
       match termFrequencies scorer !! docIndex with
       | Some docTF =>
           let tf := INR (default 0 (docTF !! term)) in
           if Rlt_dec 0 tf then
             let weight := default 0%R (fieldWeights c !! fld) in
             (weightedTF + weight * tf)%R
           else weightedTF
       | None => weightedTF
       end)
    0%R (fieldScorers c).

(** The fixed saturation constant of the combined normalisation. *)
Definition combinedK1 : R := 1.2%R.

(** One iteration of the loop over the query terms: the new value of
    [totalScore]. *)
Definition scoreTerm (c : Corpus) (docIndex : nat) (totalScore : R)
    (term : string) : R :=
  let totalDocs := length (documents c) in
  let docFreq := docFreq c term in
  if (docFreq =? 0)%nat then totalScore
  else
    let idf := clampedIDF totalDocs docFreq in
    let weightedTF := weightedTF c term docIndex in
    if Rlt_dec 0 weightedTF then
      let k1 := combinedK1 in
      let normTF := (weightedTF * (k1 + 1) / (weightedTF + k1))%R in
      let termScore := (idf * normTF)%R in
      (totalScore + termScore)%R
    else totalScore.

Definition scoreWithTokens (c : Corpus) (queryTerms : list string)
    (docIndex : Z) : R :=
  if ((docIndex <? 0) || (Z.of_nat (length (documents c)) <=? docIndex))%Z
  then 0%R
  else if (length queryTerms =? 0)%nat then 0%R
  else foldl (scoreTerm c (Z.to_nat docIndex)) 0%R queryTerms.

Definition Score (c : Corpus) (query : string) (docIndex : Z) : R :=
  let queryTerms := Tokenize (tokenizer c) query in
  scoreWithTokens c queryTerms docIndex.

(** ** Search *)

Record SearchResult := mkSearchResult {
  srDocument : Document;
  srScore : R;
  srIndex : Z
}.

(** The scoring loop shared by both strategies, in document order: one
    result for every document whose score is strictly positive. *)
Fixpoint scoreDocuments (c : Corpus) (queryTerms : list string)
    (i : nat) (docs : list Document) : list SearchResult :=
  match docs with
  | [] => []
  | doc :: rest =>
      let score := scoreWithTokens c queryTerms (Z.of_nat i) in
      (if Rlt_dec 0 score then [mkSearchResult doc score (Z.of_nat i)] else [])
      ++ scoreDocuments c queryTerms (S i) rest
  end.

(** [if limit > 0 && len(results) > limit { results = results[:limit] }] *)
Definition applyLimit (limit : Z) (results : list SearchResult)
  : list SearchResult :=
  if ((0 <? limit) && (limit <? Z.of_nat (length results)))%Z
  then take (Z.to_nat limit) results
  else results.

(** The comparison handed to [sort.Slice]. *)
Definition scoreLess (a b : SearchResult) : Prop := (srScore b < srScore a)%R.

(** What [sort.Slice] guarantees of its result for this comparison: no
    later element is strictly greater than an earlier one. *)
Definition sortedByScore (l : list SearchResult) : Prop :=
  Sorted (λ a b, ¬ scoreLess b a) l.

Section SearchStrategies.
(** [sort.Slice] is not stable, and which of its orders the standard
    library picks for equal scores is not part of its contract: the
    sort is a parameter.  So is the order in which the workers of
    [searchParallel] deliver their results on [resultsChan]. *)
Variable sortSlice : list SearchResult → list SearchResult.
Variable arrival : list SearchResult → list SearchResult.

Definition searchSequential (c : Corpus) (queryTerms : list string)
    (limit : Z) : list SearchResult :=
  let results := scoreDocuments c queryTerms 0 (documents c) in
  let results := sortSlice results in
  applyLimit limit results.

(** Every index is sent once on [docChan]; the worker that receives it
    scores it and sends a result when the score is positive; the
    collector appends the results as they arrive, after which the
    slice is sorted and cut exactly as in the sequential scan. *)
Definition searchParallel (c : Corpus) (queryTerms : list string)
    (limit : Z) : list SearchResult :=
  let results := arrival (scoreDocuments c queryTerms 0 (documents c)) in
  let results := sortSlice results in
  applyLimit limit results.

Definition Search (c : Corpus) (query : string) (limit : Z)
  : list SearchResult :=
  let queryTerms := Tokenize (tokenizer c) query in
  if (length queryTerms =? 0)%nat then []
  else if (length (documents c) <? 100)%nat
       then searchSequential c queryTerms limit
       else searchParallel c queryTerms limit.
End SearchStrategies.

(** The insertion sort [sort.Slice] runs on slices of at most twelve
    elements: each element moves left while it is less than its left
    neighbour.  The sorted prefix is kept reversed. *)
Fixpoint moveLeft (x : SearchResult) (revPrefix : list SearchResult)
  : list SearchResult :=
  match revPrefix with
  | [] => [x]
  | y :: rest =>
      if Rlt_dec (srScore y) (srScore x) then y :: moveLeft x rest
      else x :: revPrefix
  end.

Definition insertionSort (l : list SearchResult) : list SearchResult :=
  reverse (foldl (λ revPrefix x, moveLeft x revPrefix) [] l).

(** ** The markdown field parser *)

(** The part of goldmark's syntax tree the parser looks at: the node
    kinds its type switches name, with the data it reads from each, and
    one kind for every other node.  A text segment is given resolved
    against the source buffer. *)
Inductive NodeKind :=
| KindHeading (Level : Z)
| KindCodeSpan
| KindFencedCodeBlock (Lines : list string)
| KindCodeBlock
| KindText (Segment : string)
| KindString (Value : string)
| KindEmphasis (Level : Z)
| KindOther.

#[warnings="-register-all"]
Inductive Node := mkNode (kind : NodeKind) (children : list Node).

(** Induction on a tree, with the hypothesis for every child. *)
Fixpoint Node_children_ind (P : Node → Prop)
    (step : ∀ k cs, Forall P cs → P (mkNode k cs)) (n : Node) : P n :=
  let 'mkNode k cs := n in
  step k cs
    ((fix each (cs : list Node) : Forall P cs :=
        match cs with
        | [] => @List.Forall_nil Node P
        | child :: rest =>
            @List.Forall_cons Node P child rest
              (Node_children_ind P step child) (each rest)
        end) cs).

Definition nodeKind (n : Node) : NodeKind := let 'mkNode k _ := n in k.
Definition nodeChildren (n : Node) : list Node := let 'mkNode _ cs := n in cs.

Inductive WalkStatus := WalkStop | WalkSkipChildren | WalkContinue.

Definition isWalkStop (s : WalkStatus) : bool :=
  match s with WalkStop => true | _ => false end.
Definition isWalkSkipChildren (s : WalkStatus) : bool :=
  match s with WalkSkipChildren => true | _ => false end.

(** A Go [error] value; [None] is [nil]. *)
Definition error := option string.

Definition isErr (e : error) : bool :=
  match e with Some _ => true | None => false end.

Section Walk.
(** goldmark's [ast.Walk], which this repository calls and does not
    define: the walker is called on entering a node; unless it asks to
    skip them the children are walked in order; then the walker is
    called on leaving the node.  An error, or [WalkStop], ends the
    walk.  The walker's closure state is threaded as [St]; the kinds
    of the node's ancestors (nearest first) and whether it has a next
    sibling stand for [Parent()] and [NextSibling()]. *)
Context {St : Type}.
Variable walker :
  list NodeKind → bool → Node → bool → St → WalkStatus * error * St.

Fixpoint walkHelper (ancestors : list NodeKind) (hasNext : bool) (n : Node)
    (st : St) : WalkStatus * error * St :=
  let 'mkNode k cs := n in
  let '(status, err, st) := walker ancestors hasNext n true st in
  if isErr err || isWalkStop status then (status, err, st)
  else
    let '(stopped, err, st) :=
      if isWalkSkipChildren status then (false, None, st)
      else
        (fix walkChildren (cs : list Node) (st : St) : bool * error * St :=
           match cs with
           | [] => (false, None, st)
           | child :: rest =>
               let '(status, err, st) :=
                 walkHelper (k :: ancestors)
                            (match rest with [] => false | _ => true end)
                            child st in
               if isErr err || isWalkStop status then (true, err, st)
               else walkChildren rest st
           end) cs st in
    if stopped then (WalkStop, err, st)
    else
      let '(status, err, st) := walker ancestors hasNext n false st in
      if isErr err || isWalkStop status then (WalkStop, err, st)
      else (WalkContinue, None, st).

Definition Walk (n : Node) (st : St) : error * St :=
  let '(_, err, st) := walkHelper [] false n st in (err, st).
End Walk.

Record MarkdownFieldParser := mkParser { parser : string → Node }.

Definition getHeaderField (level : Z) : Field :=
  match level with
  | 1 => FieldH1
  | 2 => FieldH2
  | 3 => FieldH3
  | 4 => FieldH4
  | 5 => FieldH5
  | 6 => FieldH6
  | _ => FieldH6
  end%Z.

(** [extractTextRecursive] returns what it writes to the buffer. *)
Fixpoint extractTextRecursive (node : Node) (hasNext : bool) : string :=
  let 'mkNode k cs := node in
  (match k with
   | KindText text => text
   | KindString value => value
   | _ =>
       (fix eachChild (cs : list Node) : string :=
          match cs with
          | [] => ""
          | child :: rest =>
              extractTextRecursive
                child (match rest with [] => false | _ => true end)
              +:+ eachChild rest
          end) cs
   end)
  +:+ (if hasNext then " " else "").

Fixpoint extractEachChild (cs : list Node) : string :=
  match cs with
  | [] => ""
  | child :: rest =>
      extractTextRecursive child (match rest with [] => false | _ => true end)
      +:+ extractEachChild rest
  end.

Definition extractTextFromChildren (node : Node) : string :=
  TrimSpace (extractEachChild (nodeChildren node)).

(** [strings.Split(s, sep)] for a separator of one byte. *)
Fixpoint splitOn (sep : ascii) (s : string) (cur : string) : list string :=
  match s with
  | EmptyString => [cur]
  | String c s' =>
      if Ascii.eqb c sep then cur :: splitOn sep s' ""
      else splitOn sep s' (cur +:+ String c "")
  end.

Fixpoint Join (elems : list string) (sep : string) : string :=
  match elems with
  | [] => ""
  | [x] => x
  | x :: rest => x +:+ sep +:+ Join rest sep
  end.

Fixpoint containsChar (c : ascii) (s : string) : bool :=
  match s with
  | EmptyString => false
  | String c' s' => Ascii.eqb c' c || containsChar c s'
  end.

Definition newline : ascii := ascii_of_nat 10.

Definition extractCodeBlockText (node : Node) (hasNext : bool) : string :=
  let buf :=
    match nodeKind node with
    | KindFencedCodeBlock lines => foldl (λ buf text, buf +:+ text) "" lines
    | _ => extractTextRecursive node hasNext
    end in
  let result := TrimSpace buf in
  let lines := splitOn newline result "" in
  let result :=
    match lines with
    | line0 :: rest =>
        let firstLine := TrimSpace line0 in
        if (String.length firstLine <? 12)%nat
           && negb (containsChar " " firstLine)
           && (1 <? length lines)%nat
        then Join rest (String newline "")
        else result
    | [] => result
    end in
  TrimSpace result.

Definition isSpecialKind (k : NodeKind) : bool :=
  match k with
  | KindHeading _ | KindCodeSpan | KindFencedCodeBlock _ | KindCodeBlock
  | KindEmphasis _ => true
  | _ => false
  end.

(** [isInsideSpecialElement]: the loop up the chain of parents. *)
Definition isInsideSpecialElement (ancestors : list NodeKind) : bool :=
  existsb isSpecialKind ancestors.

(** [fieldTexts[field] = append(fieldTexts[field], text)] *)
Definition appendText (fld : Field) (text : string)
    (fieldTexts : gmap Field (list string)) : gmap Field (list string) :=
  <[fld := default [] (fieldTexts !! fld) ++ [text]]> fieldTexts.

Definition appendNonEmpty (fld : Field) (text : string)
    (fieldTexts : gmap Field (list string)) : gmap Field (list string) :=
  if String.eqb text "" then fieldTexts else appendText fld text fieldTexts.

(** The closure handed to [ast.Walk] by [ParseDocument]. *)
Definition fieldWalker (ancestors : list NodeKind) (hasNext : bool)
    (node : Node) (entering : bool) (fieldTexts : gmap Field (list string))
  : WalkStatus * error * gmap Field (list string) :=
  if negb entering then (WalkContinue, None, fieldTexts)
  else
    match nodeKind node with
    | KindHeading level =>
        let text := extractTextFromChildren node in
        (WalkSkipChildren, None,
         appendNonEmpty (getHeaderField level) text fieldTexts)
    | KindCodeSpan =>
        let text := extractTextFromChildren node in
        (WalkSkipChildren, None, appendNonEmpty FieldCode text fieldTexts)
    | KindFencedCodeBlock _ =>
        let text := extractCodeBlockText node hasNext in
        (WalkSkipChildren, None, appendNonEmpty FieldCode text fieldTexts)
    | KindCodeBlock =>
        let text := extractCodeBlockText node hasNext in
        (WalkSkipChildren, None, appendNonEmpty FieldCode text fieldTexts)
    | KindText segment =>
        (WalkContinue, None,
         if negb (isInsideSpecialElement ancestors)
         then appendNonEmpty FieldBody (TrimSpace segment) fieldTexts
         else fieldTexts)
    | KindEmphasis level =>
        let text := extractTextFromChildren node in
        (WalkSkipChildren, None,
         if String.eqb text "" then fieldTexts
         else if (level =? 2)%Z then appendText FieldBold text fieldTexts
         else if (level =? 1)%Z then appendText FieldItalic text fieldTexts
         else fieldTexts)
    | _ => (WalkContinue, None, fieldTexts)
    end.

(** [ParseDocument] from the error check on: the fallback, or the join
    of the collected texts of every field. *)
Definition collectFields (content : string) (err : error)
    (fields : gmap Field string) (fieldTexts : gmap Field (list string))
  : gmap Field string :=
  match err with
  | Some _ => <[FieldBody := content]> fields
  | None =>
      map_fold (λ fld texts fields,
                  if (0 <? length texts)%nat
                  then <[fld := Join texts " "]> fields
                  else fields)
               fields fieldTexts
  end.

(** The two maps [ParseDocument] initialises from the keys of
    [DefaultFieldWeights]: every field with the empty string, and every
    field with no collected text. *)
Definition emptyFields : gmap Field string :=
  (λ _ : R, "") <$> DefaultFieldWeights.

Definition emptyFieldTexts : gmap Field (list string) :=
  (λ _ : R, @nil string) <$> DefaultFieldWeights.

Definition ParseDocument (p : MarkdownFieldParser) (content : string)
  : gmap Field string :=
  let fields := emptyFields in
  let doc := parser p content in
  let fieldTexts := emptyFieldTexts in
  let '(err, fieldTexts) := Walk fieldWalker doc fieldTexts in
  collectFields content err fields fieldTexts.

Definition ParseDocuments (p : MarkdownFieldParser) (contents : list string)
  : list Document :=
  imap (λ i content,
          mkDocument (Z.of_nat i) (ParseDocument p content) content)
       contents.

(** ** Notions the statements are written with *)

(** A corpus as a client obtains one: [NewCorpus] with some options,
    then [AddDocument] for every document in turn. *)
Definition buildCorpus (opts : list CorpusOption) (docs : list Document)
  : Corpus :=
  foldl AddDocument (NewCorpus opts) docs.

(** One scorer fed, as [AddDocument] feeds it, the text that each of
    the documents has in the scorer's field. *)
Definition indexField (tok : Tokenizer) (fld : Field) (scorer : fieldBM25)
    (docs : list Document) : fieldBM25 :=
  foldl (λ s doc,
           addDocument s (Tokenize tok (default "" (Fields doc !! fld))))
        scorer docs.

(** The document indices [scoreWithTokens] accepts. *)
Definition validIndex (c : Corpus) (docIndex : Z) : Prop :=
  (0 <= docIndex < Z.of_nat (length (documents c)))%Z.

(** What one query term adds to [totalScore] in [scoreWithTokens]. *)
Definition termScore (c : Corpus) (docIndex : nat) (term : string) : R :=
  scoreTerm c docIndex 0%R term.

Fixpoint sumR (l : list R) : R :=
  match l with
  | [] => 0%R
  | x :: l' => (x + sumR l')%R
  end.

(** The sum of [h k a] over the entries of a map. *)
Definition mapSum {A} (h : Field → A → R) (m : gmap Field A) : R :=
  map_fold (λ k a acc, (acc + h k a)%R) 0%R m.

(** The arithmetic mean of the recorded lengths (0 when there are none,
    as [0 / 0] is in [R]). *)
Definition mean (lens : list nat) : R :=
  (INR (foldr Nat.add 0%nat lens) / INR (length lens))%R.

(** What [addDocument] maintains of a field index. *)
Definition scorerInv (s : fieldBM25) : Prop :=
  length (termFrequencies s) = totalDocs s
  ∧ length (docLengths s) = totalDocs s
  ∧ avgDocLength s = mean (docLengths s).

(** The raw frequency of a term in one field of document [i]: what the
    scorer of the field recorded, 0 for a field without scorer. *)
Definition rawTF (c : Corpus) (fld : Field) (i : nat) (term : string) : nat :=
  match fieldScorers c !! fld with
  | Some scorer => tfAt scorer i term
  | None => 0
  end.

(** *** The combined term score as the specification words it *)

(** The number of documents in which some configured field has a
    nonzero raw frequency of the term. *)
Definition spec_docFreq (c : Corpus) (term : string) : nat :=
  length
    (filter (λ i, map_Exists (λ fld _, rawTF c fld i term ≠ 0%nat)
                             (fieldWeights c))
            (seq 0 (length (documents c)))).

(** The sum over the configured fields of weight times raw frequency. *)
Definition spec_weightedTF (c : Corpus) (term : string) (i : nat) : R :=
  mapSum (λ fld w, (w * INR (rawTF c fld i term))%R) (fieldWeights c).

Definition spec_idf (N df : nat) : R :=
  Rmax 0 (ln ((INR N - INR df + 0.5) / (INR df + 0.5))).

Definition spec_K : R := 1.2%R.

Definition spec_termScore (c : Corpus) (term : string) (i : nat) : R :=
  let wtf := spec_weightedTF c term i in
  if Rlt_dec 0 wtf
  then (spec_idf (length (documents c)) (spec_docFreq c term)
        * (wtf * (spec_K + 1) / (wtf + spec_K)))%R
  else 0%R.

(** Trees as goldmark parses the inputs of three parser tests:
    a title with a paragraph of bold, italic and code; an italic nested
    in a bold; a fenced block with a language tag. *)
Definition textNode (s : string) : Node := mkNode (KindText s) [].

Definition basicFieldsTree : Node :=
  mkNode KindOther
    [ mkNode (KindHeading 1) [textNode "Main Title"];
      mkNode KindOther
        [ textNode "This is ";
          mkNode (KindEmphasis 2) [textNode "bold"];
          textNode " and ";
          mkNode (KindEmphasis 1) [textNode "italic"];
          textNode " text.";
          textNode "Here is some ";
          mkNode KindCodeSpan [textNode "code"];
          textNode " and regular content." ] ].

Definition nestedFormattingTree : Node :=
  mkNode KindOther
    [ mkNode KindOther
        [ textNode "This is ";
          mkNode (KindEmphasis 2)
            [textNode "bold "; mkNode (KindEmphasis 1) [textNode "italic"]];
          textNode " text." ] ].

Definition codeBlockTree : Node :=
  mkNode KindOther
    [ mkNode KindOther [textNode "Text"];
      mkNode (KindFencedCodeBlock ["func main() {}" +:+ String newline ""]) [];
      mkNode KindOther [textNode "More"] ].

Definition parserOf (tree : Node) : MarkdownFieldParser :=
  mkParser (λ _, tree).

(** A document of the tests: one body text, nothing else. *)
Definition bodyDocument (text : string) : Document :=
  mkDocument 0 {[ FieldBody := text ]} "".

(** The three lines of the scoring scenario. *)
Definition poemDocuments : list Document :=
  [ bodyDocument "The stars go waltzing out in blue and red";
    bodyDocument "I dreamed that you bewitched me into bed";
    bodyDocument "I should have loved a thunderbird instead" ].

(** Two lines only: "waltzing" is then in one document of two. *)
Definition halfDocuments : list Document :=
  [ bodyDocument "The stars go waltzing out in blue and red";
    bodyDocument "I dreamed that you bewitched me into bed" ].

(** The same corpus in the default configuration. *)
Definition poemCorpus : Corpus := buildCorpus [] poemDocuments.

(** The six documents of the corpus scoring test. *)
Definition scoreTestCorpus : Corpus :=
  buildCorpus []
    [ bodyDocument "I shut my eyes and all the world drops dead;";
      bodyDocument "I lift my lids and all is born again.";
      bodyDocument "(I think I made you up inside my head.)";
      bodyDocument "The stars go waltzing out in blue and red,";
      bodyDocument "Various unrelated content about nature";
      bodyDocument "Different topic entirely about science" ].

(** A corpus whose last option sets the field weights. *)
Definition withWeights (opts : list CorpusOption) (ws : gmap Field R)
    (docs : list Document) : Corpus :=
  buildCorpus (opts ++ [WithFieldWeights (Some ws)]) docs.

(** A corpus of one hundred documents, as the test of the parallel
    search builds one: two documents that share their only line, and
    ninety-eight fillers. *)
Definition tieCorpus : Corpus :=
  buildCorpus []
    (bodyDocument "The stars go waltzing out in blue and red"
     :: bodyDocument "The stars go waltzing out in blue and red"
     :: replicate 98
          (bodyDocument "Additional filler content for parallel testing")).

(** Descending order of score, between any two positions. *)
Definition descending (l : list SearchResult) : Prop :=
  StronglySorted (λ a b, (srScore b <= srScore a)%R) l.

(** The pair by which two result sets are compared. *)
Definition idScore (r : SearchResult) : Z * R := (ID (srDocument r), srScore r).

(** No document of the list has the term in any field. *)
Definition noneFound (c : Corpus) (term : string) (l : list nat) : bool :=
  forallb (λ j, negb (termFound c term j)) l.

(** The fields in which document [i] has the term, with the raw count. *)
Definition nonzeroTFs (c : Corpus) (term : string) (i : nat)
  : list (Field * nat) :=
  List.filter (λ fn, (0 <? fn.2)%nat)
    (map (λ fs, (fs.1, tfAt fs.2 i term)) (map_to_list (fieldScorers c))).

(** ** Notions for the further properties *)

(** Every byte of a string satisfies [p]. *)
Fixpoint allChars (p : ascii → bool) (s : string) : bool :=
  match s with
  | EmptyString => true
  | String c s' => p c && allChars p s'
  end.

(** A lower-case letter, a digit, an underscore or a hyphen. *)
Definition isLowerTokenChar (c : ascii) : bool :=
  let n := nat_of_ascii c in
  ((97 <=? n) && (n <=? 122) || (48 <=? n) && (n <=? 57)
   || (n =? 95) || (n =? 45))%nat.

(** The filter loop of [Tokenize] as a filter: the trimmed pieces of at
    least three bytes. *)
Definition keptTokens (pieces : list string) : list string :=
  List.filter (λ token, (3 <=? String.length token)%nat)
              (map TrimSpace pieces).

(** The sum of the counts of a term-count table. *)
Definition sumCounts (tf : gmap string nat) : nat :=
  map_fold (λ _ n acc, (n + acc)%nat) 0%nat tf.

(** The number of term-count tables in which the term has a count. *)
Definition docsWith (tfs : list (gmap string nat)) (term : string) : nat :=
  length (List.filter (λ tf, (0 <? default 0 (tf !! term))%nat) tfs).

(** What [addDocument] keeps between the tables of a field index. *)
Definition tablesInv (s : fieldBM25) : Prop :=
  (∀ t, default 0%nat (docFrequencies s !! t) = docsWith (termFrequencies s) t)
  ∧ Forall2 (λ tf n, sumCounts tf = n) (termFrequencies s) (docLengths s).

(** A field index fed token lists one after the other. *)
Definition feedTokens (scorer : fieldBM25) (docs : list (list string))
  : fieldBM25 :=
  foldl addDocument scorer docs.

(** The same index with another weight. *)
Definition withScorerWeight (w : R) (s : fieldBM25) : fieldBM25 :=
  mkFieldBM25 (field s) w (params s) (termFrequencies s) (docFrequencies s)
              (docLengths s) (avgDocLength s) (totalDocs s).

(** The body of the loop of [fieldBM25.score] over the query terms, for
    the document at index [i]: the new value of [score]. *)
Definition fieldScoreStep (f : fieldBM25) (i : nat) (score : R)
    (term : string) : R :=
  let docTF := default ∅ (termFrequencies f !! i) in
  let docLen := INR (default 0%nat (docLengths f !! i)) in
  let tf := INR (default 0%nat (docTF !! term)) in
  if Req_dec_T tf 0 then score
  else
    let df := default 0%nat (docFrequencies f !! term) in
    if Req_dec_T (INR df) 0 then score
    else
      let idf := clampedIDF (totalDocs f) df in
      let k1 := K1 (params f) in
      let b := B (params f) in
      let normTF :=
        (tf * (k1 + 1)
         / (tf + k1 * (1 - b + b * docLen / avgDocLength f)))%R in
      (score + idf * normTF)%R.

(** The text leaves of a tree that lie outside every heading, code span,
    code block and emphasis: trimmed, the empty ones left out, in
    document order. *)
Fixpoint plainTexts (n : Node) : list string :=
  let 'mkNode k cs := n in
  (match k with
   | KindText segment =>
       if String.eqb (TrimSpace segment) "" then []
       else [TrimSpace segment]
   | _ => []
   end)
  ++ (if isSpecialKind k then []
      else (fix each (cs : list Node) : list string :=
              match cs with
              | [] => []
              | child :: rest => plainTexts child ++ each rest
              end) cs).

(** A byte of the ASCII range.  On a text of such bytes
    [strings.ToLower], which decodes UTF-8 and lower-cases every letter
    of Unicode, is the byte-wise [ToLower] above. *)
Definition isASCII (c : ascii) : bool := (nat_of_ascii c <? 128)%nat.

(** ** The combined score in float64 *)

(** The definitions above idealise [float64] as [R], in which sums do
    not depend on their order and nothing overflows.  The claims about
    the sign of a score, about its growth with a weight and about the
    agreement of two runs depend on the arithmetic the program really
    does, so the scoring loop is given a second time over IEEE 754
    binary64: the primitive floats of the kernel, every operation
    rounded on its own (as Go compiles it on amd64, without fused
    multiply-add).  Three things are parameters of a run:
    - [math.Log], which is Go's library and no code of this package;
    - the weights, as the [float64] values the corpus holds;
    - the order in which each [range c.fieldScorers] visits the map,
      which Go leaves unspecified and varies from loop to loop.
    The documents and the integer tables of the scorers are those of
    the corpus; the document frequency is counted in integers and does
    not depend on the order. *)
Module Float64.
Import PrimFloat.

(** [float64(n)] for a count [n]. *)
Definition ofNat (n : nat) : float :=
  of_uint63 (Uint63.of_Z (Z.of_nat n)).

Definition clampedIDF (Log : float → float) (N df : nat) : float :=
  let idf := Log ((ofNat N - ofNat df + 0.5) / (ofNat df + 0.5))%float in
  if (idf <? 0)%float then 0%float else idf.

(** One loop [for field, scorer := range c.fieldScorers] of the weighted
    frequency, the entries of the map visited in the order [order]. *)
Definition weightedTF (fieldWeights : gmap Field float)
    (order : list (Field * fieldBM25)) (term : string) (docIndex : nat)
  : float :=
  foldl (λ weightedTF (entry : Field * fieldBM25),
           match termFrequencies entry.2 !! docIndex with
           | Some docTF =>
               let tf := ofNat (default 0%nat (docTF !! term)) in
               if (0 <? tf)%float then
                 let weight := default 0%float (fieldWeights !! entry.1) in
                 (weightedTF + weight * tf)%float
               else weightedTF
           | None => weightedTF
           end)
        0%float order.

(** [weightedTF * (k1 + 1) / (weightedTF + k1)] with [k1 := 1.2]. *)
#[warnings="-inexact-float"]
Definition normTF (weightedTF : float) : float :=
  let k1 := 1.2%float in
  (weightedTF * (k1 + 1) / (weightedTF + k1))%float.

Definition scoreTerm (Log : float → float) (fieldWeights : gmap Field float)
    (c : Corpus) (order : list (Field * fieldBM25)) (docIndex : nat)
    (totalScore : float) (term : string) : float :=
  let totalDocs := length (documents c) in
  let docFreq := docFreq c term in
  if (docFreq =? 0)%nat then totalScore
  else
    let idf := clampedIDF Log totalDocs docFreq in
    let weightedTF := weightedTF fieldWeights order term docIndex in
    if (0 <? weightedTF)%float then
      let termScore := (idf * normTF weightedTF)%float in
      (totalScore + termScore)%float
    else totalScore.

(** [orders k] is the order of the loop for the query term at position
    [k]. *)
Definition scoreWithTokens (Log : float → float)
    (fieldWeights : gmap Field float) (c : Corpus)
    (orders : nat → list (Field * fieldBM25))
    (queryTerms : list string) (docIndex : Z) : float :=
  if ((docIndex <? 0) || (Z.of_nat (length (documents c)) <=? docIndex))%Z
  then 0%float
  else if (length queryTerms =? 0)%nat then 0%float
  else
    foldl (λ totalScore (kt : nat * string),
             scoreTerm Log fieldWeights c (orders kt.1) (Z.to_nat docIndex)
                       totalScore kt.2)
          0%float (imap pair queryTerms).

Definition Score (Log : float → float) (fieldWeights : gmap Field float)
    (c : Corpus) (orders : nat → list (Field * fieldBM25))
    (query : string) (docIndex : Z) : float :=
  scoreWithTokens Log fieldWeights c orders
                  (Tokenize (tokenizer c) query) docIndex.

(** The default weights as the [float64] values of the package. *)
#[warnings="-inexact-float"]
Definition DefaultFieldWeights : gmap Field float :=
  list_to_map
    [ (FieldH1, 5%float); (FieldH2, 3%float); (FieldH3, 2%float);
      (FieldH4, 2%float); (FieldH5, 2%float); (FieldH6, 2%float);
      (FieldBold, 1.5%float); (FieldItalic, 1.2%float);
      (FieldCode, 0.8%float); (FieldBody, 1%float) ].

(** The orders a run can meet: each loop visits every entry of the
    scorer map once. *)
Definition validOrders (c : Corpus)
    (orders : nat → list (Field * fieldBM25)) : Prop :=
  ∀ k, orders k ≡ₚ map_to_list (fieldScorers c).
End Float64.




(** A document with one word in three fields: emphasised once, in a code
    span twice, in the body once. *)
Definition threeFieldCorpus : Corpus :=
  buildCorpus []
    [ mkDocument 0
        (<[FieldItalic := "waltzing"]>
           (<[FieldCode := "waltzing waltzing"]>
              {[ FieldBody := "waltzing" ]}))
        "";
      bodyDocument "I dreamed that you bewitched me into bed";
      bodyDocument "I should have loved a thunderbird instead" ].

(** The order in which the library at hand lists the scorer map, and
    that order reversed: two of the orders Go can take. *)
Definition listedOrder (c : Corpus) : list (Field * fieldBM25) :=
  map_to_list (fieldScorers c).

Definition reversedOrder (c : Corpus) : list (Field * fieldBM25) :=
  reverse (map_to_list (fieldScorers c)).

(** ** The runs of the two search strategies *)

(** [Corpus.Score] is no function of the corpus in float64: each call
    sums the weighted frequencies in the order in which Go happens to
    range over the scorer map, and two calls on the same document can
    return different values.  So the scoring loop is given once more
    with the value that each call returned as a parameter of the run:
    [scoreOf i] is what [c.scoreWithTokens(queryTerms, i)] returned in
    this run.  [Search] does nothing with a score but compare it and
    copy it, so the values of a run are taken as reals in their order:
    +Inf as a real above the finite values, and NaN, which fails
    [score > 0] and so never enters the results, as 0.
    [scoreDocuments] is the run in which every call returns the
    idealised score. *)
Fixpoint scoreDocumentsRun (scoreOf : nat → R) (i : nat)
    (docs : list Document) : list SearchResult :=
  match docs with
  | [] => []
  | doc :: rest =>
      let score := scoreOf i in
      (if Rlt_dec 0 score then [mkSearchResult doc score (Z.of_nat i)] else [])
      ++ scoreDocumentsRun scoreOf (S i) rest
  end.

Section SearchRuns.
Variable sortSlice : list SearchResult → list SearchResult.
Variable arrival : list SearchResult → list SearchResult.

Definition searchSequentialRun (scoreOf : nat → R) (c : Corpus)
    (limit : Z) : list SearchResult :=
  let results := scoreDocumentsRun scoreOf 0 (documents c) in
  let results := sortSlice results in
  applyLimit limit results.

Definition searchParallelRun (scoreOf : nat → R) (c : Corpus)
    (limit : Z) : list SearchResult :=
  let results := arrival (scoreDocumentsRun scoreOf 0 (documents c)) in
  let results := sortSlice results in
  applyLimit limit results.
End SearchRuns.

(** Comparisons of reals are decided classically, as [Rlt_dec] does in
    the definitions above. *)
#[local] Instance Rlt_decision (x y : R) : Decision (x < y)%R := Rlt_dec x y.
#[local] Instance Rle_decision (x y : R) : Decision (x <= y)%R := Rle_dec x y.

(** The indices of the documents that score more than 0. *)
Definition matches (c : Corpus) (query : string) : list nat :=
  filter (λ i, (0 < Score c query (Z.of_nat i))%R)
         (seq 0 (length (documents c))).

(** The query of the search scenario: the first line of the poem has
    its word twice, the second line once. *)
Definition twoHitQuery : string := "waltzing waltzing bewitched".

(** * Properties *)

(** ** The embedding on the inputs of the package's tests *)

Example Tokenize_simple_line :
  Tokenize DefaultTokenizer "I lift my lids and all is born again"
  = ["lift"; "lids"; "and"; "all"; "born"; "again"].
Proof. vm_compute. reflexivity. Qed.

Example Tokenize_punctuation :
  Tokenize DefaultTokenizer "The stars go waltzing out in blue and red,"
  = ["the"; "stars"; "waltzing"; "out"; "blue"; "and"; "red"].
Proof. vm_compute. reflexivity. Qed.

Example Tokenize_parenthetical :
  Tokenize DefaultTokenizer "(I think I made you up inside my head.)"
  = ["think"; "made"; "you"; "inside"; "head"].
Proof. vm_compute. reflexivity. Qed.

Example Tokenize_empty : Tokenize DefaultTokenizer "" = [].
Proof. reflexivity. Qed.

Example addDocument_counts :
  let f :=
    addDocument
      (addDocument
         (newFieldBM25 FieldBody 1%R DefaultBM25Parameters)
         (defaultTokenize "I shut my eyes and all the world drops dead"))
      (defaultTokenize "I lift my lids and all is born again") in
  totalDocs f = 2
  ∧ docFrequencies f !! "world" = Some 1
  ∧ docFrequencies f !! "all" = Some 2
  ∧ tfAt f 1 "lift" = 1.
Proof. vm_compute. done. Qed.

Example ParseDocument_basic_fields :
  let fields := ParseDocument (parserOf basicFieldsTree) "" in
  fields !! FieldH1 = Some "Main Title"
  ∧ fields !! FieldBold = Some "bold"
  ∧ fields !! FieldItalic = Some "italic"
  ∧ fields !! FieldCode = Some "code"
  ∧ fields !! FieldBody
    = Some "This is and text. Here is some and regular content.".
Proof. vm_compute. done. Qed.

Example ParseDocument_nested_formatting :
  let fields := ParseDocument (parserOf nestedFormattingTree) "" in
  fields !! FieldBold = Some "bold  italic"
  ∧ fields !! FieldItalic = Some "".
Proof. vm_compute. done. Qed.

Example ParseDocument_code_block :
  let fields := ParseDocument (parserOf codeBlockTree) "" in
  fields !! FieldCode = Some "func main() {}"
  ∧ fields !! FieldBody = Some "Text More".
Proof. vm_compute. done. Qed.

Local Open Scope R_scope.

(** ** Arithmetic of the score *)

Lemma div_cancel a b : 0 < b → a / b * b = a.
Proof. intros Hb. field. lra. Qed.

Lemma lt_div a b c : 0 < b → c * b < a → c < a / b.
Proof.
  intros Hb H. apply (Rmult_lt_reg_r b); [done|]. by rewrite div_cancel.
Qed.

Lemma div_lt a b c : 0 < b → a < c * b → a / b < c.
Proof.
  intros Hb H. apply (Rmult_lt_reg_r b); [done|]. by rewrite div_cancel.
Qed.

Lemma le_div a b c : 0 < b → c * b <= a → c <= a / b.
Proof.
  intros Hb H. apply (Rmult_le_reg_r b); [done|]. by rewrite div_cancel.
Qed.

Lemma div_le a b c : 0 < b → a <= c * b → a / b <= c.
Proof.
  intros Hb H. apply (Rmult_le_reg_r b); [done|]. by rewrite div_cancel.
Qed.

Lemma clampedIDF_nonneg N df : 0 <= clampedIDF N df.
Proof. unfold clampedIDF. destruct (Rlt_dec _ _); lra. Qed.

Lemma clampedIDF_pos N df : (2 * df < N)%nat → 0 < clampedIDF N df.
Proof.
  intros Hlt. unfold clampedIDF.
  assert (Hdf : 0 <= INR df) by apply pos_INR.
  assert (HN : 2 * INR df + 1 <= INR N).
  { replace (2 * INR df + 1) with (INR (2 * df + 1)).
    - apply le_INR. lia.
    - rewrite plus_INR, mult_INR. simpl. lra. }
  assert (Harg : 1 < (INR N - INR df + 0.5) / (INR df + 0.5)).
  { apply lt_div; lra. }
  assert (Hln : 0 < ln ((INR N - INR df + 0.5) / (INR df + 0.5))).
  { rewrite <- ln_1. apply ln_increasing; lra. }
  destruct (Rlt_dec _ _); lra.
Qed.

Lemma ln_nonpos x : x <= 1 → ln x <= 0.
Proof.
  intros Hx. destruct (Rle_lt_dec x 0) as [Hneg|Hpos].
  - unfold ln. destruct (Rlt_dec 0 x) as [Hp|Hn]; [exfalso|]; lra.
  - destruct (Req_dec x 1) as [->|Hne].
    + rewrite ln_1. lra.
    + rewrite <- ln_1. left. apply ln_increasing; lra.
Qed.

Lemma clampedIDF_zero N df : (N <= 2 * df)%nat → clampedIDF N df = 0.
Proof.
  intros Hle. unfold clampedIDF.
  assert (Hdf : 0 <= INR df) by apply pos_INR.
  assert (HN : INR N <= 2 * INR df).
  { replace (2 * INR df) with (INR (2 * df)).
    - by apply le_INR.
    - rewrite mult_INR. simpl. lra. }
  assert (Harg : (INR N - INR df + 0.5) / (INR df + 0.5) <= 1).
  { apply div_le; lra. }
  apply ln_nonpos in Harg.
  destruct (Rlt_dec _ _); lra.
Qed.

(** The saturation [x * (k1 + 1) / (x + k1)] of a positive weighted
    frequency is positive, and increases with it. *)
Lemma normTF_pos x : 0 < x → 0 < x * (combinedK1 + 1) / (x + combinedK1).
Proof.
  intros Hx. unfold combinedK1. apply Rdiv_lt_0_compat; lra.
Qed.

Lemma normTF_mono x y :
  0 < x → x <= y →
  x * (combinedK1 + 1) / (x + combinedK1)
  <= y * (combinedK1 + 1) / (y + combinedK1).
Proof.
  intros Hx Hxy. unfold combinedK1.
  apply le_div; [lra|].
  replace (x * (1.2 + 1) / (x + 1.2) * (y + 1.2))
    with ((x * (1.2 + 1) * (y + 1.2)) / (x + 1.2)) by (field; lra).
  apply div_le; [lra|]. nra.
Qed.

Lemma normTF_strict x y :
  0 < x → x < y →
  x * (combinedK1 + 1) / (x + combinedK1)
  < y * (combinedK1 + 1) / (y + combinedK1).
Proof.
  intros Hx Hxy. unfold combinedK1.
  apply lt_div; [lra|].
  replace (x * (1.2 + 1) / (x + 1.2) * (y + 1.2))
    with ((x * (1.2 + 1) * (y + 1.2)) / (x + 1.2)) by (field; lra).
  apply div_lt; [lra|]. nra.
Qed.

(** ** The loop over the query terms *)

Lemma scoreTerm_acc c i total term :
  scoreTerm c i total term = total + termScore c i term.
Proof.
  unfold termScore, scoreTerm.
  destruct (docFreq c term =? 0)%nat; [lra|].
  destruct (Rlt_dec _ _); lra.
Qed.

Lemma foldl_scoreTerm c i terms total :
  foldl (scoreTerm c i) total terms
  = total + sumR (map (termScore c i) terms).
Proof.
  revert total. induction terms as [|t terms IH]; intros total; simpl.
  - lra.
  - rewrite IH, scoreTerm_acc. lra.
Qed.

Lemma termScore_nonneg c i term : 0 <= termScore c i term.
Proof.
  unfold termScore, scoreTerm.
  destruct (docFreq c term =? 0)%nat; [lra|].
  destruct (Rlt_dec _ _) as [Hpos|]; [|lra].
  rewrite Rplus_0_l. apply Rmult_le_pos.
  - apply clampedIDF_nonneg.
  - left. by apply normTF_pos.
Qed.

Lemma sumR_nonneg l : Forall (λ x, 0 <= x) l → 0 <= sumR l.
Proof. induction 1; simpl; lra. Qed.

Lemma scoreWithTokens_valid c terms docIndex :
  validIndex c docIndex →
  scoreWithTokens c terms docIndex
  = sumR (map (termScore c (Z.to_nat docIndex)) terms).
Proof.
  intros [Hlo Hhi]. unfold scoreWithTokens.
  destruct (Z.ltb_spec docIndex 0); [lia|].
  destruct (Z.leb_spec (Z.of_nat (length (documents c))) docIndex); [lia|].
  simpl. destruct terms as [|t terms]; [done|].
  cbn [length Nat.eqb]. rewrite foldl_scoreTerm. lra.
Qed.

Lemma scoreWithTokens_invalid c terms docIndex :
  ¬ validIndex c docIndex → scoreWithTokens c terms docIndex = 0.
Proof.
  intros Hbad. unfold scoreWithTokens, validIndex in *.
  destruct (Z.ltb_spec docIndex 0); [done|].
  destruct (Z.leb_spec (Z.of_nat (length (documents c))) docIndex); [done|].
  lia.
Qed.

Lemma scoreWithTokens_nonneg c terms docIndex :
  0 <= scoreWithTokens c terms docIndex.
Proof.
  destruct (decide (validIndex c docIndex)) as [Hv|Hv].
  - rewrite scoreWithTokens_valid by done.
    apply sumR_nonneg. induction terms; constructor; [|done].
    apply termScore_nonneg.
  - rewrite scoreWithTokens_invalid by done. lra.
Qed.

(** ** Sums over the fields of a corpus *)

Lemma mapSum_list {A} (h : Field → A → R) (m : gmap Field A) :
  mapSum h m = sumR (map (λ ka, h ka.1 ka.2) (map_to_list m)).
Proof.
  unfold mapSum. rewrite map_fold_foldr.
  induction (map_to_list m) as [|[k a] l IH]; simpl; [done|].
  rewrite IH. lra.
Qed.

Lemma mapSum_empty {A} (h : Field → A → R) : mapSum h ∅ = 0.
Proof. unfold mapSum. by rewrite map_fold_empty. Qed.

Lemma mapSum_insert {A} (h : Field → A → R) (m : gmap Field A) k a :
  m !! k = None → mapSum h (<[k := a]> m) = h k a + mapSum h m.
Proof.
  intros Hk. unfold mapSum. rewrite map_fold_insert_L; [lra| |done].
  intros. lra.
Qed.

Lemma mapSum_delete {A} (h : Field → A → R) (m : gmap Field A) k a :
  m !! k = Some a → mapSum h m = h k a + mapSum h (delete k m).
Proof.
  intros Hk. rewrite <- (insert_delete_id m k a) at 1 by done.
  apply mapSum_insert, lookup_delete_eq.
Qed.

Lemma mapSum_same_lookups {A A'} (h : Field → A → R) (h' : Field → A' → R)
    (m : gmap Field A) (m' : gmap Field A') :
  (∀ k, is_Some (m !! k) ↔ is_Some (m' !! k)) →
  (∀ k a a', m !! k = Some a → m' !! k = Some a' → h k a = h' k a') →
  mapSum h m = mapSum h' m'.
Proof.
  revert m'. induction m as [|k a m Hk IH] using map_ind; intros m' Hkeys Hh.
  - assert (m' = ∅) as ->.
    { apply map_empty. intros j. apply eq_None_not_Some.
      rewrite <- Hkeys, lookup_empty. by intros []. }
    by rewrite !mapSum_empty.
  - assert (is_Some (m' !! k)) as [a' Ha'].
    { apply Hkeys. rewrite lookup_insert_eq. eauto. }
    rewrite mapSum_insert by done.
    rewrite (mapSum_delete h' m' k a') by done.
    rewrite (Hh k a a'); [|by rewrite lookup_insert_eq|done].
    f_equal. apply IH.
    + intros j. destruct (decide (j = k)) as [->|Hne].
      * rewrite Hk, lookup_delete_eq. split; by intros [].
      * by rewrite lookup_delete_ne, <- Hkeys, lookup_insert_ne.
    + intros j b b' Hb Hb'.
      destruct (decide (j = k)) as [->|Hne]; [congruence|].
      rewrite lookup_delete_ne in Hb' by done.
      apply Hh; [by rewrite lookup_insert_ne|done].
Qed.

(** Two maps with the same keys and summands that agree key by key have
    the same sum. *)
Lemma mapSum_same_keys {A A'} (h : Field → A → R) (h' : Field → A' → R)
    (m : gmap Field A) (m' : gmap Field A') :
  dom m = dom m' →
  (∀ k a a', m !! k = Some a → m' !! k = Some a' → h k a = h' k a') →
  mapSum h m = mapSum h' m'.
Proof.
  intros Hdom. apply mapSum_same_lookups.
  intros k. by rewrite <- !elem_of_dom, Hdom.
Qed.

Lemma weightedTF_mapSum c term i :
  weightedTF c term i
  = mapSum (λ fld s, default 0 (fieldWeights c !! fld) * INR (tfAt s i term))
           (fieldScorers c).
Proof.
  unfold weightedTF, mapSum. rewrite !map_fold_foldr.
  induction (map_to_list (fieldScorers c)) as [|[fld s] l IH]; simpl; [done|].
  rewrite IH. unfold tfAt.
  destruct (termFrequencies s !! i) as [docTF|]; simpl; [|lra].
  destruct (Rlt_dec _ _) as [|Hz]; [done|].
  assert (INR (default 0%nat (docTF !! term)) = 0) as ->.
  { pose proof (pos_INR (default 0%nat (docTF !! term))). lra. }
  lra.
Qed.

Lemma termFound_true c term i :
  termFound c term i = true
  ↔ ∃ fld s, fieldScorers c !! fld = Some s ∧ (0 < tfAt s i term)%nat.
Proof.
  unfold termFound. rewrite map_fold_foldr.
  assert (Hin : ∀ fld s, fieldScorers c !! fld = Some s
                         ↔ (fld, s) ∈ map_to_list (fieldScorers c)).
  { intros. by rewrite elem_of_map_to_list. }
  setoid_rewrite Hin. clear Hin.
  induction (map_to_list (fieldScorers c)) as [|[fld s] l IH]; simpl.
  - split; [done|]. intros (? & ? & []%elem_of_nil & _).
  - rewrite orb_true_iff, IH, Nat.ltb_lt. split.
    + intros [(f & s' & Hin & Hpos)|Hpos].
      * exists f, s'. split; [apply elem_of_cons; by right|done].
      * exists fld, s. split; [apply elem_of_cons; by left|done].
    + intros (f & s' & [[= -> ->]|Hin]%elem_of_cons & Hpos).
      * by right.
      * left. by exists f, s'.
Qed.

Lemma count_foldl {A} (p : A → bool) (l : list A) (n : nat) :
  foldl (λ k x, if p x then S k else k) n l
  = (n + length (List.filter p l))%nat.
Proof.
  revert n. induction l as [|x l IH]; intros n; simpl; [lia|].
  rewrite IH. destruct (p x); simpl; lia.
Qed.

Lemma docFreq_filter c term :
  docFreq c term
  = length (List.filter (termFound c term) (seq 0 (length (documents c)))).
Proof. unfold docFreq. by rewrite count_foldl. Qed.

Lemma docFreq_le c term : (docFreq c term <= length (documents c))%nat.
Proof.
  rewrite docFreq_filter.
  etransitivity; [apply List.filter_length_le|]. by rewrite length_seq.
Qed.

(** [math.Log] is only ever applied to a positive number, where the
    logarithm of [R] is the one meant: the document frequency cannot
    exceed the number of documents. *)
Lemma idf_argument_pos c term :
  0 < (INR (length (documents c)) - INR (docFreq c term) + 0.5)
      / (INR (docFreq c term) + 0.5).
Proof.
  pose proof (le_INR _ _ (docFreq_le c term)).
  pose proof (pos_INR (docFreq c term)).
  apply Rdiv_lt_0_compat; lra.
Qed.

(** [fieldBM25.score] returns 0 for an index outside the field's tables. *)
Lemma fieldScore_out_of_range f terms docIndex :
  (docIndex < 0 ∨ Z.of_nat (length (termFrequencies f)) <= docIndex)%Z →
  fieldScore f terms docIndex = 0.
Proof.
  intros Hbad. unfold fieldScore.
  destruct (Z.ltb_spec docIndex 0); [done|].
  destruct (Z.leb_spec (Z.of_nat (length (termFrequencies f))) docIndex);
    [done|lia].
Qed.

(** The weighted frequency from the fields that have the term: the form
    in which it is evaluated on a concrete corpus. *)
Lemma weightedTF_nonzeroTFs c term i :
  weightedTF c term i
  = sumR (map (λ fn, default 0 (fieldWeights c !! fn.1) * INR fn.2)
              (nonzeroTFs c term i)).
Proof.
  rewrite weightedTF_mapSum, mapSum_list. unfold nonzeroTFs.
  induction (map_to_list (fieldScorers c)) as [|[fld s] l IH]; simpl; [done|].
  rewrite IH. destruct (Nat.ltb_spec 0 (tfAt s i term)) as [|Hz]; simpl.
  - done.
  - replace (tfAt s i term) with 0%nat by lia. simpl. lra.
Qed.

Lemma weightedTF_not_found c term i :
  termFound c term i = false → weightedTF c term i = 0.
Proof.
  intros Hnf. rewrite weightedTF_mapSum.
  rewrite <- (mapSum_empty (A := fieldBM25) (λ _ _, 0)).
  transitivity (mapSum (λ (_ : Field) (_ : fieldBM25), 0) (fieldScorers c)).
  - apply mapSum_same_keys; [done|]. intros fld s s' Hs _.
    destruct (Nat.ltb_spec 0 (tfAt s i term)) as [Hpos|Hz].
    + assert (termFound c term i = true) by (apply termFound_true; eauto).
      congruence.
    + replace (tfAt s i term) with 0%nat by lia. simpl. lra.
  - rewrite mapSum_empty.
    induction (fieldScorers c) as [|k a m Hk IH] using map_ind.
    + apply mapSum_empty.
    + rewrite mapSum_insert by done. lra.
Qed.

(** ** Building a corpus *)

Lemma buildCorpus_nil opts : buildCorpus opts [] = NewCorpus opts.
Proof. done. Qed.

Lemma buildCorpus_snoc opts docs doc :
  buildCorpus opts (docs ++ [doc]) = AddDocument (buildCorpus opts docs) doc.
Proof. unfold buildCorpus. by rewrite foldl_app. Qed.

Lemma buildCorpus_fieldWeights opts docs :
  fieldWeights (buildCorpus opts docs) = fieldWeights (NewCorpus opts).
Proof.
  induction docs as [|doc docs IH] using rev_ind; [done|].
  by rewrite buildCorpus_snoc.
Qed.

Lemma buildCorpus_tokenizer opts docs :
  tokenizer (buildCorpus opts docs) = tokenizer (NewCorpus opts).
Proof.
  induction docs as [|doc docs IH] using rev_ind; [done|].
  by rewrite buildCorpus_snoc.
Qed.

Lemma applyOptions_documents opts c :
  documents (foldl (λ c opt, applyOption opt c) c opts) = documents c.
Proof.
  revert c. induction opts as [|opt opts IH]; intros c; simpl; [done|].
  rewrite IH. by destruct opt as [|[]| |[]].
Qed.

Lemma NewCorpus_documents opts : documents (NewCorpus opts) = [].
Proof.
  unfold NewCorpus, buildFieldScorers. cbn [documents].
  by rewrite applyOptions_documents.
Qed.

Lemma buildCorpus_length opts docs :
  length (documents (buildCorpus opts docs)) = length docs.
Proof.
  induction docs as [|doc docs IH] using rev_ind.
  { by rewrite buildCorpus_nil, NewCorpus_documents. }
  rewrite buildCorpus_snoc. simpl. rewrite !length_app, IH. done.
Qed.

Lemma buildCorpus_documents opts docs :
  documents (buildCorpus opts docs)
  = imap (λ i doc, mkDocument (Z.of_nat i) (Fields doc) (Original doc)) docs.
Proof.
  induction docs as [|doc docs IH] using rev_ind.
  { by rewrite buildCorpus_nil, NewCorpus_documents. }
  rewrite buildCorpus_snoc, imap_app. unfold AddDocument.
  cbn [documents Fields Original]. rewrite buildCorpus_length, IH.
  simpl. repeat f_equal. lia.
Qed.

Lemma NewCorpus_scorers opts fld :
  fieldScorers (NewCorpus opts) !! fld
  = (λ w, newFieldBM25 fld w
            (scorerParams
               (foldl (λ c opt, applyOption opt c)
                      (mkCorpus [] ∅ DefaultFieldWeights DefaultBM25Parameters
                                DefaultTokenizer None) opts) fld))
    <$> (fieldWeights (NewCorpus opts) !! fld).
Proof.
  unfold NewCorpus, buildFieldScorers. cbn [fieldScorers fieldWeights].
  rewrite map_lookup_imap. by destruct (_ !! fld).
Qed.

Lemma buildCorpus_scorers opts docs fld :
  fieldScorers (buildCorpus opts docs) !! fld
  = (λ s, indexField (tokenizer (NewCorpus opts)) fld s docs)
    <$> (fieldScorers (NewCorpus opts) !! fld).
Proof.
  induction docs as [|doc docs IH] using rev_ind.
  - rewrite buildCorpus_nil. by destruct (_ !! fld).
  - rewrite buildCorpus_snoc. unfold AddDocument. cbn [fieldScorers].
    rewrite map_lookup_imap, IH, buildCorpus_tokenizer.
    destruct (fieldScorers (NewCorpus opts) !! fld) as [s|]; simpl; [|done].
    unfold indexField. by rewrite foldl_app.
Qed.

(** The weight map and the scorer map of a built corpus have the same keys. *)
Lemma buildCorpus_dom opts docs :
  dom (fieldWeights (buildCorpus opts docs))
  = dom (fieldScorers (buildCorpus opts docs)).
Proof.
  apply set_eq. intros fld. rewrite !elem_of_dom.
  rewrite buildCorpus_fieldWeights, buildCorpus_scorers, NewCorpus_scorers.
  rewrite !fmap_is_Some. done.
Qed.

Lemma indexField_snoc tok fld s docs doc :
  indexField tok fld s (docs ++ [doc])
  = addDocument (indexField tok fld s docs)
                (Tokenize tok (default "" (Fields doc !! fld))).
Proof. unfold indexField. by rewrite foldl_app. Qed.

Lemma indexField_termFrequencies tok fld s docs :
  termFrequencies (indexField tok fld s docs)
  = termFrequencies s
    ++ ((λ doc, countTerms (Tokenize tok (default "" (Fields doc !! fld))))
        <$> docs).
Proof.
  induction docs as [|doc docs IH] using rev_ind.
  - simpl. by rewrite app_nil_r.
  - rewrite indexField_snoc. simpl. rewrite IH, fmap_app, app_assoc. done.
Qed.

Lemma foldl_add_foldr l n :
  foldl Nat.add n l = (n + foldr Nat.add 0 l)%nat.
Proof.
  revert n. induction l as [|x l IH]; intros n; simpl; [lia|].
  rewrite IH. lia.
Qed.

Lemma newFieldBM25_inv fld w p : scorerInv (newFieldBM25 fld w p).
Proof.
  repeat split. unfold mean. simpl. unfold Rdiv. by rewrite Rmult_0_l.
Qed.

Lemma addDocument_inv s tokens : scorerInv s → scorerInv (addDocument s tokens).
Proof.
  intros (Htf & Hlen & _). unfold scorerInv, addDocument.
  cbn [termFrequencies docLengths avgDocLength totalDocs].
  rewrite !length_app, Htf, Hlen. cbn [length].
  repeat split; [lia..|].
  change (0 <? S (totalDocs s))%nat with true. cbv iota.
  unfold mean, sumLengths. rewrite foldl_add_foldr, length_app, Hlen.
  cbn [length Nat.add]. do 2 f_equal. lia.
Qed.

Lemma indexField_inv tok fld s docs :
  scorerInv s → scorerInv (indexField tok fld s docs).
Proof.
  intros Hs. induction docs as [|doc docs IH] using rev_ind; [done|].
  rewrite indexField_snoc. by apply addDocument_inv.
Qed.

Lemma indexField_totalDocs tok fld s docs :
  totalDocs (indexField tok fld s docs) = (totalDocs s + length docs)%nat.
Proof.
  induction docs as [|doc docs IH] using rev_ind; [simpl; lia|].
  rewrite indexField_snoc, length_app. simpl. rewrite IH. lia.
Qed.

(** ** Evaluating a term score *)

Lemma termScore_docFreq_0 c i term :
  docFreq c term = 0%nat → termScore c i term = 0.
Proof. intros Hdf. unfold termScore, scoreTerm. by rewrite Hdf. Qed.

Lemma termScore_weighted c i term :
  docFreq c term ≠ 0%nat → 0 < weightedTF c term i →
  termScore c i term
  = clampedIDF (length (documents c)) (docFreq c term)
    * (weightedTF c term i * (combinedK1 + 1)
       / (weightedTF c term i + combinedK1)).
Proof.
  intros Hdf Hw. unfold termScore, scoreTerm.
  destruct (Nat.eqb_spec (docFreq c term) 0); [done|].
  destruct (Rlt_dec _ _); [lra|done].
Qed.

Lemma termScore_unweighted c i term :
  weightedTF c term i <= 0 → termScore c i term = 0.
Proof.
  intros Hw. unfold termScore, scoreTerm.
  destruct (docFreq c term =? 0)%nat; [done|].
  destruct (Rlt_dec _ _); [lra|done].
Qed.

Lemma termScore_pos c i term :
  (0 < docFreq c term)%nat →
  (2 * docFreq c term < length (documents c))%nat →
  0 < weightedTF c term i →
  0 < termScore c i term.
Proof.
  intros Hdf Hhalf Hw. rewrite termScore_weighted by (done || lia).
  apply Rmult_lt_0_compat; [by apply clampedIDF_pos|by apply normTF_pos].
Qed.

Lemma DefaultFieldWeights_body : DefaultFieldWeights !! FieldBody = Some 1.
Proof. reflexivity. Qed.

Lemma poemCorpus_weightedTF : weightedTF poemCorpus "waltzing" 0 = 1.
Proof.
  rewrite weightedTF_nonzeroTFs.
  replace (nonzeroTFs poemCorpus "waltzing" 0) with [(FieldBody, 1%nat)]
    by (vm_compute; reflexivity).
  unfold poemCorpus. rewrite buildCorpus_fieldWeights. simpl.
  rewrite DefaultFieldWeights_body. simpl. lra.
Qed.

Lemma poemCorpus_termScore_pos : 0 < termScore poemCorpus 0 "waltzing".
Proof.
  apply termScore_pos.
  - replace (docFreq poemCorpus "waltzing") with 1%nat
      by (vm_compute; reflexivity). lia.
  - replace (docFreq poemCorpus "waltzing") with 1%nat
      by (vm_compute; reflexivity).
    replace (length (documents poemCorpus)) with 3%nat
      by (vm_compute; reflexivity). lia.
  - rewrite poemCorpus_weightedTF. lra.
Qed.

Lemma poemCorpus_length : length (documents poemCorpus) = 3%nat.
Proof. vm_compute. reflexivity. Qed.

Lemma poemCorpus_valid_0 : validIndex poemCorpus 0.
Proof. unfold validIndex. rewrite poemCorpus_length. lia. Qed.

(** ** Claims about [Score] *)

(** C1, as amended: for a valid document index [Corpus.Score] is the sum
    of one term score per element of the tokenized query, repetitions
    included; the loop of [scoreWithTokens] never skips a term it has
    already scored. *)
Theorem Score_sums_every_occurrence c query docIndex :
  validIndex c docIndex →
  Score c query docIndex
  = sumR (map (termScore c (Z.to_nat docIndex))
              (Tokenize (tokenizer c) query)).
Proof. intros Hv. unfold Score. by apply scoreWithTokens_valid. Qed.

Lemma Score_sums_every_occurrence_witness :
  validIndex poemCorpus 0
  ∧ Score poemCorpus "waltzing waltzing" 0
    = sumR (map (termScore poemCorpus (Z.to_nat 0))
                (Tokenize (tokenizer poemCorpus) "waltzing waltzing")).
Proof.
  split; [unfold validIndex; rewrite poemCorpus_length; lia|].
  apply (Score_sums_every_occurrence poemCorpus "waltzing waltzing" 0).
  unfold validIndex. rewrite poemCorpus_length. lia.
Defined.

(** C1, the counterexample: in the three-line corpus the query
    "waltzing waltzing" tokenizes to the same term twice and scores
    document 0 strictly higher than the query "waltzing" does. *)
Lemma Score_repeated_term_counts_twice :
  Tokenize (tokenizer poemCorpus) "waltzing waltzing"
  = ["waltzing"; "waltzing"]
  ∧ Tokenize (tokenizer poemCorpus) "waltzing" = ["waltzing"]
  ∧ Score poemCorpus "waltzing" 0 < Score poemCorpus "waltzing waltzing" 0.
Proof.
  assert (H2 : Tokenize (tokenizer poemCorpus) "waltzing waltzing"
               = ["waltzing"; "waltzing"]) by (vm_compute; reflexivity).
  assert (H1 : Tokenize (tokenizer poemCorpus) "waltzing" = ["waltzing"])
    by (vm_compute; reflexivity).
  split; [done|]. split; [done|].
  unfold Score. rewrite H1, H2.
  rewrite !scoreWithTokens_valid by apply poemCorpus_valid_0.
  change (Z.to_nat 0) with 0%nat. cbn [map sumR].
  pose proof poemCorpus_termScore_pos. lra.
Qed.

(** C5: [Corpus.Score] is 0 when the query tokenizes to no term, and
    when the index is negative or not below the document count.  [Score]
    reads the corpus and writes nothing, which is why it is a function
    of the corpus here: there is no later state to speak of. *)
Theorem Score_zero_without_terms_or_document c query docIndex :
  Tokenize (tokenizer c) query = [] ∨ ¬ validIndex c docIndex →
  Score c query docIndex = 0.
Proof.
  intros [Hq|Hi]; unfold Score.
  - rewrite Hq. unfold scoreWithTokens. by destruct (_ || _).
  - by apply scoreWithTokens_invalid.
Qed.

Lemma Score_zero_without_terms_or_document_witness :
  Score poemCorpus "a to" 0 = 0
  ∧ Score poemCorpus "waltzing" 3 = 0
  ∧ Score poemCorpus "waltzing" (-1) = 0.
Proof.
  split; [|split].
  - apply (Score_zero_without_terms_or_document poemCorpus "a to" 0).
    left. vm_compute. reflexivity.
  - apply (Score_zero_without_terms_or_document poemCorpus "waltzing" 3).
    right. unfold validIndex. rewrite poemCorpus_length. lia.
  - apply (Score_zero_without_terms_or_document poemCorpus "waltzing" (-1)).
    right. unfold validIndex. lia.
Defined.

(** Over the reals the score is never negative.  Every term contributes
    the clamped idf, which is at least 0, times a positive saturated
    frequency, or nothing; a term found in at least half of the
    documents has idf 0 and contributes exactly 0.  (What binary64 keeps
    of this is [Score_never_below_zero] below.) *)
Lemma Score_nonneg :
  (∀ c query docIndex, 0 <= Score c query docIndex)
  ∧ (∀ c docIndex term, 0 <= termScore c docIndex term)
  ∧ (∀ N df, 0 <= clampedIDF N df)
  ∧ (∀ c docIndex term,
       (length (documents c) <= 2 * docFreq c term)%nat →
       termScore c docIndex term = 0).
Proof.
  split; [|split; [|split]].
  - intros. apply scoreWithTokens_nonneg.
  - intros. apply termScore_nonneg.
  - intros. apply clampedIDF_nonneg.
  - intros c i term Hhalf. unfold termScore, scoreTerm.
    destruct (docFreq c term =? 0)%nat; [done|].
    rewrite clampedIDF_zero by done.
    destruct (Rlt_dec _ _); lra.
Qed.

(** ** Claims about [AddDocument] *)

(** C8: in the corpus built by any options and any sequence of
    [AddDocument] calls, the weight map and the scorer map have the same
    keys, and every scorer holds one term-count table and one length per
    document, its average length being the mean of the lengths (0 while
    there is none). *)
Theorem AddDocument_keeps_indexes_aligned opts docs :
  dom (fieldWeights (buildCorpus opts docs))
  = dom (fieldScorers (buildCorpus opts docs))
  ∧ ∀ fld scorer,
      fieldScorers (buildCorpus opts docs) !! fld = Some scorer →
      length (termFrequencies scorer)
      = length (documents (buildCorpus opts docs))
      ∧ length (docLengths scorer)
        = length (documents (buildCorpus opts docs))
      ∧ avgDocLength scorer = mean (docLengths scorer).
Proof.
  split; [apply buildCorpus_dom|].
  intros fld scorer. rewrite buildCorpus_scorers, NewCorpus_scorers.
  rewrite buildCorpus_length.
  destruct (fieldWeights (NewCorpus opts) !! fld) as [w|]; [|done].
  simpl. intros [= <-].
  match goal with
  | |- context [indexField ?tok fld ?s docs] =>
      pose proof (indexField_inv tok fld s docs (newFieldBM25_inv _ _ _))
        as (Htf & Hlen & Havg);
      pose proof (indexField_totalDocs tok fld s docs) as Htot
  end.
  simpl in Htot. rewrite Htf, Hlen, Htot. done.
Qed.

(** C10: [AddDocument] appends the document with its ID replaced by the
    number of documents already stored, whatever ID the caller gave it,
    and leaves the stored documents as they are; so in every built
    corpus the document at position [i] has ID [i]. *)
Theorem AddDocument_assigns_position_as_ID :
  (∀ c doc,
     documents (AddDocument c doc)
     = documents c
       ++ [mkDocument (Z.of_nat (length (documents c)))
                      (Fields doc) (Original doc)])
  ∧ (∀ opts docs i doc,
       documents (buildCorpus opts docs) !! i = Some doc →
       ID doc = Z.of_nat i).
Proof.
  split; [done|].
  intros opts docs i doc. rewrite buildCorpus_documents, list_lookup_imap.
  destruct (docs !! i); simpl; [|done]. by intros [= <-].
Qed.

(** ** The scoring loop and the cut of [Search] *)

Lemma scoreDocuments_positive c terms i docs :
  Forall (λ r, 0 < srScore r) (scoreDocuments c terms i docs).
Proof.
  revert i. induction docs as [|doc docs IH]; intros i; simpl; [done|].
  destruct (Rlt_dec _ _); simpl; [constructor|]; auto.
Qed.

Lemma scoreDocuments_none c terms i docs :
  (∀ j, (i <= j < i + length docs)%nat →
        scoreWithTokens c terms (Z.of_nat j) <= 0) →
  scoreDocuments c terms i docs = [].
Proof.
  revert i. induction docs as [|doc docs IH]; intros i Hz; simpl; [done|].
  destruct (Rlt_dec _ _) as [Hpos|_].
  - specialize (Hz i). simpl in Hz. assert (i <= i < i + S (length docs))%nat by lia.
    specialize (Hz H). lra.
  - simpl. apply IH. intros j Hj. apply Hz. simpl. lia.
Qed.

Lemma applyLimit_take limit l :
  applyLimit limit l = l ∨ applyLimit limit l = take (Z.to_nat limit) l.
Proof. unfold applyLimit. destruct (_ && _); auto. Qed.

Lemma applyLimit_length limit l :
  length (applyLimit limit l)
  = if (0 <? limit)%Z then Nat.min (Z.to_nat limit) (length l) else length l.
Proof.
  unfold applyLimit.
  destruct (Z.ltb_spec 0 limit); simpl; [|done].
  destruct (Z.ltb_spec limit (Z.of_nat (length l))).
  - by rewrite length_take.
  - lia.
Qed.

Lemma applyLimit_uncut limit l :
  (limit <= 0 ∨ Z.of_nat (length l) <= limit)%Z → applyLimit limit l = l.
Proof.
  intros Hl. unfold applyLimit.
  destruct (Z.ltb_spec 0 limit); simpl; [|done].
  destruct (Z.ltb_spec limit (Z.of_nat (length l))); [lia|done].
Qed.

Lemma applyLimit_fmap {A} (f : SearchResult → A) limit l1 l2 :
  length l1 = length l2 → f <$> l1 = f <$> l2 →
  f <$> applyLimit limit l1 = f <$> applyLimit limit l2.
Proof.
  intros Hlen Hf. unfold applyLimit. rewrite Hlen.
  destruct (_ && _); [|done]. by rewrite !fmap_take, Hf.
Qed.

Lemma applyLimit_Forall (P : SearchResult → Prop) limit l :
  Forall P l → Forall P (applyLimit limit l).
Proof.
  intros Hl. destruct (applyLimit_take limit l) as [->| ->]; [done|].
  by apply Forall_take.
Qed.

Lemma applyLimit_descending limit l :
  descending l → descending (applyLimit limit l).
Proof.
  intros Hl. destruct (applyLimit_take limit l) as [->| ->]; [done|].
  unfold descending in *. rewrite <- (take_drop (Z.to_nat limit) l) in Hl.
  by apply StronglySorted_app_1_l in Hl.
Qed.

#[local] Instance descScore_trans :
  Transitive (λ a b : SearchResult, srScore b <= srScore a).
Proof. intros a b c ??. lra. Qed.

#[local] Instance descR_trans : Transitive (λ x y : R, y <= x).
Proof. intros a b c ??. lra. Qed.

#[local] Instance descR_antisymm : AntiSymm (=) (λ x y : R, y <= x).
Proof. intros a b ??. lra. Qed.

Lemma sortedByScore_le l :
  sortedByScore l → Sorted (λ a b, srScore b <= srScore a) l.
Proof.
  intros Hl. rewrite <- (list_fmap_id l).
  apply (Sorted_fmap Datatypes.id (λ a b, ¬ scoreLess b a)); [|done].
  unfold scoreLess. simpl. intros a b ?. lra.
Qed.

Lemma sortedByScore_descending l : sortedByScore l → descending l.
Proof.
  intros Hl. unfold descending.
  apply (@Sorted_StronglySorted SearchResult
           (λ a b : SearchResult, srScore b <= srScore a) _ l).
  by apply sortedByScore_le.
Qed.

Lemma sortedByScore_scores l :
  sortedByScore l → Sorted (λ x y : R, y <= x) (srScore <$> l).
Proof.
  apply Sorted_fmap. unfold scoreLess. intros a b ?. lra.
Qed.

Lemma fmap_injective_on {A B} (f : A → B) (l : list A) x y :
  NoDup (f <$> l) → x ∈ l → y ∈ l → f x = f y → x = y.
Proof.
  induction l as [|a l IH]; csimpl; [by intros _ []%elem_of_nil|].
  rewrite NoDup_cons, !elem_of_cons. intros [Ha Hnd] [->|Hx] [->|Hy] Hf.
  - done.
  - destruct Ha. rewrite Hf. by apply list_elem_of_fmap_2.
  - destruct Ha. rewrite <- Hf. by apply list_elem_of_fmap_2.
  - by apply IH.
Qed.

(** ** The insertion sort meets the contract of [sort.Slice] *)

Lemma moveLeft_perm x l : moveLeft x l ≡ₚ x :: l.
Proof.
  induction l as [|y l IH]; simpl; [done|].
  destruct (Rlt_dec _ _); [|done]. rewrite IH. apply perm_swap.
Qed.

Lemma moveLeft_sorted x l :
  Sorted (λ a b, srScore a <= srScore b) l →
  Sorted (λ a b, srScore a <= srScore b) (moveLeft x l).
Proof.
  induction 1 as [|y l Hl IH Hhd]; simpl; [repeat constructor|].
  destruct (Rlt_dec _ _) as [Hlt|Hge].
  - constructor; [done|].
    destruct l as [|z l]; simpl in *.
    + constructor. lra.
    + destruct (Rlt_dec _ _); constructor; first [by inv Hhd|lra].
  - constructor; [by constructor|constructor; lra].
Qed.

Lemma insertionSort_perm l : insertionSort l ≡ₚ l.
Proof.
  unfold insertionSort. rewrite reverse_Permutation.
  assert (Hgen : ∀ acc, foldl (λ revPrefix x, moveLeft x revPrefix) acc l
                        ≡ₚ l ++ acc).
  { induction l as [|x l IH]; intros acc; simpl; [done|].
    rewrite IH, moveLeft_perm. by rewrite Permutation_middle. }
  by rewrite Hgen, app_nil_r.
Qed.

Lemma insertionSort_sorted l : sortedByScore (insertionSort l).
Proof.
  unfold insertionSort, sortedByScore.
  assert (Hgen : ∀ acc, Sorted (λ a b, srScore a <= srScore b) acc →
            Sorted (λ a b, srScore a <= srScore b)
                   (foldl (λ revPrefix x, moveLeft x revPrefix) acc l)).
  { induction l as [|x l IH]; intros acc Hacc; simpl; [done|].
    by apply IH, moveLeft_sorted. }
  specialize (Hgen [] (Sorted_nil _)). apply Sorted_reverse in Hgen.
  rewrite <- (list_fmap_id (reverse _)).
  apply (Sorted_fmap Datatypes.id (flip (λ a b, srScore a <= srScore b)));
    [|done].
  unfold scoreLess, flip. simpl. intros a b ?. lra.
Qed.

(** ** The hundred-document corpus with a tie *)

Lemma tieCorpus_length : length (documents tieCorpus) = 100%nat.
Proof. vm_compute. reflexivity. Qed.

Lemma tieCorpus_docFreq : docFreq tieCorpus "waltzing" = 2%nat.
Proof. vm_compute. reflexivity. Qed.

Lemma tieCorpus_weightedTF i :
  (i < 2)%nat → weightedTF tieCorpus "waltzing" i = 1.
Proof.
  intros Hi. rewrite weightedTF_nonzeroTFs.
  assert (nonzeroTFs tieCorpus "waltzing" i = [(FieldBody, 1%nat)]) as ->.
  { destruct i as [|[|i]]; [vm_compute; reflexivity..|lia]. }
  unfold tieCorpus. rewrite buildCorpus_fieldWeights. simpl.
  rewrite DefaultFieldWeights_body. simpl. lra.
Qed.

Lemma noneFound_false c term l i :
  noneFound c term l = true → In i l → termFound c term i = false.
Proof.
  unfold noneFound. rewrite forallb_forall. intros Hall Hi.
  by apply negb_true_iff, Hall.
Qed.

Lemma tieCorpus_not_found i :
  (2 <= i < 100)%nat → termFound tieCorpus "waltzing" i = false.
Proof.
  intros Hi.
  apply (noneFound_false tieCorpus "waltzing" (seq 2 98) i).
  - vm_compute. reflexivity.
  - apply in_seq. lia.
Qed.

Lemma tieCorpus_score_top i :
  (i < 2)%nat →
  scoreWithTokens tieCorpus ["waltzing"] (Z.of_nat i)
  = termScore tieCorpus 0 "waltzing"
  ∧ 0 < termScore tieCorpus 0 "waltzing".
Proof.
  intros Hi.
  assert (Hpos : ∀ j, (j < 2)%nat → 0 < termScore tieCorpus j "waltzing").
  { intros j Hj. apply termScore_pos.
    - rewrite tieCorpus_docFreq. lia.
    - rewrite tieCorpus_docFreq, tieCorpus_length. lia.
    - rewrite tieCorpus_weightedTF by done. lra. }
  split; [|apply Hpos; lia].
  rewrite scoreWithTokens_valid
    by (unfold validIndex; rewrite tieCorpus_length; lia).
  rewrite Nat2Z.id. cbn [map sumR].
  rewrite !termScore_weighted;
    rewrite ?tieCorpus_docFreq, ?tieCorpus_weightedTF by lia;
    try done; try lra.
Qed.

Lemma tieCorpus_score_rest i :
  (2 <= i < 100)%nat →
  scoreWithTokens tieCorpus ["waltzing"] (Z.of_nat i) <= 0.
Proof.
  intros Hi.
  rewrite scoreWithTokens_valid
    by (unfold validIndex; rewrite tieCorpus_length; lia).
  rewrite Nat2Z.id. cbn [map sumR].
  rewrite termScore_unweighted; [lra|].
  rewrite weightedTF_not_found; [lra|by apply tieCorpus_not_found].
Qed.

Lemma tieCorpus_scored :
  ∃ doc0 doc1 score,
    scoreDocuments tieCorpus ["waltzing"] 0 (documents tieCorpus)
    = [mkSearchResult doc0 score 0; mkSearchResult doc1 score 1]
    ∧ ID doc0 = 0%Z ∧ ID doc1 = 1%Z.
Proof.
  assert (Hdocs : ∃ doc0 doc1 rest,
            documents tieCorpus = doc0 :: doc1 :: rest
            ∧ ID doc0 = 0%Z ∧ ID doc1 = 1%Z ∧ length rest = 98%nat).
  { do 3 eexists. split; [vm_compute; reflexivity|]. by vm_compute. }
  destruct Hdocs as (doc0 & doc1 & rest & -> & Hid0 & Hid1 & Hlen).
  exists doc0, doc1, (termScore tieCorpus 0 "waltzing").
  split; [|done]. cbn [scoreDocuments].
  destruct (tieCorpus_score_top 0) as [-> Hpos]; [lia|].
  destruct (tieCorpus_score_top 1) as [-> _]; [lia|].
  destruct (Rlt_dec _ _); [|done].
  rewrite scoreDocuments_none; [done|].
  intros j Hj. apply tieCorpus_score_rest. lia.
Qed.

(** A tie at the cut: on a corpus of one hundred documents whose
    documents 0 and 1 tie, with the insertion sort [sort.Slice] runs on
    short slices and the results of the workers arriving in reverse
    order, the sequential scan with limit 1 returns document 0 while
    [Search], which takes the concurrent path here, returns document 1. *)
Lemma strategies_differ_on_a_tie :
  (∀ l, insertionSort l ≡ₚ l)
  ∧ (∀ l, sortedByScore (insertionSort l))
  ∧ (∀ l : list SearchResult, reverse l ≡ₚ l)
  ∧ length (documents tieCorpus) = 100%nat
  ∧ (λ r, ID (srDocument r))
      <$> searchSequential insertionSort tieCorpus
            (Tokenize (tokenizer tieCorpus) "waltzing") 1
    = [0%Z]
  ∧ (λ r, ID (srDocument r))
      <$> Search insertionSort reverse tieCorpus "waltzing" 1
    = [1%Z].
Proof.
  split; [apply insertionSort_perm|].
  split; [apply insertionSort_sorted|].
  split; [apply reverse_Permutation|].
  split; [apply tieCorpus_length|].
  assert (Hq : Tokenize (tokenizer tieCorpus) "waltzing" = ["waltzing"])
    by (vm_compute; reflexivity).
  destruct tieCorpus_scored as (doc0 & doc1 & score & Hscored & Hid0 & Hid1).
  unfold Search. rewrite Hq, tieCorpus_length. cbn [length Nat.eqb Nat.ltb Nat.leb].
  unfold searchSequential, searchParallel. rewrite Hscored.
  unfold insertionSort. cbn [foldl moveLeft reverse rev_append srScore].
  destruct (Rlt_dec score score) as [Hlt|_]; [lra|].
  cbv [reverse rev_append applyLimit]. cbn [length andb Z.ltb Z.compare].
  change (1 <? Z.of_nat 2)%Z with true. change (Z.to_nat 1) with 1%nat.
  cbn. by rewrite Hid0, Hid1.
Qed.

(** ** The score in terms of the raw frequencies *)

Lemma termFound_rawTF c term i :
  termFound c term i = true ↔ ∃ fld, (0 < rawTF c fld i term)%nat.
Proof.
  rewrite termFound_true. unfold rawTF. split.
  - intros (fld & s & Hs & Hpos). exists fld. by rewrite Hs.
  - intros (fld & Hpos). destruct (fieldScorers c !! fld) as [s|] eqn:Hs.
    + by exists fld, s.
    + lia.
Qed.

Lemma docFreq_rawTF c1 c2 term :
  length (documents c1) = length (documents c2) →
  (∀ fld i, rawTF c1 fld i term = rawTF c2 fld i term) →
  docFreq c1 term = docFreq c2 term.
Proof.
  intros Hlen Hraw. rewrite !docFreq_filter, Hlen. f_equal.
  apply List.filter_ext. intros i. apply eq_true_iff_eq.
  rewrite !termFound_rawTF. by setoid_rewrite Hraw.
Qed.

Lemma weightedTF_rawTF c term i :
  dom (fieldWeights c) = dom (fieldScorers c) →
  weightedTF c term i
  = mapSum (λ fld w, w * INR (rawTF c fld i term)) (fieldWeights c).
Proof.
  intros Hdom. rewrite weightedTF_mapSum. apply mapSum_same_keys; [done|].
  intros fld s w Hs Hw. unfold rawTF. by rewrite Hs, Hw.
Qed.

Lemma buildCorpus_rawTF opts docs fld i term :
  rawTF (buildCorpus opts docs) fld i term
  = match fieldWeights (NewCorpus opts) !! fld, docs !! i with
    | Some _, Some doc =>
        default 0%nat
          (countTerms (Tokenize (tokenizer (NewCorpus opts))
                                (default "" (Fields doc !! fld))) !! term)
    | _, _ => 0%nat
    end.
Proof.
  unfold rawTF. rewrite buildCorpus_scorers, NewCorpus_scorers.
  destruct (fieldWeights (NewCorpus opts) !! fld) as [w|]; simpl; [|done].
  unfold tfAt. rewrite indexField_termFrequencies. simpl.
  rewrite list_lookup_fmap. by destruct (docs !! i).
Qed.

Lemma rawTF_out_of_range opts docs fld i term :
  (length docs <= i)%nat → rawTF (buildCorpus opts docs) fld i term = 0%nat.
Proof.
  intros Hi. rewrite buildCorpus_rawTF, (lookup_ge_None_2 docs i) by done.
  by destruct (_ !! fld).
Qed.

(** Without a document that has the term, no weighted frequency. *)
Lemma weightedTF_docFreq_0 opts docs term i :
  docFreq (buildCorpus opts docs) term = 0%nat →
  weightedTF (buildCorpus opts docs) term i = 0.
Proof.
  intros Hdf. apply weightedTF_not_found, not_true_is_false.
  rewrite termFound_rawTF. intros (fld & Hpos).
  destruct (Nat.lt_ge_cases i (length docs)) as [Hi|Hi].
  - rewrite docFreq_filter in Hdf.
    apply length_zero_iff_nil in Hdf.
    assert (Hin : In i (List.filter (termFound (buildCorpus opts docs) term)
                     (seq 0 (length (documents (buildCorpus opts docs)))))).
    { apply filter_In. split.
      - apply in_seq. rewrite buildCorpus_length. lia.
      - apply termFound_rawTF. by exists fld. }
    by rewrite Hdf in Hin.
  - rewrite rawTF_out_of_range in Hpos by done. lia.
Qed.

Lemma clampedIDF_spec N df : clampedIDF N df = spec_idf N df.
Proof.
  unfold clampedIDF, spec_idf, Rmax.
  destruct (Rlt_dec _ _), (Rle_dec _ _); lra.
Qed.

Lemma length_filter_bool {A} (p : A → bool) (P : A → Prop)
    `{∀ x, Decision (P x)} (l : list A) :
  (∀ x, p x = true ↔ P x) →
  length (List.filter p l) = length (filter P l).
Proof.
  intros Hp. induction l as [|x l IH]; [done|].
  rewrite filter_cons. simpl.
  destruct (decide (P x)) as [HP|HP].
  - apply Hp in HP. rewrite HP. simpl. by rewrite IH.
  - destruct (p x) eqn:Hpx; [by apply Hp in Hpx|done].
Qed.

Lemma docFreq_spec opts docs term :
  docFreq (buildCorpus opts docs) term
  = spec_docFreq (buildCorpus opts docs) term.
Proof.
  rewrite docFreq_filter. unfold spec_docFreq.
  apply length_filter_bool. intros i. rewrite termFound_rawTF.
  unfold map_Exists. split.
  - intros (fld & Hpos).
    assert (is_Some (fieldWeights (buildCorpus opts docs) !! fld)) as [w Hw].
    { apply elem_of_dom. rewrite buildCorpus_dom. apply elem_of_dom.
      unfold rawTF in Hpos. destruct (_ !! fld); [done|lia]. }
    exists fld, w. split; [done|lia].
  - intros (fld & w & _ & Hne). exists fld. lia.
Qed.

Lemma weightedTF_spec opts docs term i :
  weightedTF (buildCorpus opts docs) term i
  = spec_weightedTF (buildCorpus opts docs) term i.
Proof. apply weightedTF_rawTF, buildCorpus_dom. Qed.

Lemma termScore_spec opts docs term i :
  termScore (buildCorpus opts docs) i term
  = spec_termScore (buildCorpus opts docs) term i.
Proof.
  unfold spec_termScore. rewrite <- weightedTF_spec, <- docFreq_spec.
  rewrite <- clampedIDF_spec.
  destruct (Nat.eq_dec (docFreq (buildCorpus opts docs) term) 0%nat)
    as [Hz|Hnz].
  - rewrite termScore_docFreq_0, weightedTF_docFreq_0 by done.
    destruct (Rlt_dec 0 0); [lra|done].
  - destruct (Rlt_dec _ _) as [Hpos|Hnp].
    + by rewrite termScore_weighted.
    + apply termScore_unweighted. lra.
Qed.

(** The options that set the BM25 parameters change neither the weights
    nor the tokenizer. *)
Lemma NewCorpus_params_options opts p ps :
  fieldWeights (NewCorpus (opts ++ [WithBM25Params p; WithFieldParams ps]))
  = fieldWeights (NewCorpus opts)
  ∧ tokenizer (NewCorpus (opts ++ [WithBM25Params p; WithFieldParams ps]))
    = tokenizer (NewCorpus opts).
Proof.
  unfold NewCorpus, buildFieldScorers. cbn [fieldWeights tokenizer].
  rewrite foldl_app. by destruct ps.
Qed.

Lemma termScore_same_index c1 c2 i term :
  length (documents c1) = length (documents c2) →
  fieldWeights c1 = fieldWeights c2 →
  dom (fieldWeights c1) = dom (fieldScorers c1) →
  dom (fieldWeights c2) = dom (fieldScorers c2) →
  (∀ fld j, rawTF c1 fld j term = rawTF c2 fld j term) →
  termScore c1 i term = termScore c2 i term.
Proof.
  intros Hlen Hw Hd1 Hd2 Hraw. unfold termScore, scoreTerm.
  rewrite (docFreq_rawTF c1 c2) by done.
  assert (weightedTF c1 term i = weightedTF c2 term i) as ->; [|by rewrite Hlen].
  rewrite (weightedTF_rawTF c1), (weightedTF_rawTF c2), Hw by done.
  apply mapSum_same_keys; [done|].
  intros fld w w' Hfld Hfld'. rewrite Hraw. congruence.
Qed.

(** C3: in a built corpus the term score of [scoreWithTokens] is the
    BM25F formula of the specification: the document frequency counts a
    document once when some field has the term; the weighted frequency
    sums weight times raw frequency over the fields, before saturation;
    a positive weighted frequency [w] scores [idf * w * (K + 1) / (w + K)]
    with [K = 1.2], and nothing else scores.  The parameters k1 and b,
    global or per field, have no part in it. *)
Theorem termScore_is_BM25F opts docs term i :
  docFreq (buildCorpus opts docs) term
  = spec_docFreq (buildCorpus opts docs) term
  ∧ weightedTF (buildCorpus opts docs) term i
    = spec_weightedTF (buildCorpus opts docs) term i
  ∧ termScore (buildCorpus opts docs) i term
    = spec_termScore (buildCorpus opts docs) term i
  ∧ (∀ p ps,
       termScore
         (buildCorpus (opts ++ [WithBM25Params p; WithFieldParams ps]) docs)
         i term
       = termScore (buildCorpus opts docs) i term)
  ∧ ((i < length docs)%nat →
     scoreWithTokens (buildCorpus opts docs) [term] (Z.of_nat i)
     = termScore (buildCorpus opts docs) i term).
Proof.
  split; [apply docFreq_spec|].
  split; [apply weightedTF_spec|].
  split; [apply termScore_spec|].
  split.
  - intros p ps.
    destruct (NewCorpus_params_options opts p ps) as [Hw Htok].
    apply termScore_same_index.
    + by rewrite !buildCorpus_length.
    + by rewrite !buildCorpus_fieldWeights.
    + apply buildCorpus_dom.
    + apply buildCorpus_dom.
    + intros fld j. by rewrite !buildCorpus_rawTF, Hw, Htok.
  - intros Hi. rewrite scoreWithTokens_valid.
    + rewrite Nat2Z.id. simpl. lra.
    + unfold validIndex. rewrite buildCorpus_length. lia.
Qed.

(** ** Raising the weight of one field *)

Lemma NewCorpus_weights_option opts ws :
  fieldWeights (NewCorpus (opts ++ [WithFieldWeights (Some ws)])) = ws
  ∧ tokenizer (NewCorpus (opts ++ [WithFieldWeights (Some ws)]))
    = tokenizer (NewCorpus opts).
Proof.
  unfold NewCorpus, buildFieldScorers. cbn [fieldWeights tokenizer].
  by rewrite foldl_app.
Qed.

Lemma withWeights_fieldWeights opts ws docs :
  fieldWeights (withWeights opts ws docs) = ws.
Proof.
  unfold withWeights. rewrite buildCorpus_fieldWeights.
  apply NewCorpus_weights_option.
Qed.

Lemma withWeights_rawTF opts ws fld w docs f i term :
  is_Some (ws !! fld) →
  rawTF (withWeights opts (<[fld := w]> ws) docs) f i term
  = rawTF (withWeights opts ws docs) f i term.
Proof.
  intros [w0 Hw0]. unfold withWeights. rewrite !buildCorpus_rawTF.
  destruct (NewCorpus_weights_option opts ws) as [-> ->].
  destruct (NewCorpus_weights_option opts (<[fld := w]> ws)) as [-> ->].
  destruct (decide (f = fld)) as [->|Hne].
  - by rewrite lookup_insert_eq, Hw0.
  - by rewrite lookup_insert_ne.
Qed.

Lemma withWeights_weightedTF opts ws fld w1 w2 docs term i :
  ws !! fld = Some w1 →
  weightedTF (withWeights opts (<[fld := w2]> ws) docs) term i
  = weightedTF (withWeights opts ws docs) term i
    + (w2 - w1) * INR (rawTF (withWeights opts ws docs) fld i term).
Proof.
  intros Hw1.
  rewrite !weightedTF_rawTF by apply buildCorpus_dom.
  rewrite !withWeights_fieldWeights.
  rewrite (mapSum_delete _ ws fld w1) by done.
  rewrite <- (insert_delete_eq ws fld w2).
  rewrite mapSum_insert by apply lookup_delete_eq.
  rewrite insert_delete_eq, withWeights_rawTF by done.
  assert (mapSum (λ f w, w * INR (rawTF (withWeights opts (<[fld:=w2]> ws) docs)
                                         f i term)) (delete fld ws)
          = mapSum (λ f w, w * INR (rawTF (withWeights opts ws docs) f i term))
                   (delete fld ws)) as ->; [|lra].
  apply mapSum_same_keys; [done|].
  intros f w w' Hf Hf'. rewrite withWeights_rawTF by done. congruence.
Qed.

Lemma withWeights_docFreq opts ws fld w docs term :
  is_Some (ws !! fld) →
  docFreq (withWeights opts (<[fld := w]> ws) docs) term
  = docFreq (withWeights opts ws docs) term.
Proof.
  intros Hfld. apply docFreq_rawTF.
  - unfold withWeights. by rewrite !buildCorpus_length.
  - intros f i. by apply withWeights_rawTF.
Qed.

Lemma termScore_mono c1 c2 i term :
  length (documents c1) = length (documents c2) →
  docFreq c1 term = docFreq c2 term →
  weightedTF c1 term i <= weightedTF c2 term i →
  termScore c1 i term <= termScore c2 i term.
Proof.
  intros Hlen Hdf Hw. unfold termScore, scoreTerm. rewrite Hlen, Hdf.
  destruct (docFreq c2 term =? 0)%nat; [lra|].
  pose proof (clampedIDF_nonneg (length (documents c2)) (docFreq c2 term)).
  destruct (Rlt_dec 0 (weightedTF c1 term i)) as [H1|H1];
    destruct (Rlt_dec 0 (weightedTF c2 term i)) as [H2|H2]; try lra.
  - rewrite !Rplus_0_l. apply Rmult_le_compat_l; [done|].
    by apply normTF_mono.
  - rewrite Rplus_0_l. apply Rmult_le_pos; [done|].
    left. by apply normTF_pos.
Qed.

Lemma termScore_strict c1 c2 i term :
  length (documents c1) = length (documents c2) →
  docFreq c1 term = docFreq c2 term →
  docFreq c2 term ≠ 0%nat →
  0 < clampedIDF (length (documents c2)) (docFreq c2 term) →
  0 < weightedTF c2 term i →
  weightedTF c1 term i < weightedTF c2 term i →
  termScore c1 i term < termScore c2 i term.
Proof.
  intros Hlen Hdf Hnz Hidf H2 Hw. unfold termScore, scoreTerm.
  rewrite Hlen, Hdf.
  destruct (Nat.eqb_spec (docFreq c2 term) 0); [done|].
  destruct (Rlt_dec 0 (weightedTF c2 term i)); [|done].
  destruct (Rlt_dec 0 (weightedTF c1 term i)) as [H1|H1].
  - rewrite !Rplus_0_l. apply Rmult_lt_compat_l; [done|].
    by apply normTF_strict.
  - rewrite Rplus_0_l. apply Rmult_lt_0_compat; [done|].
    by apply normTF_pos.
Qed.

Lemma docFreq_found c term i :
  (i < length (documents c))%nat → termFound c term i = true →
  docFreq c term ≠ 0%nat.
Proof.
  intros Hi Hfound. rewrite docFreq_filter. intros Hz.
  apply length_zero_iff_nil in Hz.
  assert (Hin : In i (List.filter (termFound c term)
                                  (seq 0 (length (documents c))))).
  { apply filter_In. split; [apply in_seq; lia|done]. }
  by rewrite Hz in Hin.
Qed.

Lemma sumR_map_le {A} (f g : A → R) (l : list A) :
  (∀ x, f x <= g x) → sumR (map f l) <= sumR (map g l).
Proof.
  intros Hfg. induction l as [|x l IH]; simpl; [lra|].
  specialize (Hfg x). lra.
Qed.

Lemma sumR_map_lt {A} (f g : A → R) (l : list A) x :
  (∀ y, f y <= g y) → x ∈ l → f x < g x →
  sumR (map f l) < sumR (map g l).
Proof.
  intros Hfg Hx Hlt. induction l as [|y l IH]; [by apply elem_of_nil in Hx|].
  simpl. apply elem_of_cons in Hx as [->|Hx].
  - pose proof (sumR_map_le f g l Hfg). lra.
  - specialize (IH Hx). specialize (Hfg y). lra.
Qed.

(** Over the reals.  Two corpora differ only in the weight of [fld],
    larger in the second; everything else being equal, the difference of
    their scores is the difference of what the field contributes.  In
    exact arithmetic the second score is never smaller; it is strictly
    larger when some query term that the field of the target document
    contains has a positive idf and a positive weighted frequency in the
    second corpus.  (Binary64 keeps neither: see
    [raising_a_weight_in_float64] below.) *)
Lemma raising_a_field_weight_over_R opts ws fld w1 w2 docs query docIndex :
  ws !! fld = Some w1 → w1 < w2 →
  Score (withWeights opts ws docs) query docIndex
  <= Score (withWeights opts (<[fld := w2]> ws) docs) query docIndex
  ∧ (validIndex (withWeights opts (<[fld := w2]> ws) docs) docIndex →
     (∃ term,
        term ∈ Tokenize (tokenizer (withWeights opts (<[fld := w2]> ws) docs))
                        query
        ∧ (0 < rawTF (withWeights opts (<[fld := w2]> ws) docs) fld
                     (Z.to_nat docIndex) term)%nat
        ∧ 0 < clampedIDF
                (length (documents (withWeights opts (<[fld := w2]> ws) docs)))
                (docFreq (withWeights opts (<[fld := w2]> ws) docs) term)
        ∧ 0 < weightedTF (withWeights opts (<[fld := w2]> ws) docs) term
                         (Z.to_nat docIndex)) →
     Score (withWeights opts ws docs) query docIndex
     < Score (withWeights opts (<[fld := w2]> ws) docs) query docIndex).
Proof.
  intros Hw1 Hlt.
  set (c1 := withWeights opts ws docs).
  set (c2 := withWeights opts (<[fld := w2]> ws) docs).
  assert (Hlen : length (documents c1) = length (documents c2)).
  { unfold c1, c2, withWeights. by rewrite !buildCorpus_length. }
  assert (Htok : tokenizer c1 = tokenizer c2).
  { unfold c1, c2, withWeights. rewrite !buildCorpus_tokenizer.
    destruct (NewCorpus_weights_option opts ws) as [_ ->].
    by destruct (NewCorpus_weights_option opts (<[fld := w2]> ws)) as [_ ->]. }
  assert (Hdf : ∀ term, docFreq c1 term = docFreq c2 term).
  { intros term. symmetry. by apply withWeights_docFreq. }
  assert (Hraw : ∀ i term, rawTF c2 fld i term = rawTF c1 fld i term).
  { intros. by apply withWeights_rawTF. }
  assert (Hwtf : ∀ i term, weightedTF c2 term i
            = weightedTF c1 term i + (w2 - w1) * INR (rawTF c1 fld i term)).
  { intros. by apply withWeights_weightedTF. }
  assert (Hle : ∀ i term, termScore c1 i term <= termScore c2 i term).
  { intros i term. apply termScore_mono; [done..|].
    rewrite Hwtf. pose proof (pos_INR (rawTF c1 fld i term)). nra. }
  assert (Hvalid : validIndex c1 docIndex ↔ validIndex c2 docIndex).
  { unfold validIndex. by rewrite Hlen. }
  unfold Score. rewrite Htok. split.
  - destruct (decide (validIndex c2 docIndex)) as [Hv|Hv].
    + rewrite !scoreWithTokens_valid by tauto. by apply sumR_map_le.
    + rewrite !scoreWithTokens_invalid by tauto. lra.
  - intros Hv (term & Hin & Htf & Hidf & Hpos).
    rewrite !scoreWithTokens_valid by tauto.
    apply (sumR_map_lt _ _ _ term); [done..|].
    apply termScore_strict; try done.
    + apply (docFreq_found c2 term (Z.to_nat docIndex)).
      * unfold validIndex in Hv. lia.
      * apply termFound_rawTF. by exists fld.
    + rewrite Hwtf. rewrite Hraw in Htf.
      assert (0 < INR (rawTF c1 fld (Z.to_nat docIndex) term))
        by (apply lt_0_INR; lia).
      nra.
Qed.

Lemma raising_the_body_weight_over_R :
  DefaultFieldWeights !! FieldBody = Some 1
  ∧ 1 < 2
  ∧ Score (withWeights [] DefaultFieldWeights poemDocuments) "waltzing" 0
    < Score (withWeights [] (<[FieldBody := 2]> DefaultFieldWeights)
                         poemDocuments) "waltzing" 0.
Proof.
  split; [reflexivity|]. split; [lra|].
  apply (raising_a_field_weight_over_R
           [] DefaultFieldWeights FieldBody 1 2 poemDocuments "waltzing" 0);
    [reflexivity|lra| |].
  - unfold validIndex, withWeights. rewrite buildCorpus_length. simpl. lia.
  - exists "waltzing". split; [|split; [|split]].
    + replace (Tokenize _ "waltzing") with ["waltzing"]
        by (vm_compute; reflexivity).
      apply elem_of_cons. by left.
    + replace (rawTF _ FieldBody (Z.to_nat 0) "waltzing") with 1%nat
        by (vm_compute; reflexivity).
      lia.
    + apply clampedIDF_pos.
      replace (docFreq _ "waltzing") with 1%nat by (vm_compute; reflexivity).
      unfold withWeights. rewrite buildCorpus_length. simpl. lia.
    + rewrite weightedTF_nonzeroTFs.
      replace (nonzeroTFs _ "waltzing" (Z.to_nat 0))
        with [(FieldBody, 1%nat)] by (vm_compute; reflexivity).
      rewrite withWeights_fieldWeights. simpl.
      rewrite lookup_insert_eq. simpl. lra.
Qed.

Lemma termScore_common_term c i term :
  (length (documents c) <= 2 * docFreq c term)%nat → termScore c i term = 0.
Proof.
  intros Hhalf. unfold termScore, scoreTerm.
  destruct (docFreq c term =? 0)%nat; [done|].
  rewrite clampedIDF_zero by done.
  destruct (Rlt_dec _ _); lra.
Qed.

(** The clamp, over the reals: of two documents one has "waltzing" in
    its body, so the idf of the term is clamped to 0; doubling the weight
    of the body leaves the score of that document for "waltzing" at 0. *)
Lemma raising_a_weight_of_a_common_term :
  DefaultFieldWeights !! FieldBody = Some 1
  ∧ 1 < 2
  ∧ Tokenize (tokenizer (withWeights [] DefaultFieldWeights halfDocuments))
             "waltzing" = ["waltzing"]
  ∧ rawTF (withWeights [] DefaultFieldWeights halfDocuments)
          FieldBody 0 "waltzing" = 1%nat
  ∧ Score (withWeights [] DefaultFieldWeights halfDocuments) "waltzing" 0 = 0
  ∧ Score (withWeights [] (<[FieldBody := 2]> DefaultFieldWeights)
                       halfDocuments) "waltzing" 0 = 0.
Proof.
  split; [reflexivity|]. split; [lra|].
  split; [vm_compute; reflexivity|]. split; [vm_compute; reflexivity|].
  assert (Hscore : ∀ ws,
    Tokenize (tokenizer (withWeights [] ws halfDocuments)) "waltzing"
    = ["waltzing"] →
    docFreq (withWeights [] ws halfDocuments) "waltzing" = 1%nat →
    Score (withWeights [] ws halfDocuments) "waltzing" 0 = 0).
  { intros ws Hq Hdf. unfold Score. rewrite Hq.
    rewrite scoreWithTokens_valid.
    - cbn [map sumR]. rewrite termScore_common_term; [lra|].
      rewrite Hdf. unfold withWeights. rewrite buildCorpus_length. simpl. lia.
    - unfold validIndex, withWeights. rewrite buildCorpus_length. simpl. lia. }
  split; apply Hscore; vm_compute; reflexivity.
Qed.

(** ** The markdown field parser *)

Lemma collectFields_keeps_keys content err fields fieldTexts fld :
  is_Some (fields !! fld) →
  is_Some (collectFields content err fields fieldTexts !! fld).
Proof.
  intros Hfld. destruct err as [e|]; simpl.
  - destruct (decide (fld = FieldBody)) as [->|Hne].
    + rewrite lookup_insert_eq. eauto.
    + by rewrite lookup_insert_ne.
  - apply (map_fold_weak_ind (λ r _, is_Some (r !! fld))); [done|].
    intros f texts m r _ Hr.
    destruct (0 <? length texts)%nat; [|done].
    destruct (decide (fld = f)) as [->|Hne].
    + rewrite lookup_insert_eq. eauto.
    + by rewrite lookup_insert_ne.
Qed.

Lemma ParseDocument_collects p content :
  ∃ err fieldTexts,
    ParseDocument p content
    = collectFields content err emptyFields fieldTexts.
Proof.
  unfold ParseDocument.
  destruct (Walk fieldWalker (parser p content) _) as [err fieldTexts].
  by exists err, fieldTexts.
Qed.

Lemma emptyFields_lookup fld :
  fld ∈ dom DefaultFieldWeights → emptyFields !! fld = Some "".
Proof.
  intros [w Hw]%elem_of_dom. unfold emptyFields. by rewrite lookup_fmap, Hw.
Qed.

(** The walker of [ParseDocument] returns [nil] for the error and never
    [WalkStop]: the walk always runs to its end. *)
Lemma fieldWalker_continues ancestors hasNext n entering fieldTexts :
  ∃ status fieldTexts',
    fieldWalker ancestors hasNext n entering fieldTexts
    = (status, None, fieldTexts')
    ∧ isWalkStop status = false.
Proof.
  unfold fieldWalker. destruct entering; simpl; [|by eauto].
  destruct (nodeKind n); eauto.
Qed.

Lemma walkHelper_fieldWalker n :
  ∀ ancestors hasNext fieldTexts,
    ∃ fieldTexts',
      walkHelper fieldWalker ancestors hasNext n fieldTexts
      = (WalkContinue, None, fieldTexts').
Proof.
  induction n as [k cs IH] using Node_children_ind.
  intros ancestors hasNext fieldTexts. cbn [walkHelper].
  destruct (fieldWalker_continues ancestors hasNext (mkNode k cs) true
              fieldTexts) as (status & texts1 & -> & Hstop).
  rewrite Hstop. cbn [isErr orb].
  assert (Hloop : ∀ st, ∃ st',
    (fix walkChildren (cs : list Node) (st : gmap Field (list string))
       : bool * error * gmap Field (list string) :=
       match cs with
       | [] => (false, None, st)
       | child :: rest =>
           let '(status, err, st) :=
             walkHelper fieldWalker (k :: ancestors)
                        (match rest with [] => false | _ => true end)
                        child st in
           if isErr err || isWalkStop status then (true, err, st)
           else walkChildren rest st
       end) cs st = (false, None, st')).
  { induction IH as [|child rest Hchild _ IHrest]; intros st; [by eauto|].
    destruct (Hchild (k :: ancestors)
                (match rest with [] => false | _ => true end) st)
      as (st1 & ->).
    cbn [isErr isWalkStop orb]. apply IHrest. }
  assert (Hmid : ∃ st',
    (if isWalkSkipChildren status then (false, None, texts1)
     else (fix walkChildren (cs : list Node) (st : gmap Field (list string))
             : bool * error * gmap Field (list string) :=
             match cs with
             | [] => (false, None, st)
             | child :: rest =>
                 let '(status, err, st) :=
                   walkHelper fieldWalker (k :: ancestors)
                              (match rest with [] => false | _ => true end)
                              child st in
                 if isErr err || isWalkStop status then (true, err, st)
                 else walkChildren rest st
             end) cs texts1) = (false, None, st')).
  { destruct (isWalkSkipChildren status); [by eauto|apply Hloop]. }
  destruct Hmid as (st2 & ->).
  destruct (fieldWalker_continues ancestors hasNext (mkNode k cs) false st2)
    as (status' & st3 & -> & Hstop').
  rewrite Hstop'. cbn [isErr orb]. by eauto.
Qed.

Lemma ParseDocument_joins p content :
  ∃ fieldTexts,
    ParseDocument p content
    = collectFields content None emptyFields fieldTexts.
Proof.
  unfold ParseDocument, Walk.
  destruct (walkHelper_fieldWalker (parser p content) [] false
              emptyFieldTexts)
    as (fieldTexts & ->).
  by exists fieldTexts.
Qed.

(** C9: whatever the input and the tree parsed from it, the map that
    [ParseDocument] returns has every field of [DefaultFieldWeights],
    the ten fields of the package, as a key; [ParseDocument] is a total
    function, as its source has no statement that can panic; and from
    an error of the walk on, the result is the initial map (every field
    empty) with the raw input as the body. *)
Theorem ParseDocument_has_every_field :
  (∀ p content fld,
     fld ∈ dom DefaultFieldWeights →
     is_Some (ParseDocument p content !! fld))
  ∧ (∀ content e fieldTexts fld,
       fld ∈ dom DefaultFieldWeights →
       collectFields content (Some e) emptyFields fieldTexts !! fld
       = Some (if decide (fld = FieldBody) then content else ""))
  ∧ Forall (λ fld, fld ∈ dom DefaultFieldWeights)
           [ FieldH1; FieldH2; FieldH3; FieldH4; FieldH5; FieldH6;
             FieldBold; FieldItalic; FieldCode; FieldBody ].
Proof.
  split; [|split].
  - intros p content fld Hfld.
    destruct (ParseDocument_collects p content) as (err & texts & ->).
    apply collectFields_keeps_keys. rewrite emptyFields_lookup; eauto.
  - intros content e fieldTexts fld Hfld. simpl.
    destruct (decide (fld = FieldBody)) as [->|Hne].
    + by rewrite lookup_insert_eq.
    + rewrite lookup_insert_ne by done. by apply emptyFields_lookup.
  - repeat constructor; apply elem_of_dom; eexists; reflexivity.
Qed.

(** ** The scoring scenarios of the tests *)

(** "waltzing" scores the first line of the poem and no other. *)
Lemma poemCorpus_scenario :
  0 < Score poemCorpus "waltzing" 0
  ∧ Score poemCorpus "waltzing" 1 = 0
  ∧ Score poemCorpus "waltzing" 2 = 0.
Proof.
  assert (Hq : Tokenize (tokenizer poemCorpus) "waltzing" = ["waltzing"])
    by (vm_compute; reflexivity).
  assert (Hv : ∀ i, (i < 3)%nat → validIndex poemCorpus (Z.of_nat i)).
  { intros i Hi. unfold validIndex. rewrite poemCorpus_length. lia. }
  assert (Hzero : ∀ i, (i < 3)%nat →
            termFound poemCorpus "waltzing" i = false →
            Score poemCorpus "waltzing" (Z.of_nat i) = 0).
  { intros i Hi Hnf. unfold Score.
    rewrite Hq, scoreWithTokens_valid, Nat2Z.id by auto. cbn [map sumR].
    rewrite termScore_unweighted; [lra|].
    rewrite weightedTF_not_found by done. lra. }
  split; [|split].
  - unfold Score. rewrite Hq, scoreWithTokens_valid by apply poemCorpus_valid_0.
    cbn [map sumR]. pose proof poemCorpus_termScore_pos.
    change (Z.to_nat 0) with 0%nat. lra.
  - apply (Hzero 1%nat); [lia|]. vm_compute. reflexivity.
  - apply (Hzero 2%nat); [lia|]. vm_compute. reflexivity.
Qed.

Lemma ln_11_3_bounds : 1 < ln (11 / 3) < 5 / 3.
Proof.
  split.
  - rewrite <- (ln_exp 1). apply ln_increasing; [apply exp_pos|].
    pose proof exp_le_3. lra.
  - rewrite <- (ln_exp (5 / 3)). apply ln_increasing; [lra|].
    assert (H12 : 17 / 12 < exp (5 / 12)).
    { assert (Hne : 5 / 12 <> 0) by lra.
      pose proof (exp_ineq1 (5 / 12) Hne). lra. }
    replace (5 / 3) with (5 / 12 + 5 / 12 + (5 / 12 + 5 / 12)) by lra.
    rewrite !exp_plus.
    assert (Hsq : 289 / 144 < exp (5 / 12) * exp (5 / 12)) by nra.
    nra.
Qed.

(** The multi-term query of the corpus scoring test scores document 2
    three times [ln (11 / 3)], about 3.9: between 3 and 5 as the test
    requires. *)
Lemma scoreTestCorpus_multi_term :
  Score scoreTestCorpus "think made head" 2 = 3 * ln (11 / 3)
  ∧ 3 < Score scoreTestCorpus "think made head" 2 < 5.
Proof.
  assert (Hscore : Score scoreTestCorpus "think made head" 2 = 3 * ln (11 / 3)).
  { unfold Score.
    replace (Tokenize (tokenizer scoreTestCorpus) "think made head")
      with ["think"; "made"; "head"] by (vm_compute; reflexivity).
    assert (Hlen : length (documents scoreTestCorpus) = 6%nat)
      by (vm_compute; reflexivity).
    rewrite scoreWithTokens_valid
      by (unfold validIndex; rewrite Hlen; lia).
    change (Z.to_nat 2) with 2%nat. cbn [map sumR].
    assert (Hterm : ∀ term,
              docFreq scoreTestCorpus term = 1%nat →
              nonzeroTFs scoreTestCorpus term 2 = [(FieldBody, 1%nat)] →
              termScore scoreTestCorpus 2 term = ln (11 / 3)).
    { intros term Hdf Hnz.
      assert (Hw : weightedTF scoreTestCorpus term 2 = 1).
      { rewrite weightedTF_nonzeroTFs, Hnz. unfold scoreTestCorpus.
        rewrite buildCorpus_fieldWeights. simpl.
        rewrite DefaultFieldWeights_body. simpl. lra. }
      rewrite termScore_weighted; rewrite ?Hdf, ?Hw; [|done|lra].
      rewrite Hlen. unfold clampedIDF, combinedK1.
      assert ((INR 6 - INR 1 + 0.5) / (INR 1 + 0.5) = 11 / 3) as ->.
      { replace (INR 6) with 6 by (simpl; lra).
        replace (INR 1) with 1 by reflexivity.
        replace 0.5 with (1 / 2) by lra. field. }
      pose proof ln_11_3_bounds.
      destruct (Rlt_dec _ _); [lra|].
      replace 1.2 with (6 / 5) by lra. field. }
    rewrite !Hterm by (vm_compute; reflexivity). lra. }
  rewrite Hscore. pose proof ln_11_3_bounds. split; [done|lra].
Qed.

(** * Further properties of the package *)

(** ** The default tokenizer *)

Lemma keptTokens_app l1 l2 : keptTokens (l1 ++ l2) = keptTokens l1 ++ keptTokens l2.
Proof. unfold keptTokens. by rewrite map_app, List.filter_app. Qed.

Lemma keptTokens_cons t l : keptTokens (t :: l) = keptTokens [t] ++ keptTokens l.
Proof. apply (keptTokens_app [t]). Qed.

Lemma foldl_keptTokens pieces acc :
  foldl (λ filtered token,
           let token := TrimSpace token in
           if (3 <=? String.length token)%nat then filtered ++ [token]
           else filtered) acc pieces
  = acc ++ keptTokens pieces.
Proof.
  revert acc. induction pieces as [|t pieces IH]; intros acc.
  - by rewrite app_nil_r.
  - cbn [foldl]. rewrite IH. unfold keptTokens. cbn [map List.filter].
    destruct (3 <=? String.length (TrimSpace t))%nat; [|done].
    by rewrite <- app_assoc.
Qed.

Lemma defaultTokenize_kept text :
  defaultTokenize text = keptTokens (regexSplit (ToLower text) "" false).
Proof.
  destruct text as [|c text]; [done|].
  unfold defaultTokenize. by rewrite foldl_keptTokens.
Qed.

Lemma lowerChar_idem c : lowerChar (lowerChar c) = lowerChar c.
Proof. destruct c as [[] [] [] [] [] [] [] []]; reflexivity. Qed.

Lemma lowerChar_token c :
  isTokenChar (lowerChar c) = true → isLowerTokenChar (lowerChar c) = true.
Proof. destruct c as [[] [] [] [] [] [] [] []]; (reflexivity || done). Qed.

Lemma lowerChar_separator c :
  isTokenChar c = false → lowerChar c = c ∧ isTokenChar (lowerChar c) = false.
Proof. destruct c as [[] [] [] [] [] [] [] []]; (done || by split). Qed.

Lemma ToLower_idem s : ToLower (ToLower s) = ToLower s.
Proof. induction s as [|c s IH]; simpl; [done|]. by rewrite lowerChar_idem, IH. Qed.

Lemma ToLower_app s1 s2 : ToLower (s1 +:+ s2) = ToLower s1 +:+ ToLower s2.
Proof. induction s1 as [|c s1 IH]; simpl; [done|]. by rewrite IH. Qed.

Lemma allChars_app p s1 s2 :
  allChars p (s1 +:+ s2) = allChars p s1 && allChars p s2.
Proof.
  induction s1 as [|c s1 IH]; simpl; [done|]. by rewrite IH, andb_assoc.
Qed.

Lemma trimLeft_allChars p s : allChars p s = true → allChars p (trimLeft s) = true.
Proof.
  induction s as [|c s IH]; simpl; [done|].
  intros [Hc Hs]%andb_true_iff. destruct (isSpace c); [by apply IH|].
  simpl. by rewrite Hc, Hs.
Qed.

Lemma trimRight_allChars p s : allChars p s = true → allChars p (trimRight s) = true.
Proof.
  induction s as [|c s IH]; simpl; [done|].
  intros [Hc Hs]%andb_true_iff. specialize (IH Hs).
  destruct (trimRight s) as [|c' t].
  - destruct (isSpace c); simpl; [done|by rewrite Hc].
  - cbn [allChars] in *. by rewrite Hc, IH.
Qed.

Lemma TrimSpace_allChars p s : allChars p s = true → allChars p (TrimSpace s) = true.
Proof. intros. by apply trimRight_allChars, trimLeft_allChars. Qed.

(** The pieces of a lowered text are made of lower-case token bytes. *)
Lemma regexSplit_lowered s cur inSep :
  allChars isLowerTokenChar cur = true →
  Forall (λ piece, allChars isLowerTokenChar piece = true)
         (regexSplit (ToLower s) cur inSep).
Proof.
  revert cur inSep. induction s as [|c s IH]; intros cur inSep Hcur; simpl.
  - by constructor.
  - destruct (isTokenChar (lowerChar c)) eqn:Htok.
    + apply IH. rewrite allChars_app, Hcur. simpl.
      by rewrite lowerChar_token.
    + destruct inSep; [by apply IH|].
      constructor; [done|]. by apply IH.
Qed.

Lemma keptTokens_Forall (P : string → Prop) pieces :
  Forall (λ piece, P (TrimSpace piece)) pieces →
  Forall (λ token, (3 <= String.length token)%nat ∧ P token)
         (keptTokens pieces).
Proof.
  induction 1 as [|t pieces Ht _ IH]; [constructor|].
  unfold keptTokens. cbn [map List.filter].
  destruct (Nat.leb_spec 3 (String.length (TrimSpace t))); [|done].
  by constructor.
Qed.

(** X1: every token the default tokenizer returns has at least three
    bytes, all of them lower-case letters, digits, underscores or
    hyphens: no upper-case letter, white space or punctuation survives. *)
Theorem Tokenize_tokens_are_normalized text :
  Forall (λ token,
            (3 <= String.length token)%nat
            ∧ allChars isLowerTokenChar token = true)
         (Tokenize DefaultTokenizer text).
Proof.
  cbn [Tokenize DefaultTokenizer]. rewrite defaultTokenize_kept.
  apply keptTokens_Forall.
  eapply Forall_impl; [by apply regexSplit_lowered|].
  intros piece. apply TrimSpace_allChars.
Qed.

(** X2: the default tokenizer ignores the case of ASCII letters: a text
    and its lower-case form have the same tokens. *)
Theorem Tokenize_ignores_case text :
  Tokenize DefaultTokenizer (ToLower text) = Tokenize DefaultTokenizer text.
Proof.
  cbn [Tokenize DefaultTokenizer].
  by rewrite !defaultTokenize_kept, ToLower_idem.
Qed.

Lemma keptTokens_leading_separator s :
  keptTokens (regexSplit s "" true) = keptTokens (regexSplit s "" false).
Proof.
  destruct s as [|c s]; [done|]. simpl.
  destruct (isTokenChar c); [done|].
  by rewrite keptTokens_cons.
Qed.

Lemma regexSplit_separated sep s1 s2 cur inSep :
  isTokenChar sep = false → (inSep = true → cur = "") →
  keptTokens (regexSplit (s1 +:+ String sep s2) cur inSep)
  = keptTokens (regexSplit s1 cur inSep)
    ++ keptTokens (regexSplit s2 "" false).
Proof.
  intros Hsep. revert cur inSep.
  induction s1 as [|c s1 IH]; intros cur inSep Hinv; simpl.
  - rewrite Hsep. destruct inSep.
    + rewrite Hinv by done. by rewrite keptTokens_leading_separator.
    + by rewrite keptTokens_cons, keptTokens_leading_separator.
  - destruct (isTokenChar c).
    + by apply IH.
    + destruct inSep; [by apply IH|].
      rewrite keptTokens_cons, (keptTokens_cons cur (regexSplit s1 _ _)).
      rewrite <- app_assoc. f_equal. by apply IH.
Qed.

(** X3: ASCII texts joined by an ASCII separator byte tokenize to the
    tokens of the first followed by the tokens of the second; in
    particular ASCII fields that [ParseDocument] joins with single spaces
    are tokenized text by text.  (Bytes outside ASCII are left out: a
    separator byte of the range 128..255 between two texts can complete
    a UTF-8 sequence that [strings.ToLower] turns into a letter.) *)
Theorem Tokenize_of_separated_texts sep text1 text2 :
  allChars isASCII text1 = true →
  isASCII sep = true →
  allChars isASCII text2 = true →
  isTokenChar sep = false →
  Tokenize DefaultTokenizer (text1 +:+ String sep text2)
  = Tokenize DefaultTokenizer text1 ++ Tokenize DefaultTokenizer text2.
Proof.
  intros _ _ _ Hsep. cbn [Tokenize DefaultTokenizer].
  rewrite !defaultTokenize_kept, ToLower_app. simpl.
  destruct (lowerChar_separator sep Hsep) as [-> _].
  by apply regexSplit_separated.
Qed.

Lemma Tokenize_of_separated_texts_witness :
  allChars isASCII "Main Title" = true
  ∧ isASCII " " = true
  ∧ allChars isASCII "Sifting Flour" = true
  ∧ isTokenChar " " = false
  ∧ Tokenize DefaultTokenizer ("Main Title" +:+ String " " "Sifting Flour")
    = Tokenize DefaultTokenizer "Main Title"
      ++ Tokenize DefaultTokenizer "Sifting Flour".
Proof.
  do 4 (split; [reflexivity|]).
  apply (Tokenize_of_separated_texts " " "Main Title" "Sifting Flour");
    reflexivity.
Defined.

(** ** The tables of a field index *)

Local Open Scope nat_scope.

Lemma incr_lookup k m t :
  default 0 (incr k m !! t)
  = default 0 (m !! t) + (if decide (k = t) then 1 else 0).
Proof.
  unfold incr. destruct (decide (k = t)) as [->|Hne].
  - rewrite lookup_insert_eq. simpl. lia.
  - rewrite lookup_insert_ne by done. lia.
Qed.

Lemma countTerms_from m tokens t :
  default 0 (foldl (λ tf token, incr token tf) m tokens !! t)
  = default 0 (m !! t) + count_occ string_dec tokens t.
Proof.
  revert m. induction tokens as [|a tokens IH]; intros m; simpl; [lia|].
  rewrite IH, incr_lookup.
  destruct (decide (a = t)), (string_dec a t); try done; lia.
Qed.

Lemma countTerms_lookup tokens t :
  default 0 (countTerms tokens !! t) = count_occ string_dec tokens t.
Proof. unfold countTerms. by rewrite countTerms_from, lookup_empty. Qed.

Lemma tfAt_addDocument_old f tokens i t :
  i < length (termFrequencies f) →
  tfAt (addDocument f tokens) i t = tfAt f i t.
Proof.
  intros Hi. unfold tfAt, addDocument. cbn [termFrequencies].
  by rewrite lookup_app_l.
Qed.

Lemma tfAt_addDocument_new f tokens t :
  tfAt (addDocument f tokens) (length (termFrequencies f)) t
  = count_occ string_dec tokens t.
Proof.
  unfold tfAt, addDocument. cbn [termFrequencies].
  rewrite lookup_app_r, Nat.sub_diag by lia. simpl.
  apply countTerms_lookup.
Qed.

(** X4: [addDocument] appends; the entries of the earlier documents stay
    as they are, and the new document's table holds, for every term, the
    number of its occurrences among the tokens (0 for a term that does
    not occur), its recorded length being the number of tokens. *)
Theorem addDocument_records_occurrences f tokens term :
  tfAt (addDocument f tokens) (length (termFrequencies f)) term
  = count_occ string_dec tokens term
  ∧ docLengths (addDocument f tokens) = docLengths f ++ [length tokens]
  ∧ totalDocs (addDocument f tokens) = S (totalDocs f)
  ∧ ∀ i, i < length (termFrequencies f) →
         tfAt (addDocument f tokens) i term = tfAt f i term.
Proof.
  split; [apply tfAt_addDocument_new|].
  split; [done|]. split; [done|].
  intros i Hi. by apply tfAt_addDocument_old.
Qed.

Lemma bumpDocFrequencies_from tokens df seen t :
  default 0
    (fst (foldl (λ (st : gmap string nat * gset string) token,
                   let '(df, seen) := st in
                   if decide (token ∈ seen) then st
                   else (incr token df, {[token]} ∪ seen))
                (df, seen) tokens) !! t)
  = default 0 (df !! t)
    + (if decide (t ∈ seen) then 0
       else if decide (t ∈ tokens) then 1 else 0).
Proof.
  revert df seen. induction tokens as [|a tokens IH]; intros df seen.
  - simpl. destruct (decide (t ∈ seen)); [lia|].
    destruct (decide (t ∈ [])) as [[]%elem_of_nil|]; lia.
  - cbn [foldl]. destruct (decide (a ∈ seen)) as [Ha|Ha].
    + rewrite IH. destruct (decide (t ∈ seen)) as [|Ht]; [done|].
      destruct (decide (t ∈ tokens)) as [Hin|Hin];
        destruct (decide (t ∈ a :: tokens)) as [Hin'|Hin']; try done.
      * destruct Hin'. apply elem_of_cons. by right.
      * apply elem_of_cons in Hin' as [->|]; done.
    + rewrite IH, incr_lookup.
      destruct (decide (a = t)) as [->|Hne].
      * destruct (decide (t ∈ {[t]} ∪ seen)) as [_|Hn];
          [|destruct Hn; apply elem_of_union; left; by apply elem_of_singleton].
        destruct (decide (t ∈ seen)); [done|].
        destruct (decide (t ∈ t :: tokens)) as [|Hn]; [lia|].
        destruct Hn. apply elem_of_cons. by left.
      * destruct (decide (t ∈ seen)) as [Ht|Ht].
        -- destruct (decide (t ∈ {[a]} ∪ seen)) as [|Hn]; [lia|].
           destruct Hn. apply elem_of_union. by right.
        -- destruct (decide (t ∈ {[a]} ∪ seen)) as [Hu|_].
           { apply elem_of_union in Hu as [Hu%elem_of_singleton|Hu]; done. }
           destruct (decide (t ∈ tokens)) as [Hin|Hin];
             destruct (decide (t ∈ a :: tokens)) as [Hin'|Hin']; try lia.
           ++ destruct Hin'. apply elem_of_cons. by right.
           ++ apply elem_of_cons in Hin' as [?|?]; done.
Qed.

Lemma docFrequencies_addDocument f tokens t :
  default 0 (docFrequencies (addDocument f tokens) !! t)
  = default 0 (docFrequencies f !! t)
    + (if decide (t ∈ tokens) then 1 else 0).
Proof.
  unfold addDocument, bumpDocFrequencies. cbn [docFrequencies].
  rewrite bumpDocFrequencies_from.
  destruct (decide (t ∈ (∅ : gset string))) as [Hin|_]; [|done].
  by apply elem_of_empty in Hin.
Qed.

Lemma docsWith_snoc tfs tf t :
  docsWith (tfs ++ [tf]) t
  = docsWith tfs t + (if 0 <? default 0 (tf !! t) then 1 else 0).
Proof.
  unfold docsWith. rewrite List.filter_app, length_app. simpl.
  by destruct (0 <? default 0 (tf !! t)).
Qed.

Lemma docsWith_le tfs t : docsWith tfs t <= length tfs.
Proof. apply List.filter_length_le. Qed.

Lemma sumCounts_incr k m : sumCounts (incr k m) = S (sumCounts m).
Proof.
  unfold sumCounts, incr.
  assert (Hcomm : ∀ (m' : gmap string nat) (j1 j2 : string) (z1 z2 y : nat),
            j1 ≠ j2 → m' !! j1 = Some z1 → m' !! j2 = Some z2 →
            z1 + (z2 + y) = z2 + (z1 + y)) by (intros; lia).
  destruct (m !! k) as [v|] eqn:Hk; simpl.
  - rewrite <- (insert_delete_eq m k (S v)).
    rewrite map_fold_insert_L; [|by apply Hcomm|apply lookup_delete_eq].
    rewrite <- (insert_delete_id m k v) at 2 by done.
    rewrite (map_fold_insert_L _ _ k v);
      [lia|by apply Hcomm|apply lookup_delete_eq].
  - rewrite map_fold_insert_L; [done|by apply Hcomm|done].
Qed.

Lemma sumCounts_countTerms tokens : sumCounts (countTerms tokens) = length tokens.
Proof.
  unfold countTerms.
  assert (Hgen : ∀ m, sumCounts (foldl (λ tf token, incr token tf) m tokens)
                      = sumCounts m + length tokens).
  { induction tokens as [|a tokens IH]; intros m; simpl; [lia|].
    rewrite IH, sumCounts_incr. lia. }
  rewrite Hgen. unfold sumCounts. by rewrite map_fold_empty.
Qed.

Lemma newFieldBM25_tablesInv fld w p : tablesInv (newFieldBM25 fld w p).
Proof. split; [done|constructor]. Qed.

Lemma addDocument_tablesInv s tokens :
  tablesInv s → tablesInv (addDocument s tokens).
Proof.
  intros [Hdf Hlen]. split.
  - intros t. rewrite docFrequencies_addDocument, Hdf.
    unfold addDocument. cbn [termFrequencies].
    rewrite docsWith_snoc, countTerms_lookup. f_equal.
    destruct (decide (t ∈ tokens)) as [Hin|Hin]; rewrite list_elem_of_In in Hin.
    + apply (count_occ_In string_dec) in Hin.
      destruct (Nat.ltb_spec 0 (count_occ string_dec tokens t)); [done|lia].
    + apply (count_occ_not_In string_dec) in Hin. by rewrite Hin.
  - unfold addDocument. cbn [termFrequencies docLengths].
    apply Forall2_app; [done|]. constructor; [|constructor].
    apply sumCounts_countTerms.
Qed.

Lemma indexField_tablesInv tok fld s docs :
  tablesInv s → tablesInv (indexField tok fld s docs).
Proof.
  intros Hs. induction docs as [|doc docs IH] using rev_ind; [done|].
  rewrite indexField_snoc. by apply addDocument_tablesInv.
Qed.

Lemma buildCorpus_tablesInv opts docs fld s :
  fieldScorers (buildCorpus opts docs) !! fld = Some s → tablesInv s ∧ scorerInv s.
Proof.
  rewrite buildCorpus_scorers, NewCorpus_scorers.
  destruct (fieldWeights (NewCorpus opts) !! fld) as [w|]; [|done].
  simpl. intros [= <-]. split.
  - apply indexField_tablesInv, newFieldBM25_tablesInv.
  - apply indexField_inv, newFieldBM25_inv.
Qed.

Lemma buildCorpus_scorer_lengths opts docs fld s :
  fieldScorers (buildCorpus opts docs) !! fld = Some s →
  length (termFrequencies s) = length docs
  ∧ length (docLengths s) = length docs
  ∧ totalDocs s = length docs.
Proof.
  rewrite buildCorpus_scorers, NewCorpus_scorers.
  destruct (fieldWeights (NewCorpus opts) !! fld) as [w|]; [|done].
  simpl. intros [= <-].
  match goal with
  | |- context [indexField ?tok fld ?s0 docs] =>
      pose proof (indexField_inv tok fld s0 docs (newFieldBM25_inv _ _ _))
        as (Htf & Hlen & _);
      pose proof (indexField_totalDocs tok fld s0 docs) as Htot
  end.
  simpl in Htot. by rewrite Htf, Hlen, Htot.
Qed.

Lemma poemCorpus_body_scorer :
  ∃ s, fieldScorers poemCorpus !! FieldBody = Some s.
Proof.
  apply elem_of_dom. unfold poemCorpus.
  rewrite <- buildCorpus_dom, buildCorpus_fieldWeights.
  apply elem_of_dom. eexists. reflexivity.
Qed.

(** X5: in every scorer of a built corpus the document frequency of a
    term is the number of documents whose table of the field has the
    term, every document counted once however often the term occurs in
    it; so it never exceeds the scorer's document count. *)
Theorem docFrequencies_count_documents opts docs fld s term :
  fieldScorers (buildCorpus opts docs) !! fld = Some s →
  default 0 (docFrequencies s !! term) = docsWith (termFrequencies s) term
  ∧ default 0 (docFrequencies s !! term) <= totalDocs s.
Proof.
  intros Hs. destruct (buildCorpus_tablesInv _ _ _ _ Hs) as [[Hdf _] [Htf _]].
  split; [apply Hdf|]. rewrite Hdf, <- Htf. apply docsWith_le.
Qed.

Lemma docFrequencies_count_documents_witness :
  ∃ s, fieldScorers poemCorpus !! FieldBody = Some s
       ∧ default 0 (docFrequencies s !! "waltzing")
         = docsWith (termFrequencies s) "waltzing"
       ∧ default 0 (docFrequencies s !! "waltzing") <= totalDocs s.
Proof.
  destruct poemCorpus_body_scorer as [s Hs]. exists s. split; [done|].
  apply (docFrequencies_count_documents [] poemDocuments FieldBody s "waltzing").
  exact Hs.
Defined.

(** X6: in every scorer of a built corpus the counts of a document's
    table add up to the document's recorded length. *)
Theorem docLengths_sum_the_counts opts docs fld s i tf n :
  fieldScorers (buildCorpus opts docs) !! fld = Some s →
  termFrequencies s !! i = Some tf → docLengths s !! i = Some n →
  sumCounts tf = n.
Proof.
  intros Hs Htf Hn. destruct (buildCorpus_tablesInv _ _ _ _ Hs) as [[_ Hlen] _].
  by apply (Forall2_lookup_lr _ _ _ i tf n Hlen).
Qed.

Lemma docLengths_sum_the_counts_witness :
  ∃ s tf n,
    fieldScorers poemCorpus !! FieldBody = Some s
    ∧ termFrequencies s !! 0 = Some tf ∧ docLengths s !! 0 = Some n
    ∧ sumCounts tf = n.
Proof.
  destruct poemCorpus_body_scorer as [s Hs].
  destruct (buildCorpus_scorer_lengths _ _ _ _ Hs) as (Htf & Hlen & _).
  simpl in Htf, Hlen.
  destruct (lookup_lt_is_Some_2 (termFrequencies s) 0) as [tf Htf0]; [lia|].
  destruct (lookup_lt_is_Some_2 (docLengths s) 0) as [n Hn0]; [lia|].
  exists s, tf, n. split; [done|]. split; [done|]. split; [done|].
  exact (docLengths_sum_the_counts [] poemDocuments FieldBody s 0 tf n
           Hs Htf0 Hn0).
Defined.

Local Open Scope R_scope.

(** ** The isolated per-field score *)

Lemma fieldScore_in_range f terms docIndex :
  (0 <= docIndex < Z.of_nat (length (termFrequencies f)))%Z →
  fieldScore f terms docIndex
  = foldl (fieldScoreStep f (Z.to_nat docIndex)) 0 terms * weight f.
Proof.
  intros Hi. unfold fieldScore.
  destruct (Z.ltb_spec docIndex 0); [lia|].
  destruct (Z.leb_spec (Z.of_nat (length (termFrequencies f))) docIndex);
    [lia|done].
Qed.

Lemma feedTokens_withScorerWeight w s docs :
  feedTokens (withScorerWeight w s) docs
  = withScorerWeight w (feedTokens s docs).
Proof.
  revert s. induction docs as [|tokens docs IH]; intros s; [done|].
  unfold feedTokens in *. cbn [foldl]. by rewrite <- IH.
Qed.

Lemma feedTokens_weight s docs : weight (feedTokens s docs) = weight s.
Proof.
  revert s. induction docs as [|tokens docs IH]; intros s; [done|].
  unfold feedTokens in *. cbn [foldl]. by rewrite IH.
Qed.

Lemma fieldScore_withScorerWeight w s terms docIndex :
  fieldScore (withScorerWeight w s) terms docIndex * weight s
  = w * fieldScore s terms docIndex.
Proof.
  destruct (decide (0 <= docIndex
                    < Z.of_nat (length (termFrequencies s)))%Z) as [Hi|Hi].
  - rewrite (fieldScore_in_range s), (fieldScore_in_range (withScorerWeight w s))
      by done.
    change (fieldScoreStep (withScorerWeight w s)) with (fieldScoreStep s).
    cbn [weight withScorerWeight]. lra.
  - rewrite (fieldScore_out_of_range s), (fieldScore_out_of_range (withScorerWeight w s));
      [lra|cbn [termFrequencies withScorerWeight]; lia|lia].
Qed.

(** X7: the field weight multiplies the per-field score: an index built
    with weight [w] scores [w] times what the index built from the same
    token lists with weight 1 scores. *)
Theorem fieldScore_scales_with_weight fld w p docs terms docIndex :
  fieldScore (feedTokens (newFieldBM25 fld w p) docs) terms docIndex
  = w * fieldScore (feedTokens (newFieldBM25 fld 1 p) docs) terms docIndex.
Proof.
  change (newFieldBM25 fld w p)
    with (withScorerWeight w (newFieldBM25 fld 1 p)).
  rewrite feedTokens_withScorerWeight, <- fieldScore_withScorerWeight.
  rewrite feedTokens_weight. cbn [weight newFieldBM25]. lra.
Qed.

Lemma fieldScoreStep_absent f i score term :
  tfAt f i term = 0%nat → fieldScoreStep f i score term = score.
Proof.
  intros Htf. unfold fieldScoreStep, tfAt in *.
  destruct (termFrequencies f !! i) as [tf|]; simpl.
  - rewrite Htf. simpl. destruct (Req_dec_T 0 0); [done|lra].
  - rewrite lookup_empty. simpl. destruct (Req_dec_T 0 0); [done|lra].
Qed.

(** X8: [fieldBM25.score] is 0 for an index outside the field's tables,
    and for a document in which none of the query terms occurs. *)
Theorem fieldScore_zero_without_match f terms docIndex :
  ((docIndex < 0 ∨ Z.of_nat (length (termFrequencies f)) <= docIndex)%Z
   ∨ ∀ term, term ∈ terms → tfAt f (Z.to_nat docIndex) term = 0%nat) →
  fieldScore f terms docIndex = 0.
Proof.
  intros [Hout|Habsent]; [by apply fieldScore_out_of_range|].
  destruct (decide (0 <= docIndex
                    < Z.of_nat (length (termFrequencies f)))%Z) as [Hi|Hi];
    [|apply fieldScore_out_of_range; lia].
  rewrite fieldScore_in_range by done.
  assert (foldl (fieldScoreStep f (Z.to_nat docIndex)) 0 terms = 0) as ->;
    [|lra].
  induction terms as [|t terms IH]; [done|].
  cbn [foldl]. rewrite fieldScoreStep_absent.
  - apply IH. intros term Hin. apply Habsent, elem_of_cons. by right.
  - apply Habsent, elem_of_cons. by left.
Qed.

Lemma fieldScore_zero_without_match_witness :
  fieldScore (feedTokens (newFieldBM25 FieldBody 2 DefaultBM25Parameters)
                [defaultTokenize "The stars go waltzing out in blue and red";
                 defaultTokenize "I dreamed that you bewitched me into bed"])
             ["waltzing"] 1 = 0
  ∧ fieldScore (feedTokens (newFieldBM25 FieldBody 2 DefaultBM25Parameters)
                  [defaultTokenize "The stars go waltzing out in blue and red"])
               ["waltzing"] 5 = 0.
Proof.
  split.
  - apply fieldScore_zero_without_match. right.
    intros term ->%list_elem_of_singleton. vm_compute. reflexivity.
  - apply fieldScore_zero_without_match. left. right. simpl. lia.
Defined.

Lemma fieldScoreStep_nonneg f i score term :
  0 <= K1 (params f) → 0 <= B (params f) <= 1 → 0 <= avgDocLength f →
  0 <= score → 0 <= fieldScoreStep f i score term.
Proof.
  intros Hk [Hb0 Hb1] Havg Hscore. unfold fieldScoreStep.
  set (tf := INR (default 0%nat (default ∅ (termFrequencies f !! i) !! term))).
  set (docLen := INR (default 0%nat (docLengths f !! i))).
  destruct (Req_dec_T tf 0) as [|Htf]; [done|].
  destruct (Req_dec_T _ 0); [done|].
  assert (0 < tf) by (pose proof (pos_INR
    (default 0%nat (default ∅ (termFrequencies f !! i) !! term))); fold tf in H; lra).
  assert (0 <= docLen) by apply pos_INR.
  assert (Hinv : 0 <= / avgDocLength f).
  { destruct (Req_dec (avgDocLength f) 0) as [->|Hne].
    - rewrite Rinv_0. lra.
    - left. apply Rinv_0_lt_compat. lra. }
  assert (0 <= B (params f) * docLen / avgDocLength f).
  { unfold Rdiv. apply Rmult_le_pos; [|done]. by apply Rmult_le_pos. }
  assert (0 <= K1 (params f)
               * (1 - B (params f) + B (params f) * docLen / avgDocLength f)).
  { apply Rmult_le_pos; lra. }
  pose proof (clampedIDF_nonneg (totalDocs f)
                (default 0%nat (docFrequencies f !! term))).
  assert (0 <= tf * (K1 (params f) + 1)
               / (tf + K1 (params f)
                       * (1 - B (params f)
                          + B (params f) * docLen / avgDocLength f))).
  { apply le_div; [lra|]. rewrite Rmult_0_l. apply Rmult_le_pos; lra. }
  assert (0 <= clampedIDF (totalDocs f)
                 (default 0%nat (docFrequencies f !! term))
               * (tf * (K1 (params f) + 1)
                  / (tf + K1 (params f)
                          * (1 - B (params f)
                             + B (params f) * docLen / avgDocLength f))))
    by by apply Rmult_le_pos.
  lra.
Qed.

Lemma mean_nonneg lens : 0 <= mean lens.
Proof.
  unfold mean, Rdiv. apply Rmult_le_pos; [apply pos_INR|].
  destruct (length lens) as [|n].
  - simpl. rewrite Rinv_0. lra.
  - left. apply Rinv_0_lt_compat, lt_0_INR. lia.
Qed.

(** ** The configuration of a built corpus *)

Lemma indexField_config tok fld s docs :
  field (indexField tok fld s docs) = field s
  ∧ weight (indexField tok fld s docs) = weight s
  ∧ params (indexField tok fld s docs) = params s.
Proof.
  induction docs as [|doc docs IH] using rev_ind; [done|].
  rewrite indexField_snoc. by cbn [addDocument field weight params].
Qed.

Lemma buildCorpus_params opts docs :
  fieldParams (buildCorpus opts docs) = fieldParams (NewCorpus opts)
  ∧ corpusParams (buildCorpus opts docs) = corpusParams (NewCorpus opts).
Proof.
  induction docs as [|doc docs IH] using rev_ind; [done|].
  by rewrite buildCorpus_snoc.
Qed.

Lemma buildCorpus_scorer_config opts docs fld s :
  fieldScorers (buildCorpus opts docs) !! fld = Some s →
  field s = fld
  ∧ fieldWeights (buildCorpus opts docs) !! fld = Some (weight s)
  ∧ params s = scorerParams (buildCorpus opts docs) fld.
Proof.
  rewrite buildCorpus_scorers, NewCorpus_scorers, buildCorpus_fieldWeights.
  destruct (fieldWeights (NewCorpus opts) !! fld) as [w|]; [|done].
  simpl. intros [= <-].
  match goal with
  | |- context [indexField ?tok fld ?s0 docs] =>
      destruct (indexField_config tok fld s0 docs) as (-> & -> & ->)
  end.
  repeat split.
  unfold scorerParams. destruct (buildCorpus_params opts docs) as [-> ->].
  done.
Qed.

(** X9: every scorer of a built corpus carries the configuration fixed
    at construction: its own field, the weight the weight map gives the
    field, and the parameters of the per-field override when there is
    one for the field, else the global ones; adding documents changes
    none of them. *)
Theorem scorers_keep_the_configuration opts docs fld s :
  fieldScorers (buildCorpus opts docs) !! fld = Some s →
  field s = fld
  ∧ fieldWeights (buildCorpus opts docs) !! fld = Some (weight s)
  ∧ params s
    = match fieldParams (buildCorpus opts docs) with
      | Some ps => default (corpusParams (buildCorpus opts docs)) (ps !! fld)
      | None => corpusParams (buildCorpus opts docs)
      end
  ∧ fieldWeights (buildCorpus opts docs) = fieldWeights (NewCorpus opts)
  ∧ tokenizer (buildCorpus opts docs) = tokenizer (NewCorpus opts).
Proof.
  intros Hs. destruct (buildCorpus_scorer_config _ _ _ _ Hs) as (Hf & Hw & Hp).
  split; [done|]. split; [done|]. split.
  - rewrite Hp. unfold scorerParams.
    destruct (fieldParams _) as [ps|]; [|done]. by destruct (ps !! fld).
  - split; [apply buildCorpus_fieldWeights|apply buildCorpus_tokenizer].
Qed.

Lemma scorers_keep_the_configuration_witness :
  ∃ s, fieldScorers poemCorpus !! FieldBody = Some s
       ∧ field s = FieldBody
       ∧ fieldWeights poemCorpus !! FieldBody = Some (weight s).
Proof.
  destruct poemCorpus_body_scorer as [s Hs]. exists s. split; [done|].
  destruct (scorers_keep_the_configuration [] poemDocuments FieldBody s Hs)
    as (Hf & Hw & _).
  by split.
Defined.

(** X10: the per-field score of a built corpus is never negative when
    the field's weight and k1 are not negative and b lies between 0 and
    1: the clamped idf, the frequencies, the lengths and their mean are
    all at least 0, so every quotient is. *)
Theorem fieldScore_nonneg opts docs fld s terms docIndex :
  fieldScorers (buildCorpus opts docs) !! fld = Some s →
  0 <= weight s → 0 <= K1 (params s) → 0 <= B (params s) <= 1 →
  0 <= fieldScore s terms docIndex.
Proof.
  intros Hs Hw Hk Hb.
  destruct (buildCorpus_tablesInv _ _ _ _ Hs) as [_ (_ & _ & Havg)].
  destruct (decide (0 <= docIndex
                    < Z.of_nat (length (termFrequencies s)))%Z) as [Hi|Hi].
  - rewrite fieldScore_in_range by done.
    apply Rmult_le_pos; [|done].
    assert (Hgen : ∀ acc, 0 <= acc →
              0 <= foldl (fieldScoreStep s (Z.to_nat docIndex)) acc terms).
    { induction terms as [|t terms IH]; intros acc Hacc; [done|].
      cbn [foldl]. apply IH, fieldScoreStep_nonneg; try done.
      rewrite Havg. apply mean_nonneg. }
    apply Hgen. lra.
  - rewrite fieldScore_out_of_range by lia. lra.
Qed.

Lemma fieldScore_nonneg_witness :
  ∃ s, fieldScorers poemCorpus !! FieldBody = Some s
       ∧ 0 <= fieldScore s ["waltzing"] 0.
Proof.
  destruct poemCorpus_body_scorer as [s Hs]. exists s. split; [done|].
  destruct (buildCorpus_scorer_config [] poemDocuments FieldBody s Hs)
    as (_ & Hw & Hp).
  assert (Hweight : weight s = 1).
  { unfold poemCorpus in Hw. rewrite buildCorpus_fieldWeights in Hw.
    change (fieldWeights (NewCorpus [])) with DefaultFieldWeights in Hw.
    rewrite DefaultFieldWeights_body in Hw. by injection Hw. }
  assert (Hparams : params s = DefaultBM25Parameters).
  { rewrite Hp. unfold scorerParams.
    destruct (buildCorpus_params [] poemDocuments) as [-> ->]. done. }
  apply (fieldScore_nonneg [] poemDocuments FieldBody s ["waltzing"] 0 Hs).
  - rewrite Hweight. lra.
  - rewrite Hparams. simpl. lra.
  - rewrite Hparams. simpl. lra.
Defined.

(** ** The combined score of a built corpus *)

Lemma scoreWithTokens_same_index c1 c2 terms docIndex :
  length (documents c1) = length (documents c2) →
  fieldWeights c1 = fieldWeights c2 →
  dom (fieldWeights c1) = dom (fieldScorers c1) →
  dom (fieldWeights c2) = dom (fieldScorers c2) →
  (∀ fld j term, rawTF c1 fld j term = rawTF c2 fld j term) →
  scoreWithTokens c1 terms docIndex = scoreWithTokens c2 terms docIndex.
Proof.
  intros Hlen Hw Hd1 Hd2 Hraw.
  destruct (decide (validIndex c1 docIndex)) as [Hv|Hv].
  - assert (Hv2 : validIndex c2 docIndex)
      by (unfold validIndex in *; by rewrite <- Hlen).
    rewrite !scoreWithTokens_valid by done. f_equal.
    apply List.map_ext. intros term. by apply termScore_same_index.
  - assert (Hv2 : ¬ validIndex c2 docIndex)
      by (unfold validIndex in *; by rewrite <- Hlen).
    by rewrite !scoreWithTokens_invalid.
Qed.

(** X11: the score reads nothing of a document but the text of the
    fields that have a weight, a field the document lacks being read as
    the empty text: corpora built from documents that agree there give
    every query the same score on every index, whatever the documents'
    other fields, their IDs and their original texts. *)
Theorem Score_reads_the_weighted_fields opts docs1 docs2 query docIndex :
  Forall2 (λ d1 d2, ∀ fld, is_Some (fieldWeights (NewCorpus opts) !! fld) →
             default "" (Fields d1 !! fld) = default "" (Fields d2 !! fld))
          docs1 docs2 →
  Score (buildCorpus opts docs1) query docIndex
  = Score (buildCorpus opts docs2) query docIndex.
Proof.
  intros Hdocs. unfold Score. rewrite !buildCorpus_tokenizer.
  apply scoreWithTokens_same_index.
  - rewrite !buildCorpus_length. by eapply Forall2_length.
  - by rewrite !buildCorpus_fieldWeights.
  - apply buildCorpus_dom.
  - apply buildCorpus_dom.
  - intros fld j term. rewrite !buildCorpus_rawTF.
    destruct (fieldWeights (NewCorpus opts) !! fld) as [w|] eqn:Hw; [|done].
    destruct (docs1 !! j) as [d1|] eqn:H1.
    + destruct (Forall2_lookup_l _ _ _ _ _ Hdocs H1) as (d2 & -> & Hagree).
      rewrite Hagree; [done|]. rewrite Hw. eauto.
    + apply lookup_ge_None_1 in H1.
      rewrite (Forall2_length _ _ _ Hdocs) in H1.
      by rewrite (lookup_ge_None_2 docs2 j).
Qed.

Lemma Score_reads_the_weighted_fields_witness :
  Score (buildCorpus [] [bodyDocument "hello world"]) "hello" 0
  = Score (buildCorpus []
             [mkDocument 7
                (<["footer" := "hello"]> {[ FieldBody := "hello world" ]})
                "# raw"])
          "hello" 0.
Proof.
  apply Score_reads_the_weighted_fields.
  constructor; [|constructor].
  intros fld [w Hw]. cbn [Fields bodyDocument].
  destruct (decide (fld = "footer")) as [->|Hne].
  - vm_compute in Hw. discriminate Hw.
  - by rewrite lookup_insert_ne.
Defined.

(** X14: [math.Log] never receives a number that is not positive, in the
    combined score and in the per-field score alike: a document frequency
    cannot exceed the number of documents.  (So the logarithm of [R] is
    the one the program computes, and no NaN arises.) *)
Theorem idf_logarithm_is_defined opts docs fld s term :
  fieldScorers (buildCorpus opts docs) !! fld = Some s →
  0 < (INR (length (documents (buildCorpus opts docs)))
       - INR (docFreq (buildCorpus opts docs) term) + 0.5)
      / (INR (docFreq (buildCorpus opts docs) term) + 0.5)
  ∧ 0 < (INR (totalDocs s) - INR (default 0%nat (docFrequencies s !! term))
         + 0.5)
        / (INR (default 0%nat (docFrequencies s !! term)) + 0.5).
Proof.
  intros Hs. split; [apply idf_argument_pos|].
  destruct (buildCorpus_tablesInv _ _ _ _ Hs) as [(Hdf & _) (Htf & _)].
  pose proof (docsWith_le (termFrequencies s) term) as Hle.
  rewrite <- Hdf, Htf in Hle. apply le_INR in Hle.
  pose proof (pos_INR (default 0%nat (docFrequencies s !! term))).
  apply Rdiv_lt_0_compat; lra.
Qed.

Lemma idf_logarithm_is_defined_witness :
  ∃ s, fieldScorers poemCorpus !! FieldBody = Some s
       ∧ 0 < (INR (totalDocs s)
              - INR (default 0%nat (docFrequencies s !! "waltzing")) + 0.5)
             / (INR (default 0%nat (docFrequencies s !! "waltzing")) + 0.5).
Proof.
  destruct poemCorpus_body_scorer as [s Hs]. exists s. split; [done|].
  apply (idf_logarithm_is_defined [] poemDocuments FieldBody s "waltzing" Hs).
Defined.

(** ** What [Search] returns *)

Lemma scoreDocuments_elem c terms i docs r :
  r ∈ scoreDocuments c terms i docs
  ↔ ∃ j doc,
      docs !! j = Some doc
      ∧ 0 < scoreWithTokens c terms (Z.of_nat (i + j))
      ∧ r = mkSearchResult doc
              (scoreWithTokens c terms (Z.of_nat (i + j)))
              (Z.of_nat (i + j)).
Proof.
  revert i. induction docs as [|doc docs IH]; intros i; simpl.
  - split; [by intros ?%elem_of_nil|]. by intros (j & d & ? & _).
  - rewrite elem_of_app, IH. split.
    + intros [Hhere|(j & d & Hd & Hpos & ->)].
      * destruct (Rlt_dec _ _) as [Hpos|_]; [|by apply elem_of_nil in Hhere].
        apply list_elem_of_singleton in Hhere as ->.
        exists 0%nat, doc. by rewrite Nat.add_0_r.
      * exists (S j), d.
        by replace (i + S j)%nat with (S i + j)%nat by lia.
    + intros ([|j] & d & Hd & Hpos & ->).
      * left. rewrite Nat.add_0_r in *. injection Hd as <-.
        destruct (Rlt_dec _ _); [|done]. by apply list_elem_of_singleton.
      * right. exists j, d.
        by replace (S i + j)%nat with (i + S j)%nat by lia.
Qed.

Lemma scoreDocuments_NoDup c terms i docs :
  NoDup (srIndex <$> scoreDocuments c terms i docs).
Proof.
  revert i. induction docs as [|doc docs IH]; intros i; simpl.
  - constructor.
  - rewrite fmap_app. apply NoDup_app. split; [|split; [|apply IH]].
    + destruct (Rlt_dec _ _); [apply NoDup_singleton|constructor].
    + intros z Hz Hrest.
      assert (z = Z.of_nat i) as ->.
      { destruct (Rlt_dec _ _); [|by apply elem_of_nil in Hz].
        by apply list_elem_of_singleton in Hz. }
      apply list_elem_of_fmap in Hrest as (r & Hr & Hin).
      apply scoreDocuments_elem in Hin as (j & d & _ & _ & ->).
      simpl in Hr. lia.
Qed.

Lemma scoreDocuments_length c terms i docs :
  (length (scoreDocuments c terms i docs) <= length docs)%nat.
Proof.
  revert i. induction docs as [|doc docs IH]; intros i; simpl; [done|].
  rewrite length_app. specialize (IH (S i)).
  destruct (Rlt_dec _ _); simpl; lia.
Qed.

Lemma scoreDocuments_empty_query c i docs : scoreDocuments c [] i docs = [].
Proof.
  apply scoreDocuments_none. intros j _.
  destruct (decide (validIndex c (Z.of_nat j))).
  - rewrite scoreWithTokens_valid by done. simpl. lra.
  - rewrite scoreWithTokens_invalid by done. lra.
Qed.

Lemma Score_positive_valid c query docIndex :
  0 < Score c query docIndex →
  ∃ i doc, docIndex = Z.of_nat i ∧ documents c !! i = Some doc.
Proof.
  intros Hpos. unfold Score in Hpos.
  destruct (decide (validIndex c docIndex)) as [[Hlo Hhi]|Hv].
  - destruct (lookup_lt_is_Some_2 (documents c) (Z.to_nat docIndex))
      as [doc Hdoc]; [lia|].
    exists (Z.to_nat docIndex), doc. split; [lia|done].
  - rewrite scoreWithTokens_invalid in Hpos by done. lra.
Qed.

Section SearchResults.
Variable sortSlice : list SearchResult → list SearchResult.
Variable arrival : list SearchResult → list SearchResult.
Hypothesis sortSlice_perm : ∀ l, sortSlice l ≡ₚ l.
Hypothesis sortSlice_sorted : ∀ l, sortedByScore (sortSlice l).
Hypothesis arrival_perm : ∀ l, arrival l ≡ₚ l.

(** Both strategies, and the early return for a query without terms,
    hand back the cut of a sorted arrangement of the scored documents. *)
Lemma Search_cut_of_sorted c query limit :
  ∃ sorted,
    sorted ≡ₚ scoreDocuments c (Tokenize (tokenizer c) query) 0 (documents c)
    ∧ descending sorted
    ∧ Search sortSlice arrival c query limit = applyLimit limit sorted.
Proof.
  unfold Search.
  destruct (Tokenize (tokenizer c) query) as [|t terms] eqn:Hq.
  - exists []. rewrite scoreDocuments_empty_query.
    split; [done|]. split; [constructor|].
    simpl. unfold applyLimit. destruct (_ && _); [|done]. by rewrite take_nil.
  - cbn [length Nat.eqb]. destruct (_ <? _)%nat.
    + exists (sortSlice (scoreDocuments c (t :: terms) 0 (documents c))).
      split; [apply sortSlice_perm|].
      split; [apply sortedByScore_descending, sortSlice_sorted|done].
    + exists (sortSlice
                (arrival (scoreDocuments c (t :: terms) 0 (documents c)))).
      split; [by rewrite sortSlice_perm, arrival_perm|].
      split; [apply sortedByScore_descending, sortSlice_sorted|done].
Qed.

Lemma Search_uncut c query limit :
  (limit <= 0 ∨ Z.of_nat (length (documents c)) <= limit)%Z →
  Search sortSlice arrival c query limit
  ≡ₚ scoreDocuments c (Tokenize (tokenizer c) query) 0 (documents c).
Proof.
  intros Hlimit.
  destruct (Search_cut_of_sorted c query limit) as (sorted & Hperm & _ & ->).
  rewrite applyLimit_uncut; [done|].
  rewrite (Permutation_length Hperm).
  pose proof (scoreDocuments_length c (Tokenize (tokenizer c) query) 0
                (documents c)).
  lia.
Qed.

(** X15: every result of [Search] is a document of the corpus with its
    index and its score: the result's index is the position of the
    result's document in the corpus, its score is what [Score] gives the
    query on that index, and no index is returned twice. *)
Theorem Search_returns_scored_documents c query limit :
  Forall (λ r, ∃ i, srIndex r = Z.of_nat i
                    ∧ documents c !! i = Some (srDocument r)
                    ∧ srScore r = Score c query (srIndex r))
         (Search sortSlice arrival c query limit)
  ∧ NoDup (srIndex <$> Search sortSlice arrival c query limit).
Proof.
  destruct (Search_cut_of_sorted c query limit) as (sorted & Hperm & _ & ->).
  split.
  - apply applyLimit_Forall. rewrite Hperm. apply Forall_forall.
    intros r (j & doc & Hdoc & _ & ->)%scoreDocuments_elem.
    exists j. by simpl.
  - assert (Hnd : NoDup (srIndex <$> sorted)).
    { rewrite Hperm. apply scoreDocuments_NoDup. }
    destruct (applyLimit_take limit sorted) as [->| ->]; [done|].
    rewrite fmap_take. eapply sublist_NoDup; [exact Hnd|apply sublist_take].
Qed.

(** X16: when the limit cuts nothing off (it is not positive, or not
    less than the number of documents), [Search] returns every document
    that scores more than 0, with that score. *)
Theorem Search_finds_every_match c query limit docIndex :
  (limit <= 0 ∨ Z.of_nat (length (documents c)) <= limit)%Z →
  0 < Score c query docIndex →
  ∃ r, r ∈ Search sortSlice arrival c query limit
       ∧ srIndex r = docIndex
       ∧ srScore r = Score c query docIndex.
Proof.
  intros Hlimit Hpos.
  destruct (Score_positive_valid _ _ _ Hpos) as (i & doc & -> & Hdoc).
  exists (mkSearchResult doc (Score c query (Z.of_nat i)) (Z.of_nat i)).
  split; [|done].
  rewrite (Search_uncut c query limit Hlimit).
  apply scoreDocuments_elem. by exists i, doc.
Qed.

(** X17: the cut keeps the best: a document that [Search] leaves out
    scores no more than any document it returns. *)
Theorem Search_leaves_out_no_better_document c query limit r docIndex :
  r ∈ Search sortSlice arrival c query limit →
  (∀ r', r' ∈ Search sortSlice arrival c query limit →
         srIndex r' ≠ docIndex) →
  Score c query docIndex <= srScore r.
Proof.
  destruct (Search_cut_of_sorted c query limit)
    as (sorted & Hperm & Hdesc & ->).
  intros Hr Hout.
  destruct (Rle_or_lt (Score c query docIndex) (srScore r)) as [|Hlt];
    [done|exfalso].
  assert (Hrpos : 0 < srScore r).
  { assert (Hall : Forall (λ r, 0 < srScore r) (applyLimit limit sorted)).
    { apply applyLimit_Forall. rewrite Hperm.
      apply scoreDocuments_positive. }
    by apply (proj1 (Forall_forall _ _) Hall). }
  assert (Hpos : 0 < Score c query docIndex) by lra.
  destruct (Score_positive_valid _ _ _ Hpos) as (i & doc & -> & Hdoc).
  set (rj := mkSearchResult doc (Score c query (Z.of_nat i)) (Z.of_nat i)).
  assert (Hrj : rj ∈ sorted).
  { rewrite Hperm. apply scoreDocuments_elem. by exists i, doc. }
  destruct (applyLimit_take limit sorted) as [Heq|Heq]; rewrite Heq in *.
  - by apply (Hout rj).
  - rewrite <- (take_drop (Z.to_nat limit) sorted) in Hrj, Hdesc.
    apply elem_of_app in Hrj as [Hrj|Hrj]; [by apply (Hout rj)|].
    pose proof (StronglySorted_app_1_elem_of _ _ _ _ _ Hdesc Hr Hrj) as Hle.
    simpl in Hle. lra.
Qed.
End SearchResults.

Lemma Search_returns_scored_documents_witness :
  Forall (λ r, ∃ i, srIndex r = Z.of_nat i
                    ∧ documents poemCorpus !! i = Some (srDocument r)
                    ∧ srScore r = Score poemCorpus "waltzing" (srIndex r))
         (Search insertionSort reverse poemCorpus "waltzing" 1)
  ∧ NoDup (srIndex <$> Search insertionSort reverse poemCorpus "waltzing" 1).
Proof.
  exact (Search_returns_scored_documents
           insertionSort reverse
           insertionSort_perm insertionSort_sorted reverse_Permutation
           poemCorpus "waltzing" 1).
Defined.

Lemma Search_finds_every_match_witness :
  ∃ r, r ∈ Search insertionSort reverse poemCorpus "waltzing" 0
       ∧ srIndex r = 0%Z
       ∧ srScore r = Score poemCorpus "waltzing" 0.
Proof.
  apply (Search_finds_every_match
           insertionSort reverse
           insertionSort_perm insertionSort_sorted reverse_Permutation
           poemCorpus "waltzing" 0 0).
  - left. lia.
  - apply poemCorpus_scenario.
Defined.

(** ** The walk of the markdown field parser *)

Lemma walkHelper_preserves {St}
    (walker : list NodeKind → bool → Node → bool → St
              → WalkStatus * error * St)
    (P : St → Prop) :
  (∀ ancestors hasNext n entering st,
     P st → P (walker ancestors hasNext n entering st).2) →
  ∀ n ancestors hasNext st,
    P st → P (walkHelper walker ancestors hasNext n st).2.
Proof.
  intros Hw n. induction n as [k cs IH] using Node_children_ind.
  intros ancestors hasNext st Hst. cbn [walkHelper].
  pose proof (Hw ancestors hasNext (mkNode k cs) true st Hst) as H1.
  destruct (walker ancestors hasNext (mkNode k cs) true st)
    as [[status err] st1].
  cbn [snd] in H1.
  destruct (isErr err || isWalkStop status); [done|].
  assert (Hloop : ∀ st0, P st0 →
    P ((fix walkChildren (cs : list Node) (st : St) : bool * error * St :=
          match cs with
          | [] => (false, None, st)
          | child :: rest =>
              let '(status, err, st) :=
                walkHelper walker (k :: ancestors)
                           (match rest with [] => false | _ => true end)
                           child st in
              if isErr err || isWalkStop status then (true, err, st)
              else walkChildren rest st
          end) cs st0).2).
  { clear H1. induction IH as [|child rest Hchild _ IHrest]; intros st0 H0;
      [done|].
    specialize (Hchild (k :: ancestors)
                  (match rest with [] => false | _ => true end) st0 H0).
    destruct (walkHelper walker (k :: ancestors) _ child st0)
      as [[s e] st'].
    cbn [snd] in Hchild.
    destruct (isErr e || isWalkStop s); [done|]. by apply IHrest. }
  destruct (isWalkSkipChildren status).
  - pose proof (Hw ancestors hasNext (mkNode k cs) false st1 H1) as H2.
    destruct (walker ancestors hasNext (mkNode k cs) false st1)
      as [[s2 e2] st2].
    cbn [snd] in H2. by destruct (isErr e2 || isWalkStop s2).
  - specialize (Hloop st1 H1).
    match type of Hloop with
    | P (?X).2 => destruct X as [[stopped e'] st2]
    end.
    cbn [snd] in Hloop. destruct stopped; [done|].
    pose proof (Hw ancestors hasNext (mkNode k cs) false st2 Hloop) as H2.
    destruct (walker ancestors hasNext (mkNode k cs) false st2)
      as [[s2 e2] st3].
    cbn [snd] in H2. by destruct (isErr e2 || isWalkStop s2).
Qed.

Ltac in_field_list :=
  rewrite !elem_of_cons; repeat first [left; reflexivity | right].

Lemma getHeaderField_heading level :
  getHeaderField level
  ∈ [FieldH1; FieldH2; FieldH3; FieldH4; FieldH5; FieldH6].
Proof.
  unfold getHeaderField.
  destruct level as [|[[p|p|]|[p|p|]|]|p]; cbn; try (destruct p; cbn);
    in_field_list.
Qed.

Lemma default_field fld :
  fld ∈ [ FieldH1; FieldH2; FieldH3; FieldH4; FieldH5; FieldH6;
          FieldBold; FieldItalic; FieldCode; FieldBody ] →
  fld ∈ dom DefaultFieldWeights.
Proof.
  rewrite !elem_of_cons, elem_of_nil.
  intros [->|[->|[->|[->|[->|[->|[->|[->|[->|[->|[]]]]]]]]]]];
    apply elem_of_dom; eexists; reflexivity.
Qed.

Lemma getHeaderField_default level :
  getHeaderField level ∈ dom DefaultFieldWeights.
Proof.
  apply default_field. pose proof (getHeaderField_heading level) as H.
  rewrite !elem_of_cons, elem_of_nil in *. tauto.
Qed.

Lemma getHeaderField_not_body level : getHeaderField level ≠ FieldBody.
Proof.
  pose proof (getHeaderField_heading level) as H.
  rewrite !elem_of_cons, elem_of_nil in H.
  destruct H as [->|[->|[->|[->|[->|[->|[]]]]]]]; discriminate.
Qed.

Lemma appendText_dom fld text (st : gmap Field (list string)) :
  fld ∈ dom st → dom (appendText fld text st) = dom st.
Proof.
  intros Hfld. unfold appendText. rewrite dom_insert_L.
  apply subseteq_union_1_L. by apply singleton_subseteq_l.
Qed.

Lemma appendNonEmpty_dom fld text (st : gmap Field (list string)) :
  fld ∈ dom st → dom (appendNonEmpty fld text st) = dom st.
Proof.
  intros Hfld. unfold appendNonEmpty.
  destruct (String.eqb text ""); [done|]. by apply appendText_dom.
Qed.

Lemma fieldWalker_dom ancestors hasNext n entering st :
  dom st = dom DefaultFieldWeights →
  dom (fieldWalker ancestors hasNext n entering st).2
  = dom DefaultFieldWeights.
Proof.
  intros Hst.
  assert (Hin : ∀ fld, fld ∈ dom DefaultFieldWeights → fld ∈ dom st)
    by (intros fld; by rewrite Hst).
  assert (Hdef : ∀ fld,
            fld ∈ [ FieldH1; FieldH2; FieldH3; FieldH4; FieldH5; FieldH6;
                    FieldBold; FieldItalic; FieldCode; FieldBody ] →
            fld ∈ dom st)
    by (intros fld Hfld; by apply Hin, default_field).
  unfold fieldWalker. destruct entering; cbn [negb snd]; [|done].
  destruct (nodeKind n) as [level| |lines| |segment|value|level|];
    cbn [snd]; try done.
  - rewrite appendNonEmpty_dom; [done|]. apply Hin, getHeaderField_default.
  - rewrite appendNonEmpty_dom; [done|]. apply Hdef. in_field_list.
  - rewrite appendNonEmpty_dom; [done|]. apply Hdef. in_field_list.
  - rewrite appendNonEmpty_dom; [done|]. apply Hdef. in_field_list.
  - destruct (negb _); [|done].
    rewrite appendNonEmpty_dom; [done|]. apply Hdef. in_field_list.
  - destruct (String.eqb _ _); [done|].
    destruct (level =? 2)%Z.
    { rewrite appendText_dom; [done|]. apply Hdef. in_field_list. }
    destruct (level =? 1)%Z; [|done].
    rewrite appendText_dom; [done|]. apply Hdef. in_field_list.
Qed.

(** No text collected for a field is empty. *)
Lemma appendText_nonempty fld text (st : gmap Field (list string)) :
  text ≠ "" →
  (∀ f, Forall (λ t, t ≠ "") (default [] (st !! f))) →
  ∀ f, Forall (λ t, t ≠ "") (default [] (appendText fld text st !! f)).
Proof.
  intros Htext Hst f. unfold appendText.
  destruct (decide (fld = f)) as [->|Hne].
  - rewrite lookup_insert_eq. simpl. apply Forall_app. split; [apply Hst|].
    by constructor.
  - rewrite lookup_insert_ne by done. apply Hst.
Qed.

Lemma appendNonEmpty_nonempty fld text (st : gmap Field (list string)) :
  (∀ f, Forall (λ t, t ≠ "") (default [] (st !! f))) →
  ∀ f, Forall (λ t, t ≠ "") (default [] (appendNonEmpty fld text st !! f)).
Proof.
  intros Hst. unfold appendNonEmpty.
  destruct (String.eqb_spec text ""); [done|]. by apply appendText_nonempty.
Qed.

Lemma fieldWalker_nonempty ancestors hasNext n entering st :
  (∀ f, Forall (λ t, t ≠ "") (default [] (st !! f))) →
  ∀ f, Forall (λ t, t ≠ "")
         (default [] ((fieldWalker ancestors hasNext n entering st).2 !! f)).
Proof.
  intros Hst.
  unfold fieldWalker. destruct entering; cbn [negb snd]; [|done].
  destruct (nodeKind n) as [level| |lines| |segment|value|level|];
    cbn [snd]; try done; try by apply appendNonEmpty_nonempty.
  - destruct (negb _); [|done]. by apply appendNonEmpty_nonempty.
  - destruct (String.eqb_spec (extractTextFromChildren n) ""); [done|].
    destruct (level =? 2)%Z; [by apply appendText_nonempty|].
    destruct (level =? 1)%Z; [by apply appendText_nonempty|done].
Qed.

Lemma Walk_fieldWalker root :
  ∃ fieldTexts,
    Walk fieldWalker root emptyFieldTexts = (None, fieldTexts)
    ∧ dom fieldTexts = dom DefaultFieldWeights
    ∧ ∀ f, Forall (λ t, t ≠ "") (default [] (fieldTexts !! f)).
Proof.
  unfold Walk.
  pose proof (walkHelper_preserves fieldWalker
                (λ st, dom st = dom DefaultFieldWeights)
                fieldWalker_dom root [] false emptyFieldTexts) as Hdom.
  pose proof (walkHelper_preserves fieldWalker
                (λ st, ∀ f, Forall (λ t, t ≠ "") (default [] (st !! f)))
                fieldWalker_nonempty root [] false emptyFieldTexts) as Hne.
  destruct (walkHelper_fieldWalker root [] false emptyFieldTexts)
    as (fieldTexts & Heq).
  rewrite Heq in *. exists fieldTexts. split; [done|]. split.
  - apply Hdom. unfold emptyFieldTexts. by rewrite dom_fmap_L.
  - apply Hne. intros f. unfold emptyFieldTexts. rewrite lookup_fmap.
    by destruct (DefaultFieldWeights !! f).
Qed.

Lemma collectFields_lookup content fields fieldTexts fld :
  collectFields content None fields fieldTexts !! fld
  = match fieldTexts !! fld with
    | Some texts =>
        if (0 <? length texts)%nat then Some (Join texts " ")
        else fields !! fld
    | None => fields !! fld
    end.
Proof.
  unfold collectFields.
  apply (map_fold_weak_ind
           (λ r m, r !! fld
                   = match m !! fld with
                     | Some texts =>
                         if (0 <? length texts)%nat
                         then Some (Join texts " ")
                         else fields !! fld
                     | None => fields !! fld
                     end)).
  - by rewrite lookup_empty.
  - intros f texts m r Hf IH.
    destruct (decide (f = fld)) as [->|Hne].
    + rewrite lookup_insert_eq. rewrite Hf in IH.
      destruct (0 <? length texts)%nat; [by rewrite lookup_insert_eq|done].
    + rewrite (lookup_insert_ne m) by done.
      destruct (0 <? length texts)%nat; [|done].
      by rewrite lookup_insert_ne.
Qed.

Lemma Join_nonempty texts sep :
  texts ≠ [] → Forall (λ t, t ≠ "") texts → Join texts sep ≠ "".
Proof.
  intros Hne Hall. destruct texts as [|t texts]; [done|].
  apply Forall_cons in Hall as [Ht _].
  destruct t as [|c t]; [done|].
  simpl. by destruct texts.
Qed.

(** X18: [ParseDocument] never takes its fallback: the walk returns no
    error, whatever the tree.  The map it returns has the ten default
    fields as its keys and no other, also for a heading of a level
    outside 1 to 6; the value of a field is the texts collected for it
    joined by single spaces, and it is the empty string exactly when no
    text was collected for the field. *)
Theorem ParseDocument_joins_the_collected_texts p content :
  ∃ fieldTexts,
    Walk fieldWalker (parser p content) emptyFieldTexts = (None, fieldTexts)
    ∧ dom (ParseDocument p content) = dom DefaultFieldWeights
    ∧ ∀ fld, fld ∈ dom DefaultFieldWeights →
        ParseDocument p content !! fld
        = Some (Join (default [] (fieldTexts !! fld)) " ")
        ∧ (ParseDocument p content !! fld = Some ""
           ↔ default [] (fieldTexts !! fld) = []).
Proof.
  destruct (Walk_fieldWalker (parser p content))
    as (fieldTexts & Hwalk & Hdom & Hne).
  exists fieldTexts. split; [done|].
  unfold ParseDocument. rewrite Hwalk.
  assert (Hlookup : ∀ fld, fld ∈ dom DefaultFieldWeights →
            collectFields content None emptyFields fieldTexts !! fld
            = Some (Join (default [] (fieldTexts !! fld)) " ")).
  { intros fld Hfld. rewrite collectFields_lookup, emptyFields_lookup by done.
    destruct (fieldTexts !! fld) as [[|t texts]|]; done. }
  split.
  - apply set_eq. intros fld. rewrite elem_of_dom. split.
    + intros Hsome. rewrite collectFields_lookup in Hsome.
      destruct (fieldTexts !! fld) as [texts|] eqn:Htexts.
      * rewrite <- Hdom. apply elem_of_dom. eauto.
      * unfold emptyFields in Hsome. rewrite lookup_fmap in Hsome.
        apply fmap_is_Some in Hsome. by apply elem_of_dom.
    + intros Hfld. rewrite Hlookup by done. eauto.
  - intros fld Hfld. split; [by apply Hlookup|].
    rewrite Hlookup by done. split.
    + intros [= Hjoin].
      destruct (default [] (fieldTexts !! fld)) as [|t texts] eqn:Htexts;
        [done|].
      exfalso. apply (Join_nonempty (t :: texts) " "); [done| |done].
      rewrite <- Htexts. apply Hne.
    + by intros ->.
Qed.

Lemma appendNonEmpty_other fld text (st : gmap Field (list string)) f :
  fld ≠ f → appendNonEmpty fld text st !! f = st !! f.
Proof.
  intros Hne. unfold appendNonEmpty, appendText.
  destruct (String.eqb text ""); [done|]. by rewrite lookup_insert_ne.
Qed.

Lemma appendNonEmpty_body text (st : gmap Field (list string)) :
  default [] (appendNonEmpty FieldBody text st !! FieldBody)
  = default [] (st !! FieldBody)
    ++ (if String.eqb text "" then [] else [text]).
Proof.
  unfold appendNonEmpty, appendText.
  destruct (String.eqb text ""); [by rewrite app_nil_r|].
  by rewrite lookup_insert_eq.
Qed.

(** The walk of a subtree that no heading, code or emphasis encloses
    appends the plain texts of the subtree to the texts of the body. *)
Lemma walkHelper_body n :
  ∀ ancestors hasNext st,
    isInsideSpecialElement ancestors = false →
    ∃ st',
      walkHelper fieldWalker ancestors hasNext n st
      = (WalkContinue, None, st')
      ∧ default [] (st' !! FieldBody)
        = default [] (st !! FieldBody) ++ plainTexts n.
Proof.
  induction n as [k cs IH] using Node_children_ind.
  intros ancestors hasNext st Hout.
  assert (Hloop : isSpecialKind k = false → ∀ st0, ∃ st',
    (fix walkChildren (cs : list Node) (st : gmap Field (list string))
       : bool * error * gmap Field (list string) :=
       match cs with
       | [] => (false, None, st)
       | child :: rest =>
           let '(status, err, st) :=
             walkHelper fieldWalker (k :: ancestors)
                        (match rest with [] => false | _ => true end)
                        child st in
           if isErr err || isWalkStop status then (true, err, st)
           else walkChildren rest st
       end) cs st0 = (false, None, st')
    ∧ default [] (st' !! FieldBody)
      = default [] (st0 !! FieldBody)
        ++ (fix each (cs : list Node) : list string :=
              match cs with
              | [] => []
              | child :: rest => plainTexts child ++ each rest
              end) cs).
  { intros Hk.
    assert (Hout' : isInsideSpecialElement (k :: ancestors) = false).
    { unfold isInsideSpecialElement in *. simpl. by rewrite Hk, Hout. }
    induction IH as [|child rest Hchild _ IHrest]; intros st0.
    - exists st0. by rewrite app_nil_r.
    - destruct (Hchild (k :: ancestors)
                  (match rest with [] => false | _ => true end) st0 Hout')
        as (st1 & -> & Hbody1).
      cbn [isErr isWalkStop orb].
      destruct (IHrest st1) as (st2 & -> & Hbody2).
      exists st2. split; [done|]. by rewrite Hbody2, Hbody1, app_assoc. }
  destruct k as [level| |lines| |segment|value|level|];
    cbn [walkHelper plainTexts fieldWalker nodeKind negb isSpecialKind
         isErr isWalkStop isWalkSkipChildren orb app].
  - eexists. split; [reflexivity|].
    rewrite appendNonEmpty_other, app_nil_r;
      [done|apply getHeaderField_not_body].
  - eexists. split; [reflexivity|].
    by rewrite appendNonEmpty_other, app_nil_r.
  - eexists. split; [reflexivity|].
    by rewrite appendNonEmpty_other, app_nil_r.
  - eexists. split; [reflexivity|].
    by rewrite appendNonEmpty_other, app_nil_r.
  - rewrite Hout. cbn [negb].
    destruct (Hloop eq_refl (appendNonEmpty FieldBody (TrimSpace segment) st))
      as (st2 & -> & Hbody).
    exists st2. split; [done|].
    rewrite Hbody, appendNonEmpty_body, <- app_assoc. done.
  - destruct (Hloop eq_refl st) as (st2 & -> & Hbody).
    exists st2. by split.
  - eexists. split; [reflexivity|]. rewrite app_nil_r.
    destruct (String.eqb _ _); [done|].
    unfold appendText.
    destruct (level =? 2)%Z; [by rewrite lookup_insert_ne|].
    destruct (level =? 1)%Z; [by rewrite lookup_insert_ne|done].
  - destruct (Hloop eq_refl st) as (st2 & -> & Hbody).
    exists st2. by split.
Qed.

(** X19: the body field is the plain text of the document: the text
    leaves that no heading, code span, code block or emphasis encloses,
    each trimmed, the empty ones left out, in document order, joined by
    single spaces.  Text below a heading, a code element or an emphasis
    never reaches the body. *)
Theorem ParseDocument_body_is_the_plain_text p content :
  ParseDocument p content !! FieldBody
  = Some (Join (plainTexts (parser p content)) " ").
Proof.
  unfold ParseDocument, Walk.
  destruct (walkHelper_body (parser p content) [] false emptyFieldTexts)
    as (fieldTexts & -> & Hbody); [done|].
  assert (Hempty : emptyFieldTexts !! FieldBody = Some []) by reflexivity.
  rewrite Hempty in Hbody. simpl in Hbody.
  rewrite collectFields_lookup.
  assert (HdefaultBody : emptyFields !! FieldBody = Some "")
    by reflexivity.
  rewrite HdefaultBody, <- Hbody.
  destruct (fieldTexts !! FieldBody) as [[|t texts]|]; done.
Qed.

(** ** Parsing a batch of documents *)

(** X20: [ParseDocuments] returns one document for each input, in the
    order of the inputs, with the position as ID and the input as the
    original text; a corpus built from these documents stores them as
    they are, the IDs that [AddDocument] assigns being those they have. *)
Theorem ParseDocuments_feed_a_corpus_unchanged p opts contents :
  length (ParseDocuments p contents) = length contents
  ∧ (∀ i, ParseDocuments p contents !! i
          = (λ content,
               mkDocument (Z.of_nat i) (ParseDocument p content) content)
            <$> contents !! i)
  ∧ documents (buildCorpus opts (ParseDocuments p contents))
    = ParseDocuments p contents.
Proof.
  unfold ParseDocuments. split; [apply length_imap|].
  split; [intros i; apply list_lookup_imap|].
  rewrite buildCorpus_documents. apply list_eq. intros i.
  rewrite !list_lookup_imap. by destruct (contents !! i).
Qed.

(** ** Trimming and the text of a code block *)

Lemma trimRight_idem s : trimRight (trimRight s) = trimRight s.
Proof.
  induction s as [|c s IH]; [done|]. simpl.
  destruct (trimRight s) as [|d t] eqn:Ht.
  - destruct (isSpace c) eqn:Hc; [done|]. simpl. by rewrite Hc.
  - change (trimRight (String c (String d t)))
      with (match trimRight (String d t) with
            | EmptyString =>
                if isSpace c then EmptyString else String c EmptyString
            | t' => String c t'
            end).
    by rewrite IH.
Qed.

Lemma trimLeft_trimmed s :
  match trimLeft s with
  | EmptyString => True
  | String c _ => isSpace c = false
  end.
Proof.
  induction s as [|c s IH]; [done|]. simpl.
  destruct (isSpace c) eqn:Hc; [done|]. by simpl.
Qed.

Lemma trimLeft_trimRight s :
  match s with
  | EmptyString => True
  | String c _ => isSpace c = false
  end →
  trimLeft (trimRight s) = trimRight s.
Proof.
  destruct s as [|c s]; [done|]. intros Hc. simpl.
  destruct (trimRight s); rewrite ?Hc; simpl; by rewrite ?Hc.
Qed.

Lemma TrimSpace_idem s : TrimSpace (TrimSpace s) = TrimSpace s.
Proof.
  unfold TrimSpace.
  rewrite (trimLeft_trimRight (trimLeft s)) by apply trimLeft_trimmed.
  apply trimRight_idem.
Qed.

Lemma string_append_nil_r s : s +:+ "" = s.
Proof.
  induction s as [|a s IH]; [reflexivity|].
  change (String a (s +:+ "") = String a s). by rewrite IH.
Qed.

Lemma string_append_assoc s1 s2 s3 :
  (s1 +:+ s2) +:+ s3 = s1 +:+ (s2 +:+ s3).
Proof.
  induction s1 as [|a s1 IH]; [reflexivity|].
  change (String a ((s1 +:+ s2) +:+ s3) = String a (s1 +:+ (s2 +:+ s3))).
  by rewrite IH.
Qed.

Lemma splitOn_single sep s cur :
  containsChar sep s = false → splitOn sep s cur = [cur +:+ s].
Proof.
  revert cur. induction s as [|c s IH]; intros cur; simpl.
  - intros _. by rewrite string_append_nil_r.
  - intros [Hc Hs]%orb_false_iff.
    by rewrite Hc, IH, string_append_assoc.
Qed.

(** X21: the extracted texts are trimmed, and the language-tag rule of
    [extractCodeBlockText] never drops the only line of a block: when
    the trimmed content of a code block has no line break, the text of
    the block is that content, however short it is. *)
Theorem code_block_of_one_line_is_kept node hasNext :
  let content :=
    TrimSpace
      match nodeKind node with
      | KindFencedCodeBlock lines => foldl (λ buf text, buf +:+ text) "" lines
      | _ => extractTextRecursive node hasNext
      end in
  TrimSpace (extractCodeBlockText node hasNext)
  = extractCodeBlockText node hasNext
  ∧ TrimSpace (extractTextFromChildren node) = extractTextFromChildren node
  ∧ (containsChar newline content = false →
     extractCodeBlockText node hasNext = content).
Proof.
  intros content. split; [apply TrimSpace_idem|].
  split; [apply TrimSpace_idem|].
  intros Hline. unfold extractCodeBlockText. fold content.
  rewrite (splitOn_single newline content "" Hline).
  cbn [length Nat.ltb Nat.leb andb]. rewrite andb_false_r.
  apply TrimSpace_idem.
Qed.

Lemma code_block_of_one_line_is_kept_witness :
  extractCodeBlockText (mkNode (KindFencedCodeBlock ["go"]) []) false = "go".
Proof.
  apply (code_block_of_one_line_is_kept
           (mkNode (KindFencedCodeBlock ["go"]) []) false).
  reflexivity.
Defined.

(** ** The inverse document frequency *)

(** X22: rarer terms weigh more: among the same number of documents the
    clamped inverse document frequency never grows with the document
    frequency. *)
Theorem rarer_terms_weigh_more N df1 df2 :
  (df1 <= df2)%nat → clampedIDF N df2 <= clampedIDF N df1.
Proof.
  intros Hle. pose proof (clampedIDF_nonneg N df1) as Hnn.
  pose proof (pos_INR N) as HN. pose proof (pos_INR df1) as H1.
  apply le_INR in Hle. revert Hnn. unfold clampedIDF.
  replace 0.5 with (1 / 2) by lra.
  set (n := INR N) in *. set (d1 := INR df1) in *. set (d2 := INR df2) in *.
  cbv zeta. intros Hnn.
  destruct (Rle_or_lt ((n - d2 + 1 / 2) / (d2 + 1 / 2)) 1) as [Hsmall|Hbig].
  - pose proof (ln_nonpos _ Hsmall).
    destruct (Rlt_dec (ln ((n - d2 + 1 / 2) / (d2 + 1 / 2))) 0); lra.
  - assert (Hnum : d2 + 1 / 2 < n - d2 + 1 / 2).
    { destruct (Rlt_dec (d2 + 1 / 2) (n - d2 + 1 / 2)) as [|Hge]; [done|].
      exfalso. assert ((n - d2 + 1 / 2) / (d2 + 1 / 2) <= 1); [|lra].
      apply div_le; lra. }
    assert (Hargs : (n - d2 + 1 / 2) / (d2 + 1 / 2)
                    <= (n - d1 + 1 / 2) / (d1 + 1 / 2)).
    { apply div_le; [lra|].
      replace ((n - d1 + 1 / 2) / (d1 + 1 / 2) * (d2 + 1 / 2))
        with ((n - d1 + 1 / 2) * (d2 + 1 / 2) / (d1 + 1 / 2))
        by (field; lra).
      apply le_div; [lra|]. nra. }
    assert (Hln : ln ((n - d2 + 1 / 2) / (d2 + 1 / 2))
                  <= ln ((n - d1 + 1 / 2) / (d1 + 1 / 2)))
      by (destruct Hargs as [Hlt|Heq];
          [left; apply ln_increasing; lra|right; by rewrite Heq]).
    assert (Hpos : 0 < ln ((n - d2 + 1 / 2) / (d2 + 1 / 2))).
    { rewrite <- ln_1. apply ln_increasing; lra. }
    destruct (Rlt_dec (ln ((n - d2 + 1 / 2) / (d2 + 1 / 2))) 0);
      destruct (Rlt_dec (ln ((n - d1 + 1 / 2) / (d1 + 1 / 2))) 0); lra.
Qed.

Lemma rarer_terms_weigh_more_witness : clampedIDF 3 2 <= clampedIDF 3 1.
Proof. apply rarer_terms_weigh_more. lia. Defined.

Local Close Scope R_scope.
(** ** The sign of a float64 score *)

Section FloatSigns.
Import PrimFloat SpecFloat FloatOps FloatAxioms.

















End FloatSigns.

(** ** Overflow, saturation and rounding in float64 *)

Section FloatRuns.
Import PrimFloat SpecFloat FloatOps FloatAxioms.



Lemma scoreWithTokens64_single Log weights c orders term docIndex :
  validIndex c docIndex →
  Float64.scoreWithTokens Log weights c orders [term] docIndex
  = Float64.scoreTerm Log weights c (orders 0%nat) (Z.to_nat docIndex)
                      0%float term.
Proof.
  intros [Hlo Hhi]. unfold Float64.scoreWithTokens.
  destruct (Z.ltb_spec docIndex 0); [lia|].
  destruct (Z.leb_spec (Z.of_nat (length (documents c))) docIndex); [lia|].
  done.
Qed.

Lemma listedOrder_valid c : Float64.validOrders c (λ _, listedOrder c).
Proof. by intros k. Qed.

Lemma reversedOrder_valid c : Float64.validOrders c (λ _, reversedOrder c).
Proof. intros k. apply reverse_Permutation. Qed.



End FloatRuns.

(** ** Raising a weight, in float64 *)

Section FloatWeights.
Import PrimFloat SpecFloat FloatOps FloatAxioms.





End FloatWeights.

(** ** The cut of a sorted list *)

Local Open Scope R_scope.

Lemma descending_lookup l i j a b :
  descending l → (i < j)%nat → l !! i = Some a → l !! j = Some b →
  srScore b <= srScore a.
Proof.
  unfold descending. intros Hl. revert i j.
  induction Hl as [|x l Hl IH Hall]; intros i j Hij Ha Hb; [done|].
  destruct i as [|i], j as [|j]; try lia; simpl in *.
  - injection Ha as ->.
    apply (proj1 (Forall_forall _ _) Hall). by eapply list_elem_of_lookup_2.
  - apply (IH i j); [lia|done..].
Qed.

Lemma filter_all {A} (P : A → Prop) `{∀ x, Decision (P x)} (l : list A) :
  Forall P l → filter P l = l.
Proof.
  induction 1 as [|x l Hx Hl IH]; [done|].
  by rewrite filter_cons_True, IH.
Qed.

Lemma filter_none {A} (P : A → Prop) `{∀ x, Decision (P x)} (l : list A) :
  Forall (λ x, ¬ P x) l → filter P l = [].
Proof.
  induction 1 as [|x l Hx Hl IH]; [done|].
  by rewrite filter_cons_False.
Qed.

(** Where the score just inside the cut is more than the score just
    outside, the cut keeps exactly the results that score at least as
    much as the last one kept. *)
Lemma descending_cut_filter l k x y :
  descending l →
  (srScore <$> l) !! k = Some x → (srScore <$> l) !! S k = Some y →
  y < x →
  take (S k) l = filter (λ r, x <= srScore r) l.
Proof.
  intros Hl Hx Hy Hyx.
  rewrite list_lookup_fmap in Hx, Hy.
  destruct (l !! k) as [a|] eqn:Ha; [|done].
  destruct (l !! S k) as [b|] eqn:Hb; [|done].
  simpl in Hx, Hy. injection Hx as <-. injection Hy as <-.
  rewrite <- (take_drop (S k) l) at 2.
  rewrite filter_app, filter_all, filter_none; [by rewrite app_nil_r| |].
  - apply Forall_lookup. intros j r Hr.
    rewrite lookup_drop in Hr.
    destruct j as [|j].
    + rewrite Nat.add_0_r, Hb in Hr. injection Hr as <-. lra.
    + pose proof (descending_lookup l (S k) (S k + S j) b r Hl) as Hle.
      specialize (Hle ltac:(lia) Hb Hr). lra.
  - apply Forall_lookup. intros j r Hr.
    apply lookup_take_Some in Hr as [Hr Hj].
    destruct (decide (j = k)) as [->|Hne].
    + rewrite Ha in Hr. injection Hr as <-. lra.
    + apply (descending_lookup l j k r a Hl); [lia|done..].
Qed.

(** ** The runs of the scoring loop *)

Lemma scoreDocumentsRun_ext f g i docs :
  (∀ j, (i <= j < i + length docs)%nat → f j = g j) →
  scoreDocumentsRun f i docs = scoreDocumentsRun g i docs.
Proof.
  revert i. induction docs as [|doc docs IH]; intros i Hfg; [done|].
  cbn [scoreDocumentsRun]. rewrite (Hfg i) by (simpl; lia).
  rewrite (IH (S i)); [done|]. intros j Hj. apply Hfg. simpl. lia.
Qed.

Lemma scoreDocuments_run c terms i docs :
  scoreDocuments c terms i docs
  = scoreDocumentsRun (λ j, scoreWithTokens c terms (Z.of_nat j)) i docs.
Proof.
  revert i. induction docs as [|doc docs IH]; intros i; [done|].
  cbn [scoreDocuments scoreDocumentsRun]. by rewrite IH.
Qed.

Lemma scoreDocuments_matches c terms i docs :
  length (scoreDocuments c terms i docs)
  = length (filter (λ j, 0 < scoreWithTokens c terms (Z.of_nat j))
                   (seq i (length docs))).
Proof.
  revert i. induction docs as [|doc docs IH]; intros i; [done|].
  cbn [scoreDocuments length seq]. rewrite length_app, IH, filter_cons.
  unfold decide, Rlt_decision. by destruct (Rlt_dec _ _).
Qed.

Lemma insertionSort_pair a b :
  srScore b < srScore a →
  insertionSort [a; b] = [a; b] ∧ insertionSort [b; a] = [a; b].
Proof.
  intros Hlt. unfold insertionSort. cbn [foldl moveLeft].
  destruct (Rlt_dec (srScore a) (srScore b)) as [|_]; [lra|].
  destruct (Rlt_dec (srScore b) (srScore a)) as [_|]; [|lra].
  cbn [moveLeft]. done.
Qed.

Lemma applyLimit_keeps_best limit sorted r r' :
  descending sorted →
  r ∈ applyLimit limit sorted → r' ∈ sorted →
  r' ∉ applyLimit limit sorted →
  srScore r' <= srScore r.
Proof.
  intros Hdesc Hr Hr' Hout.
  destruct (applyLimit_take limit sorted) as [Heq|Heq]; rewrite Heq in *;
    [done|].
  rewrite <- (take_drop (Z.to_nat limit) sorted) in Hr', Hdesc.
  apply elem_of_app in Hr' as [Hr'|Hr']; [done|].
  apply (StronglySorted_app_1_elem_of _ _ _ _ _ Hdesc Hr Hr').
Qed.

(** ** The search scenario with two hits *)

Lemma poemCorpus_bewitched_weightedTF :
  weightedTF poemCorpus "bewitched" 1 = 1.
Proof.
  rewrite weightedTF_nonzeroTFs.
  replace (nonzeroTFs poemCorpus "bewitched" 1) with [(FieldBody, 1%nat)]
    by (vm_compute; reflexivity).
  unfold poemCorpus. rewrite buildCorpus_fieldWeights. simpl.
  rewrite DefaultFieldWeights_body. simpl. lra.
Qed.

(** Document 0 scores twice what document 1 scores, and document 2
    nothing. *)
Lemma twoHit_scores :
  Tokenize (tokenizer poemCorpus) twoHitQuery
  = ["waltzing"; "waltzing"; "bewitched"]
  ∧ 0 < Score poemCorpus twoHitQuery 1
  ∧ Score poemCorpus twoHitQuery 1 < Score poemCorpus twoHitQuery 0
  ∧ Score poemCorpus twoHitQuery 2 = 0.
Proof.
  assert (Hq : Tokenize (tokenizer poemCorpus) twoHitQuery
               = ["waltzing"; "waltzing"; "bewitched"])
    by (vm_compute; reflexivity).
  split; [done|]. unfold Score. rewrite Hq.
  assert (Hv : ∀ i, (i < 3)%nat → validIndex poemCorpus (Z.of_nat i)).
  { intros i Hi. unfold validIndex. rewrite poemCorpus_length. lia. }
  assert (Habsent : ∀ term i,
            termFound poemCorpus term i = false →
            termScore poemCorpus i term = 0).
  { intros term i Hnf. apply termScore_unweighted.
    rewrite weightedTF_not_found by done. lra. }
  assert (Hdf : ∀ term, docFreq poemCorpus term = 1%nat →
            ∀ i, weightedTF poemCorpus term i = 1 →
            termScore poemCorpus i term
            = clampedIDF 3 1 * (1 * (combinedK1 + 1) / (1 + combinedK1))).
  { intros term Hdf i Hw. rewrite termScore_weighted.
    - by rewrite Hdf, Hw, poemCorpus_length.
    - by rewrite Hdf.
    - rewrite Hw. lra. }
  assert (Hw0 : termScore poemCorpus 0 "waltzing"
                = clampedIDF 3 1 * (1 * (combinedK1 + 1) / (1 + combinedK1))).
  { apply Hdf; [vm_compute; reflexivity|apply poemCorpus_weightedTF]. }
  assert (Hb1 : termScore poemCorpus 1 "bewitched"
                = clampedIDF 3 1 * (1 * (combinedK1 + 1) / (1 + combinedK1))).
  { apply Hdf; [vm_compute; reflexivity|apply poemCorpus_bewitched_weightedTF]. }
  pose proof poemCorpus_termScore_pos as Hpos. rewrite Hw0 in Hpos.
  rewrite (scoreWithTokens_valid _ _ 0) by (apply (Hv 0%nat); lia).
  rewrite (scoreWithTokens_valid _ _ 1) by (apply (Hv 1%nat); lia).
  rewrite (scoreWithTokens_valid _ _ 2) by (apply (Hv 2%nat); lia).
  change (Z.to_nat 0) with 0%nat. change (Z.to_nat 1) with 1%nat.
  change (Z.to_nat 2) with 2%nat. cbn [map sumR].
  rewrite Hw0, Hb1.
  rewrite (Habsent "bewitched" 0%nat) by (vm_compute; reflexivity).
  rewrite (Habsent "waltzing" 1%nat) by (vm_compute; reflexivity).
  rewrite (Habsent "waltzing" 2%nat) by (vm_compute; reflexivity).
  rewrite (Habsent "bewitched" 2%nat) by (vm_compute; reflexivity).
  repeat split; lra.
Qed.

Lemma twoHit_scored :
  ∃ doc0 doc1,
    documents poemCorpus !! 0%nat = Some doc0
    ∧ documents poemCorpus !! 1%nat = Some doc1
    ∧ scoreDocuments poemCorpus (Tokenize (tokenizer poemCorpus) twoHitQuery)
        0 (documents poemCorpus)
      = [ mkSearchResult doc0 (Score poemCorpus twoHitQuery 0) 0;
          mkSearchResult doc1 (Score poemCorpus twoHitQuery 1) 1 ].
Proof.
  destruct twoHit_scores as (_ & H1 & H10 & H2).
  assert (Hdocs : ∃ doc0 doc1 doc2, documents poemCorpus = [doc0; doc1; doc2]).
  { do 3 eexists. vm_compute. reflexivity. }
  destruct Hdocs as (doc0 & doc1 & doc2 & Hdocs).
  exists doc0, doc1. rewrite Hdocs. split; [done|]. split; [done|].
  cbn [scoreDocuments].
  change (scoreWithTokens poemCorpus
            (Tokenize (tokenizer poemCorpus) twoHitQuery) (Z.of_nat 0))
    with (Score poemCorpus twoHitQuery 0).
  change (scoreWithTokens poemCorpus
            (Tokenize (tokenizer poemCorpus) twoHitQuery) (Z.of_nat 1))
    with (Score poemCorpus twoHitQuery 1).
  change (scoreWithTokens poemCorpus
            (Tokenize (tokenizer poemCorpus) twoHitQuery) (Z.of_nat 2))
    with (Score poemCorpus twoHitQuery 2).
  destruct (Rlt_dec 0 (Score poemCorpus twoHitQuery 0)); [|lra].
  destruct (Rlt_dec 0 (Score poemCorpus twoHitQuery 1)); [|lra].
  destruct (Rlt_dec 0 (Score poemCorpus twoHitQuery 2)); [lra|].
  done.
Qed.

Lemma twoHit_Search :
  ∃ doc0 doc1,
    scoreDocuments poemCorpus (Tokenize (tokenizer poemCorpus) twoHitQuery)
      0 (documents poemCorpus)
    = [ mkSearchResult doc0 (Score poemCorpus twoHitQuery 0) 0;
        mkSearchResult doc1 (Score poemCorpus twoHitQuery 1) 1 ]
    ∧ Search insertionSort reverse poemCorpus twoHitQuery 1
      = [mkSearchResult doc0 (Score poemCorpus twoHitQuery 0) 0].
Proof.
  destruct twoHit_scored as (doc0 & doc1 & _ & _ & Hscored).
  destruct twoHit_scores as (Hq & _ & H10 & _).
  exists doc0, doc1. split; [done|].
  unfold Search, searchSequential. rewrite Hscored, Hq, poemCorpus_length.
  cbn [length Nat.eqb Nat.ltb Nat.leb].
  destruct (insertionSort_pair
              (mkSearchResult doc0 (Score poemCorpus twoHitQuery 0) 0)
              (mkSearchResult doc1 (Score poemCorpus twoHitQuery 1) 1))
    as [-> _]; [done|].
  reflexivity.
Qed.

Lemma pair_lookup {A} (a b x y : A) :
  [a; b] !! 0%nat = Some x → [a; b] !! 1%nat = Some y → x = a ∧ y = b.
Proof. by intros [= ->] [= ->]. Qed.

(** ** Claims about [Search] *)

Section SearchClaims.
Variable sortSlice : list SearchResult → list SearchResult.
Variable arrival : list SearchResult → list SearchResult.
(** [sort.Slice] permutes the slice into an order in which no element is
    less than an earlier one. *)
Hypothesis sortSlice_perm : ∀ l, sortSlice l ≡ₚ l.
Hypothesis sortSlice_sorted : ∀ l, sortedByScore (sortSlice l).
(** Every result sent on [resultsChan] is received exactly once. *)
Hypothesis arrival_perm : ∀ l, arrival l ≡ₚ l.

(** C7: [Search] returns no result for a query without terms.  Every
    result is a document of the corpus with its position as index and
    with the score [Score] gives it, which is more than 0; the results
    are in descending order of score and no document is returned twice.
    Every document is scored before the cut: the results number all
    the documents that score more than 0, or the first [limit] of them
    when [limit] is positive, and a document that is left out scores
    no more than any document returned. *)
Theorem Search_positive_descending_within_limit c query limit :
  let results := Search sortSlice arrival c query limit in
  (Tokenize (tokenizer c) query = [] → results = [])
  ∧ Forall (λ r, 0 < srScore r
                 ∧ ∃ i, srIndex r = Z.of_nat i
                        ∧ documents c !! i = Some (srDocument r)
                        ∧ srScore r = Score c query (srIndex r))
           results
  ∧ descending results
  ∧ NoDup (srIndex <$> results)
  ∧ length results
    = (if (0 <? limit)%Z
       then Nat.min (Z.to_nat limit) (length (matches c query))
       else length (matches c query))
  ∧ ((0 < limit)%Z → (Z.of_nat (length results) <= limit)%Z)
  ∧ ∀ r i,
      r ∈ results →
      (∀ r', r' ∈ results → srIndex r' ≠ Z.of_nat i) →
      Score c query (Z.of_nat i) <= srScore r.
Proof.
  intros results. subst results.
  assert (Hempty : Tokenize (tokenizer c) query = [] →
                   Search sortSlice arrival c query limit = []).
  { intros Hq. unfold Search. by rewrite Hq. }
  destruct (Search_cut_of_sorted sortSlice arrival
              sortSlice_perm sortSlice_sorted arrival_perm c query limit)
    as (sorted & Hperm & Hdesc & HSearch).
  rewrite HSearch in *.
  set (scored := scoreDocuments c (Tokenize (tokenizer c) query) 0
                   (documents c)) in *.
  assert (Hscored : Forall (λ r, 0 < srScore r
                 ∧ ∃ i, srIndex r = Z.of_nat i
                        ∧ documents c !! i = Some (srDocument r)
                        ∧ srScore r = Score c query (srIndex r)) scored).
  { apply Forall_forall.
    intros r (j & doc & Hdoc & Hpos & ->)%scoreDocuments_elem.
    split; [done|]. exists j. by simpl. }
  assert (Hlen : length sorted = length (matches c query)).
  { rewrite (Permutation_length Hperm). apply scoreDocuments_matches. }
  assert (Hcut : length (applyLimit limit sorted)
                 = (if (0 <? limit)%Z
                    then Nat.min (Z.to_nat limit) (length (matches c query))
                    else length (matches c query))).
  { by rewrite applyLimit_length, Hlen. }
  split; [done|]. split; [|split; [|split; [|split; [|split]]]].
  - apply applyLimit_Forall. by rewrite Hperm.
  - by apply applyLimit_descending.
  - assert (Hnd : NoDup (srIndex <$> sorted)).
    { rewrite Hperm. apply scoreDocuments_NoDup. }
    destruct (applyLimit_take limit sorted) as [->| ->]; [done|].
    rewrite fmap_take. eapply sublist_NoDup; [exact Hnd|apply sublist_take].
  - done.
  - intros Hlimit. rewrite Hcut. destruct (Z.ltb_spec 0 limit); lia.
  - intros r i Hr Hout.
    destruct (Rle_or_lt (Score c query (Z.of_nat i)) (srScore r)) as [|Hlt];
      [done|exfalso].
    assert (Hrpos : 0 < srScore r).
    { assert (Hall : Forall (λ r, 0 < srScore r) (applyLimit limit sorted)).
      { apply applyLimit_Forall. rewrite Hperm.
        apply scoreDocuments_positive. }
      by apply (proj1 (Forall_forall _ _) Hall). }
    assert (Hpos : 0 < Score c query (Z.of_nat i)) by lra.
    destruct (Score_positive_valid _ _ _ Hpos) as (j & doc & Hj & Hdoc).
    apply Nat2Z.inj in Hj as <-.
    set (ri := mkSearchResult doc (Score c query (Z.of_nat i)) (Z.of_nat i)).
    assert (Hri : ri ∈ sorted).
    { rewrite Hperm. apply scoreDocuments_elem. by exists i, doc. }
    assert (Hle : srScore ri <= srScore r).
    { apply (applyLimit_keeps_best limit sorted); [done..|].
      intros Hin. by apply (Hout ri). }
    simpl in Hle. lra.
Qed.

(** The strategies of the package are the runs in which every call
    returns the idealised score. *)
Lemma strategies_are_runs c queryTerms limit :
  searchSequential sortSlice c queryTerms limit
  = searchSequentialRun sortSlice
      (λ i, scoreWithTokens c queryTerms (Z.of_nat i)) c limit
  ∧ searchParallel sortSlice arrival c queryTerms limit
    = searchParallelRun sortSlice arrival
        (λ i, scoreWithTokens c queryTerms (Z.of_nat i)) c limit.
Proof.
  unfold searchSequential, searchParallel, searchSequentialRun,
    searchParallelRun.
  by rewrite scoreDocuments_run.
Qed.
(** C2, as amended.  The strategies of the package are the runs in
    which every call returns the idealised score.  Take any run of the
    sequential scan and any run of the concurrent scan in which every
    document gets the same score.  The two return the same sequence of
    scores.  They return the same
    results, as multisets of (document id, score) pairs, when the limit
    cuts nothing off, and also when it cuts between two different
    scores: when the score just inside the cut is more than the score
    just outside.  They return the very same list when no two documents
    have the same positive score.  What the strategies may answer
    differently is which of several documents of one score survive a
    cut that falls among them. *)
Theorem strategies_agree_up_to_ties c queryTerms scoreSeq scorePar limit :
  (∀ i, (i < length (documents c))%nat → scoreSeq i = scorePar i) →
  let idealised := λ i, scoreWithTokens c queryTerms (Z.of_nat i) in
  let scores :=
    srScore <$> sortSlice (scoreDocumentsRun scoreSeq 0 (documents c)) in
  (searchSequential sortSlice c queryTerms limit
   = searchSequentialRun sortSlice idealised c limit
   ∧ searchParallel sortSlice arrival c queryTerms limit
     = searchParallelRun sortSlice arrival idealised c limit)
  ∧ srScore <$> searchSequentialRun sortSlice scoreSeq c limit
  = srScore <$> searchParallelRun sortSlice arrival scorePar c limit
  ∧ ((limit <= 0 ∨ Z.of_nat (length scores) <= limit)%Z →
     idScore <$> searchSequentialRun sortSlice scoreSeq c limit
     ≡ₚ idScore <$> searchParallelRun sortSlice arrival scorePar c limit)
  ∧ ((0 < limit)%Z →
     (∀ x y, scores !! (Z.to_nat limit - 1)%nat = Some x →
             scores !! Z.to_nat limit = Some y → y < x) →
     idScore <$> searchSequentialRun sortSlice scoreSeq c limit
     ≡ₚ idScore <$> searchParallelRun sortSlice arrival scorePar c limit)
  ∧ (NoDup scores →
     searchSequentialRun sortSlice scoreSeq c limit
     = searchParallelRun sortSlice arrival scorePar c limit).
Proof.
  intros Hsame idealised scores. subst idealised scores.
  split; [apply strategies_are_runs|].
  unfold searchSequentialRun, searchParallelRun.
  rewrite <- (scoreDocumentsRun_ext scoreSeq scorePar 0 (documents c))
    by (intros j Hj; apply Hsame; lia).
  set (scored := scoreDocumentsRun scoreSeq 0 (documents c)).
  set (s1 := sortSlice scored). set (s2 := sortSlice (arrival scored)).
  assert (Hperm : s1 ≡ₚ s2).
  { unfold s1, s2. by rewrite !sortSlice_perm, arrival_perm. }
  assert (Hscores : srScore <$> s1 = srScore <$> s2).
  { apply (Sorted_unique (λ x y : R, y <= x)).
    - apply sortedByScore_scores, sortSlice_sorted.
    - apply sortedByScore_scores, sortSlice_sorted.
    - by rewrite Hperm. }
  assert (Huncut : (limit <= 0 ∨ Z.of_nat (length s1) <= limit)%Z →
            idScore <$> applyLimit limit s1
            ≡ₚ idScore <$> applyLimit limit s2).
  { intros Hlim. rewrite !applyLimit_uncut; [by rewrite Hperm| |done].
    by rewrite <- (Permutation_length Hperm). }
  split; [|split; [|split]].
  - apply applyLimit_fmap; [by apply Permutation_length|done].
  - rewrite length_fmap. apply Huncut.
  - intros Hlimit Hclean.
    destruct (Z.lt_ge_cases limit (Z.of_nat (length s1))) as [Hcut|Hnocut];
      [|apply Huncut; lia].
    assert (Hk : Z.to_nat limit = S (Z.to_nat limit - 1)) by lia.
    destruct (lookup_lt_is_Some_2 (srScore <$> s1) (Z.to_nat limit - 1))
      as [x Hx]; [rewrite length_fmap; lia|].
    destruct (lookup_lt_is_Some_2 (srScore <$> s1) (Z.to_nat limit))
      as [y Hy]; [rewrite length_fmap; lia|].
    specialize (Hclean x y Hx Hy).
    assert (Htake : ∀ s, descending s → srScore <$> s = srScore <$> s1 →
              applyLimit limit s = filter (λ r, x <= srScore r) s).
    { intros s Hs Heq. unfold applyLimit.
      assert (length s = length s1) as ->
        by (rewrite <- (length_fmap srScore s), Heq; apply length_fmap).
      destruct (Z.ltb_spec 0 limit); [|lia].
      destruct (Z.ltb_spec limit (Z.of_nat (length s1))); [|lia].
      cbn [andb]. rewrite Hk.
      apply (descending_cut_filter s _ x y); [done| | |done].
      - by rewrite Heq.
      - by rewrite Heq, <- Hk. }
    rewrite (Htake s1), (Htake s2).
    + by rewrite Hperm.
    + apply sortedByScore_descending, sortSlice_sorted.
    + done.
    + apply sortedByScore_descending, sortSlice_sorted.
    + done.
  - intros Hnd. f_equal.
    apply (Sorted_unique_strong (λ a b : SearchResult, srScore b <= srScore a)).
    + intros x1 x2 Hx1 Hx2 H12 H21.
      apply (fmap_injective_on srScore s1); [done|done| |lra].
      by rewrite Hperm.
    + apply sortedByScore_le, sortSlice_sorted.
    + apply sortedByScore_le, sortSlice_sorted.
    + done.
Qed.

End SearchClaims.

Lemma Search_positive_descending_within_limit_witness :
  let results := Search insertionSort reverse poemCorpus twoHitQuery 1 in
  (Tokenize (tokenizer poemCorpus) twoHitQuery = [] → results = [])
  ∧ Forall (λ r, 0 < srScore r
                 ∧ ∃ i, srIndex r = Z.of_nat i
                        ∧ documents poemCorpus !! i = Some (srDocument r)
                        ∧ srScore r = Score poemCorpus twoHitQuery (srIndex r))
           results
  ∧ descending results
  ∧ NoDup (srIndex <$> results)
  ∧ length results
    = (if (0 <? 1)%Z
       then Nat.min (Z.to_nat 1) (length (matches poemCorpus twoHitQuery))
       else length (matches poemCorpus twoHitQuery))
  ∧ ((0 < 1)%Z → (Z.of_nat (length results) <= 1)%Z)
  ∧ ∀ r i,
      r ∈ results →
      (∀ r', r' ∈ results → srIndex r' ≠ Z.of_nat i) →
      Score poemCorpus twoHitQuery (Z.of_nat i) <= srScore r.
Proof.
  exact (Search_positive_descending_within_limit
           insertionSort reverse
           insertionSort_perm insertionSort_sorted reverse_Permutation
           poemCorpus twoHitQuery 1).
Defined.

(** Two documents score, document 0 more than document 1; the results
    arrive in reverse, and the limit 1 cuts between the two. *)
Lemma strategies_agree_up_to_ties_witness :
  length (scoreDocuments poemCorpus
            (Tokenize (tokenizer poemCorpus) twoHitQuery) 0
            (documents poemCorpus)) = 2%nat
  ∧ Score poemCorpus twoHitQuery 1 < Score poemCorpus twoHitQuery 0
  ∧ idScore
      <$> searchSequential insertionSort poemCorpus
            (Tokenize (tokenizer poemCorpus) twoHitQuery) 1
    ≡ₚ idScore
         <$> searchParallel insertionSort reverse poemCorpus
               (Tokenize (tokenizer poemCorpus) twoHitQuery) 1.
Proof.
  destruct twoHit_Search as (doc0 & doc1 & Hscored & _).
  destruct twoHit_scores as (_ & H1 & H10 & _).
  split; [by rewrite Hscored|]. split; [done|].
  destruct (strategies_agree_up_to_ties
              insertionSort reverse
              insertionSort_perm insertionSort_sorted reverse_Permutation
              poemCorpus (Tokenize (tokenizer poemCorpus) twoHitQuery)
              (λ i, scoreWithTokens poemCorpus
                      (Tokenize (tokenizer poemCorpus) twoHitQuery)
                      (Z.of_nat i))
              (λ i, scoreWithTokens poemCorpus
                      (Tokenize (tokenizer poemCorpus) twoHitQuery)
                      (Z.of_nat i))
              1)
    as ([-> ->] & _ & _ & Hcut & _); [done|].
  apply Hcut.
  - lia.
  - rewrite <- scoreDocuments_run, Hscored.
    destruct (insertionSort_pair
                (mkSearchResult doc0 (Score poemCorpus twoHitQuery 0) 0)
                (mkSearchResult doc1 (Score poemCorpus twoHitQuery 1) 1))
      as [-> _]; [done|].
    change (Z.to_nat 1 - 1)%nat with 0%nat. change (Z.to_nat 1) with 1%nat.
    intros x y Hx Hy.
    destruct (pair_lookup _ _ _ _ Hx Hy) as [-> ->]. exact H10.
Defined.

(** ** Two runs that score one document differently *)

Section FloatOrders.
Import PrimFloat SpecFloat FloatOps FloatAxioms.

Lemma threeFieldCorpus_valid_0 : validIndex threeFieldCorpus 0.
Proof. unfold validIndex. by vm_compute. Qed.

(** C2, the counterexample, in three parts.
    - A tie at the cut: on a corpus of one hundred documents whose
      documents 0 and 1 tie, with the insertion sort [sort.Slice] runs
      on short slices and the results of the workers arriving in
      reverse order, the sequential scan with limit 1 returns document
      0 while [Search], which takes the concurrent path here, returns
      document 1.
    - The last bit: under the default weights a word that a document
      has once in italics, twice in code and once in the body has the
      weighted frequency 3.7999999999999998 when the map is ranged over
      in one order and 3.8000000000000003 in the reverse order, and the
      saturated frequencies differ as well.
    - A document found by one run only: under the weights 5e15 for code
      and -1e16 for italic the same word has the weighted frequency 1
      in one order and 0 in the reverse order, in which the document
      scores 0 and is not returned. *)
Lemma strategies_differ_on_a_tie_or_an_order :
  ((∀ l, insertionSort l ≡ₚ l)
   ∧ (∀ l, sortedByScore (insertionSort l))
   ∧ (∀ l : list SearchResult, reverse l ≡ₚ l)
   ∧ length (documents tieCorpus) = 100%nat
   ∧ (λ r, ID (srDocument r))
       <$> searchSequential insertionSort tieCorpus
             (Tokenize (tokenizer tieCorpus) "waltzing") 1
     = [0%Z]
   ∧ (λ r, ID (srDocument r))
       <$> Search insertionSort reverse tieCorpus "waltzing" 1
     = [1%Z])
  ∧ (Float64.validOrders threeFieldCorpus (λ _, listedOrder threeFieldCorpus)
     ∧ Float64.validOrders threeFieldCorpus
         (λ _, reversedOrder threeFieldCorpus)
     ∧ Float64.weightedTF Float64.DefaultFieldWeights
         (listedOrder threeFieldCorpus) "waltzing" 0
       = 3.7999999999999998%float
     ∧ Float64.weightedTF Float64.DefaultFieldWeights
         (reversedOrder threeFieldCorpus) "waltzing" 0
       = 3.8000000000000003%float
     ∧ (Float64.normTF 3.7999999999999998
        <? Float64.normTF 3.8000000000000003)%float = true)
  ∧ ∀ Log,
      Float64.Score Log
        (<[FieldCode := 5e15%float]>
           (<[FieldItalic := (-1e16)%float]> Float64.DefaultFieldWeights))
        threeFieldCorpus (λ _, reversedOrder threeFieldCorpus) "waltzing" 0
      = 0%float
      ∧ Float64.Score Log
          (<[FieldCode := 5e15%float]>
             (<[FieldItalic := (-1e16)%float]> Float64.DefaultFieldWeights))
          threeFieldCorpus (λ _, listedOrder threeFieldCorpus) "waltzing" 0
        = (0 + Float64.clampedIDF Log 3 1 * 1)%float.
Proof.
  split; [apply strategies_differ_on_a_tie|]. split.
  - split; [apply listedOrder_valid|]. split; [apply reversedOrder_valid|].
    split; [vm_compute; reflexivity|]. split; vm_compute; reflexivity.
  - intros Log. unfold Float64.Score.
    replace (Tokenize (tokenizer threeFieldCorpus) "waltzing")
      with ["waltzing"] by (vm_compute; reflexivity).
    rewrite !scoreWithTokens64_single by apply threeFieldCorpus_valid_0.
    unfold Float64.scoreTerm. cbv zeta.
    replace (docFreq threeFieldCorpus "waltzing") with 1%nat
      by (vm_compute; reflexivity).
    replace (length (documents threeFieldCorpus)) with 3%nat
      by (vm_compute; reflexivity).
    replace (Float64.weightedTF _ (reversedOrder threeFieldCorpus) _ _)
      with 0%float by (vm_compute; reflexivity).
    replace (Float64.weightedTF _ (listedOrder threeFieldCorpus) _ _)
      with 1%float by (vm_compute; reflexivity).
    replace (Float64.normTF 1) with 1%float by (vm_compute; reflexivity).
    split; reflexivity.
Qed.
End FloatOrders.

Lemma Search_leaves_out_no_better_document_witness :
  ∃ r, Search insertionSort reverse poemCorpus twoHitQuery 1 = [r]
       ∧ 0 < Score poemCorpus twoHitQuery 1
       ∧ Score poemCorpus twoHitQuery 1 <= srScore r.
Proof.
  destruct twoHit_Search as (doc0 & doc1 & _ & HSearch).
  destruct twoHit_scores as (_ & H1 & _).
  exists (mkSearchResult doc0 (Score poemCorpus twoHitQuery 0) 0).
  split; [done|]. split; [done|].
  apply (Search_leaves_out_no_better_document
           insertionSort reverse
           insertionSort_perm insertionSort_sorted reverse_Permutation
           poemCorpus twoHitQuery 1
           (mkSearchResult doc0 (Score poemCorpus twoHitQuery 0) 0) 1).
  - rewrite HSearch. by apply list_elem_of_singleton.
  - intros r'. rewrite HSearch. by intros ->%list_elem_of_singleton.
Defined.
